(** * The documentation site's search pipeline

    A shallow embedding of three source files of the repository:

    - the index builder script ([extractSections], [markdownToText],
      [extractQuestions], [buildIndex]),
    - the content library of the site ([getAllDocsMeta],
      [extractHeadings], [getAllDocSlugs]),
    - the search bar component ([expandEntries] and the two effects of
      [SearchBar]).

    The markdown parser, the YAML front-matter splitter, the fuzzy index,
    the host's collation, the engine's [sort] and the file system are
    libraries or the host: the development takes their results as inputs
    (a syntax tree, a front-matter record, a result list, a comparison
    function, a sort that does what the language promises of it, a table
    of read results) and embeds what the repository's own code does with
    them. *)

From Stdlib Require Import ZArith NArith Ascii String Lia Permutation Sorted.
From stdpp Require Import base option list gmap pretty.

Set Warnings "-register-all,-clear-no-such-hyp".
Local Open Scope list_scope.

(** ** JavaScript strings

    A JavaScript string is a sequence of UTF-16 code units. *)
Module JS.

Definition jsstring := list N.

(** An ASCII literal as a JavaScript string. *)
Definition str (s : string) : jsstring :=
  (fun a => N_of_ascii a) <$> list_ascii_of_string s.

(** ECMAScript [WhiteSpace] and [LineTerminator] code units: what [\s]
    matches and what [String.prototype.trim] strips. *)
Definition is_ws (c : N) : bool :=
  ((9 <=? c) && (c <=? 13) ||
   (c =? 32) || (c =? 160) || (c =? 5760) ||
   (8192 <=? c) && (c <=? 8202) ||
   (c =? 8232) || (c =? 8233) || (c =? 8239) || (c =? 8287) ||
   (c =? 12288) || (c =? 65279))%N.

Definition SP : N := 32.
Definition LF : N := 10.

Fixpoint trimStart (s : jsstring) : jsstring :=
  match s with
  | c :: r => if is_ws c then trimStart r else s
  | [] => []
  end.

Definition trimEnd (s : jsstring) : jsstring := rev (trimStart (rev s)).

(** [s.trim()] *)
Definition trim (s : jsstring) : jsstring := trimEnd (trimStart s).

(** [s.replace(/\s+/g, ' ')]: every maximal run of white space becomes one
    space.  [in_run] tells that the previous code unit belonged to the run
    being replaced. *)
Fixpoint collapse_from (in_run : bool) (s : jsstring) : jsstring :=
  match s with
  | [] => []
  | c :: r =>
      if is_ws c
      then (if in_run then collapse_from true r else SP :: collapse_from true r)
      else c :: collapse_from false r
  end.

Definition collapse_ws (s : jsstring) : jsstring := collapse_from false s.

(** A string in which white space only occurs as single spaces is a fixed
    point of the collapse.  [normal in_run s]
    is the test, for a string that follows white space ([in_run]) or not. *)
Fixpoint normal (in_run : bool) (s : jsstring) : bool :=
  match s with
  | [] => true
  | c :: r =>
      if is_ws c then negb in_run && (c =? SP)%N && normal true r
      else normal false r
  end.

(** [parts.join(sep)] *)
Fixpoint join (sep : jsstring) (parts : list jsstring) : jsstring :=
  match parts with
  | [] => []
  | [p] => p
  | p :: rest => p ++ sep ++ join sep rest
  end.

(** [s.endsWith(suffix)] *)
Definition endsWith (s suffix : jsstring) : bool :=
  bool_decide (drop (length s - length suffix) s = suffix).

(** A string used as a condition: only the empty string is falsy. *)
Definition truthy (s : jsstring) : bool :=
  match s with [] => false | _ => true end.

(** [s.trim().length === 0] *)
Definition blank (s : jsstring) : bool := negb (truthy (trim s)).

End JS.
Export JS.

(** ** The markdown syntax tree (mdast)

    The parser's result is a tree of nodes; each node has a [type], and,
    depending on it, a [value], an [alt] text, a [depth] or [children]. *)
Module Mdast.

Inductive parent_type :=
  | root | paragraph | blockquote | list_ | listItem
  | emphasis | strong | delete | link | linkReference
  | table | tableRow | tableCell.

Inductive literal_type := text | inlineCode | code | html | yaml.

Inductive alt_type := image | imageReference.

Inductive void_type := thematicBreak | break_ | definition.

Inductive node :=
  | Parent (t : parent_type) (children : list node)
  | Heading (depth : nat) (children : list node)
  | Literal (t : literal_type) (value : jsstring)
  | Alt (t : alt_type) (alt : jsstring)
  | Void (t : void_type).

Inductive node_type :=
  | TParent (t : parent_type) | THeading | TLiteral (t : literal_type)
  | TAlt (t : alt_type) | TVoid (t : void_type).

Definition type_of (n : node) : node_type :=
  match n with
  | Parent t _ => TParent t
  | Heading _ _ => THeading
  | Literal t _ => TLiteral t
  | Alt t _ => TAlt t
  | Void t => TVoid t
  end.

#[global] Instance parent_type_eq_dec : EqDecision parent_type.
Proof. solve_decision. Defined.
#[global] Instance literal_type_eq_dec : EqDecision literal_type.
Proof. solve_decision. Defined.
#[global] Instance alt_type_eq_dec : EqDecision alt_type.
Proof. solve_decision. Defined.
#[global] Instance void_type_eq_dec : EqDecision void_type.
Proof. solve_decision. Defined.
#[global] Instance node_type_eq_dec : EqDecision node_type.
Proof. solve_decision. Defined.

(** [node.children ?? []] *)
Definition children_of (n : node) : list node :=
  match n with
  | Parent _ cs | Heading _ cs => cs
  | _ => []
  end.

Definition is_type (t : node_type) (n : node) : bool :=
  bool_decide (type_of n = t).

(** [toString(node)] of mdast-util-to-string with its default options: a
    node's [value] if it has one, else its non-empty [alt], else the
    concatenation over its [children], else the empty string. *)
Fixpoint toString (n : node) : jsstring :=
  match n with
  | Literal _ value => value
  | Alt _ alt => alt
  | Parent _ cs | Heading _ cs =>
      (fix all (ns : list node) : jsstring :=
         match ns with
         | [] => []
         | c :: r => toString c ++ all r
         end) cs
  | Void _ => []
  end.

(** The order in which [visit] of unist-util-visit reaches the nodes of a
    tree: a node, then its children from first to last, depth first. *)
Fixpoint preorder (n : node) : list node :=
  n :: match n with
       | Parent _ cs | Heading _ cs =>
           (fix all (ns : list node) : list node :=
              match ns with
              | [] => []
              | c :: r => preorder c ++ all r
              end) cs
       | _ => []
       end.

(** [visit(tree, type, visitor)] for a visitor that updates a state and
    returns nothing (so that the traversal is never cut short). *)
Definition visit {S : Type} (tree : node) (t : node_type)
    (visitor : S -> node -> S) (init : S) : S :=
  fold_left visitor (List.filter (is_type t) (preorder tree)) init.

End Mdast.
Export Mdast.

(** ** github-slugger

    [new GithubSlugger()] keeps a table of the slugs it has handed out;
    [slug(value)] derives a base slug from the value and, while that slug is
    taken, appends a counter to it. *)
Module Slugger.

(** The table of a slugger: for a slug handed out, how often it was asked
    for again. *)
Abbreviation occurrences := (gmap jsstring nat).

(** The slugs a slugger can hand out for a base slug: the base slug and
    the base slug with a counter. *)
Definition in_family (original key : jsstring) : Prop :=
  key = original \/ exists n : nat, key = original ++ str "-" ++ str (pretty n).

(** Two base slugs whose families have no slug in common. *)
Definition apart (original original' : jsstring) : Prop :=
  forall key, in_family original key -> ~ in_family original' key.

Section Slugger.

(** The stateless base function of the library (lower-casing, removal of
    the characters its regular expression lists, spaces to hyphens). *)
Variable slugify : jsstring -> jsstring.

(** [const slugger = new GithubSlugger()] *)
Definition fresh : occurrences := ∅.

(** The loop of the library's [slug] method, by which a repeated text gets
    an id with a counter as suffix:
    [while (own.call(occurrences, result)) {
       occurrences[originalSlug]++;
       result = originalSlug + '-' + occurrences[originalSlug] }]. *)
Fixpoint slug_loop (fuel : nat) (occ : occurrences)
    (originalSlug result : jsstring) : option (jsstring * occurrences) :=
  match occ !! result with
  | None => Some (result, occ)
  | Some _ =>
      match fuel with
      | 0 => None
      | S fuel' =>
          let n := S (default 0 (occ !! originalSlug)) in
          slug_loop fuel' (<[originalSlug := n]> occ) originalSlug
            (originalSlug ++ str "-" ++ str (pretty n))
      end
  end.

(** [slugger.slug(value)]: the slug and the slugger's new table.  The loop
    above ends within [size occ + 1] tests ([slug_loop_total]), so the
    default is never taken. *)
Definition slug (occ : occurrences) (value : jsstring)
    : jsstring * occurrences :=
  let originalSlug := slugify value in
  let '(result, occ') :=
    default (originalSlug, occ)
      (slug_loop (S (size occ)) occ originalSlug originalSlug) in
  (result, <[result := 0]> occ').

End Slugger.

(** The base function on ASCII text: letters are lower-cased, letters,
    digits, [-], [_] and spaces are kept (spaces as hyphens), the other
    ASCII characters go; code units above 127 are outside this fragment and
    are kept as they are. *)
Definition ascii_slug_unit (c : N) : list N :=
  (if (65 <=? c) && (c <=? 90) then [c + 32]
   else if (97 <=? c) && (c <=? 122) || (48 <=? c) && (c <=? 57)
           || (c =? 45) || (c =? 95) || (127 <=? c) then [c]
   else if c =? 32 then [45]
   else [])%N.

Definition ascii_slugify (s : jsstring) : jsstring :=
  concat (ascii_slug_unit <$> s).

End Slugger.

(** ** Values, exceptions and the host *)
Module Host.

(** The numbers: the integers, which the data model has for [order], and
    [NaN] (in YAML [.nan]), which is a number to [typeof] as well.
    Fractions and the infinities are left out: under [-], [<] and [||]
    they order the documents as integers do (also [Infinity - Infinity],
    which is [NaN] and falls back to the titles as a difference of 0
    does). *)
Inductive number :=
  | Num (z : Z)
  | NaN.

(** [a - b] *)
Definition minus (a b : number) : number :=
  match a, b with
  | Num x, Num y => Num (x - y)
  | _, _ => NaN
  end.

(** Whether [d || v] is [d]: a number is falsy when it is 0 or [NaN]. *)
Definition nonzero (d : number) : bool :=
  match d with
  | Num z => negb (z =? 0)%Z
  | NaN => false
  end.

(** [a < b] and [a === b] on numbers; both are false of [NaN]. *)
Definition below (a b : number) : Prop :=
  match a, b with
  | Num x, Num y => (x < y)%Z
  | _, _ => False
  end.

Definition same (a b : number) : Prop :=
  match a, b with
  | Num x, Num y => x = y
  | _, _ => False
  end.

(** The values a YAML front matter or a JSON file can hold. *)
Inductive jsvalue :=
  | VUndefined
  | VNull
  | VBoolean (b : bool)
  | VNumber (n : number)
  | VString (s : jsstring)
  | VArray (items : list jsvalue)
  | VObject (props : list (jsstring * jsvalue)).

(** [v ?? d] *)
Definition nullish_or (v d : jsvalue) : jsvalue :=
  match v with
  | VUndefined | VNull => d
  | _ => v
  end.

Definition nullish (v : jsvalue) : bool :=
  match v with
  | VUndefined | VNull => true
  | _ => false
  end.

(** [!v] *)
Definition falsy (v : jsvalue) : bool :=
  match v with
  | VUndefined | VNull | VBoolean false | VNumber (Num 0) | VNumber NaN
  | VString [] => true
  | _ => false
  end.

Inductive error :=
  | HostError (what : jsstring)       (* rejected file-system, YAML or parser call *)
  | TypeError (what : jsstring)
  | Error (message : jsstring).

Inductive result (A : Type) :=
  | Ok (a : A)
  | Throw (e : error).
Arguments Ok {A} a.
Arguments Throw {A} e.

(** Sequencing: a statement that throws ends the block it is in. *)
#[global] Instance result_bind : MBind result := fun A B f m =>
  match m with
  | Ok a => f a
  | Throw e => Throw e
  end.

#[global] Instance result_fmap : FMap result := fun A B f m =>
  match m with
  | Ok a => Ok (f a)
  | Throw e => Throw e
  end.

(** [array.sort(compare)].  The language leaves the algorithm to the
    engine, and with it which elements are compared and in which order of
    the arguments; an engine is a function of this type. *)
Definition sorter : Type :=
  forall A : Type, (A -> A -> result number) -> list A -> result (list A).

(** What the language calls a consistent comparator, for a comparison
    [cf] that gives every pair a number that is not [NaN]: [a =CF a]; if
    [a =CF b] then [b =CF a]; and [=CF], [<CF] and [>CF] are transitive. *)
Record consistent {A : Type} (cf : A -> A -> Z) : Prop := mkConsistent {
  cf_refl : forall a, cf a a = 0%Z;
  cf_sym : forall a b, cf a b = 0%Z -> cf b a = 0%Z;
  cf_trans_eq : forall a b c, cf a b = 0%Z -> cf b c = 0%Z -> cf a c = 0%Z;
  cf_trans_lt : forall a b c, (cf a b < 0)%Z -> (cf b c < 0)%Z -> (cf a c < 0)%Z;
  cf_trans_gt : forall a b c, (0 < cf a b)%Z -> (0 < cf b c)%Z -> (0 < cf a c)%Z
}.

(** On the elements of the array, [compare] returns what [cf] says. *)
Definition answers {A : Type} (compare : A -> A -> result number)
    (cf : A -> A -> Z) (array : list A) : Prop :=
  forall a b, a ∈ array -> b ∈ array -> compare a b = Ok (Num (cf a b)).

(** What the language promises of [sort] on an array of objects, whatever
    the engine: the elements are rearranged; an error is one that a call
    of [compare] on two elements threw; and when [compare] is a consistent
    comparator on the elements, no element stands behind one that it
    compares less than.  (The language also keeps the order of elements
    that compare equal; nothing here rests on that.) *)
Record conforming (sort : sorter) : Prop := mkConforming {
  sort_rearranges : forall A compare (array out : list A),
    sort A compare array = Ok out -> Permutation array out;
  sort_throws : forall A compare (array : list A) e,
    sort A compare array = Throw e ->
    exists a b, a ∈ array /\ b ∈ array /\ compare a b = Throw e;
  sort_sorts : forall A compare cf (array out : list A),
    consistent cf -> answers compare cf array ->
    sort A compare array = Ok out ->
    StronglySorted (fun a b => ~ (cf b a < 0)%Z) out
}.

(** The value [sort] takes a result of [compare] for: [NaN] counts as 0. *)
Definition comparison (v : number) : Z :=
  match v with
  | Num z => z
  | NaN => 0%Z
  end.

(** One engine: insertion.  The elements are placed one by one; a new
    element is compared, as [compare(new, placed)], with the placed ones
    from the last to the first and goes behind the first it does not
    compare less than.  [placed] holds the placed elements, last first. *)
Fixpoint place {A} (compare : A -> A -> result number) (x : A)
    (placed : list A) : result (list A) :=
  match placed with
  | [] => Ok [x]
  | y :: rest =>
      v ← compare x y;
      if (comparison v <? 0)%Z
      then rest' ← place compare x rest; Ok (y :: rest')
      else Ok (x :: y :: rest)
  end.

Fixpoint insertion_from {A} (compare : A -> A -> result number)
    (placed todo : list A) : result (list A) :=
  match todo with
  | [] => Ok (rev placed)
  | x :: rest =>
      placed' ← place compare x placed;
      insertion_from compare placed' rest
  end.

Definition insertion_sort : sorter :=
  fun A compare array => insertion_from compare [] array.

(** The comparison of two strings by their code units. *)
Fixpoint compare_units (s t : jsstring) : Z :=
  match s, t with
  | [], [] => 0
  | [], _ :: _ => -1
  | _ :: _, [] => 1
  | a :: s', b :: t' =>
      if (a <? b)%N then -1 else if (b <? a)%N then 1 else compare_units s' t'
  end.

(** The front matter the code looks at: [data.title], [data.order],
    [data.summary], [data.tags]; a key that is absent reads as
    [undefined]. *)
Record frontmatter := mkFrontmatter {
  fm_title : jsvalue;
  fm_order : jsvalue;
  fm_summary : jsvalue;
  fm_tags : jsvalue
}.

(** [typeof v === 'string'], [typeof v === 'number'] *)
Definition is_string (v : jsvalue) : bool :=
  match v with VString _ => true | _ => false end.

Definition is_number (v : jsvalue) : bool :=
  match v with VNumber _ => true | _ => false end.

(** A value that a [typeof] test has shown to be a string, a number. *)
Definition as_string (v : jsvalue) : jsstring :=
  match v with VString s => s | _ => [] end.

Definition as_number (v : jsvalue) : number :=
  match v with VNumber n => n | _ => Num 0 end.

(** [Array.isArray(v) ? v : []] *)
Definition array_or_empty (v : jsvalue) : list jsvalue :=
  match v with
  | VArray items => items
  | _ => []
  end.

(** The content directory as the two programs read it. *)
Record directory := mkDirectory {
  readdir : result (list jsstring);
  readFile : jsstring -> result jsstring
}.

Definition SUPPORTED_EXT : list jsstring := [str ".md"; str ".mdx"].

(** [SUPPORTED_EXT.some((ext) => file.endsWith(ext))] *)
Definition supported (file : jsstring) : bool :=
  existsb (endsWith file) SUPPORTED_EXT.

End Host.
Export Host.

(** ** The index builder *)
Module IndexBuilder.

Record Section_ := mkSection {
  sec_id : jsstring;
  sec_title : jsstring;
  sec_depth : nat;
  sec_content : jsstring
}.

Definition is_heading_upto (depth : nat) (n : node) : bool :=
  match n with
  | Heading d _ => d <=? depth
  | _ => false
  end.

(** The text a paragraph contributes to a section: [toString(sibling).trim()]. *)
Definition section_text (n : node) : jsstring := trim (toString n).

(** The inner loop of [extractSections]: the siblings after a heading of
    the given depth are scanned until a heading of that depth or less,
    until three texts are collected, or until the list ends. *)
Fixpoint lookahead (depth : nat) (siblings : list node)
    (paragraphs : list jsstring) : list jsstring :=
  match siblings with
  | [] => paragraphs
  | sibling :: rest =>
      if is_heading_upto depth sibling then paragraphs
      else
        let paragraphs :=
          if is_type (TParent paragraph) sibling
          then (let text := section_text sibling in
                if truthy text then paragraphs ++ [text] else paragraphs)
          else paragraphs in
        if 3 <=? length paragraphs then paragraphs
        else lookahead depth rest paragraphs
  end.

Section WithSlugger.

Variable slugify : jsstring -> jsstring.

(** The outer loop of [extractSections] over [children[index..]]; the
    siblings of [children[index]] from [index + 1] on are the rest of the
    list. *)
Fixpoint sections_loop (slugger : Slugger.occurrences) (children : list node)
    (sections : list Section_) : list Section_ :=
  match children with
  | [] => sections
  | node :: rest =>
      match node with
      | Heading depth _ =>
          if depth <=? 4 then
            let title := trim (toString node) in
            if negb (truthy title) then sections_loop slugger rest sections
            else
              let '(id, slugger) := Slugger.slug slugify slugger title in
              let paragraphs := lookahead depth rest [] in
              sections_loop slugger rest
                (sections ++ [mkSection id title depth (join (str " ") paragraphs)])
          else sections_loop slugger rest sections
      | _ => sections_loop slugger rest sections
      end
  end.

(** [extractSections], from the parsed tree on. *)
Definition extractSections (tree : node) : list Section_ :=
  sections_loop Slugger.fresh (children_of tree) [].

End WithSlugger.

(** The text a paragraph contributes to the body:
    [toString(node).replace(/\s+/g, ' ').trim()]. *)
Definition body_text (n : node) : jsstring := trim (collapse_ws (toString n)).

(** [markdownToText], from the parsed tree on. *)
Definition markdownToText (tree : node) : jsstring :=
  let paragraphs :=
    visit tree (TParent paragraph)
      (fun paragraphs node =>
         let paragraph := body_text node in
         if truthy paragraph then paragraphs ++ [paragraph] else paragraphs)
      [] in
  join [LF] paragraphs.

(** [extractQuestions], from the parsed tree on. *)
Definition extractQuestions (tree : node) : list jsstring :=
  visit tree (TParent paragraph)
    (fun questions node =>
       let text := trim (toString node) in
       if endsWith text (str "?") then questions ++ [text] else questions)
    [].

(** The lines of a body made from the given paragraph nodes: their texts
    in order, the empty ones left out. *)
Definition lines_of (paragraphs : list node) : list jsstring :=
  List.filter truthy (body_text <$> paragraphs).

(** The paragraph nodes directly below the root, and those anywhere in the
    tree in document order. *)
Definition top_level_paragraphs (tree : node) : list node :=
  List.filter (is_type (TParent paragraph)) (children_of tree).

Definition all_paragraphs (tree : node) : list node :=
  List.filter (is_type (TParent paragraph)) (preorder tree).

(** *** The build *)

Record Doc := mkDoc {
  slug : jsstring;
  title : jsvalue;
  summary : jsvalue;
  tags : list jsvalue;
  order : number;
  body : jsstring;
  questions : list jsstring;
  sections : list Section_
}.

(** [file.replace(/\.mdx?$/, '')] *)
Definition strip_md (file : jsstring) : jsstring :=
  if endsWith file (str ".mdx") then take (length file - 4) file
  else if endsWith file (str ".md") then take (length file - 3) file
  else file.

(** [typeof data.order === 'number' ? data.order : 999] *)
Definition order_or_999 (v : jsvalue) : number :=
  if is_number v then as_number v else Num 999.

(** What the script does to the outside, in the order it does it. *)
Inductive effect :=
  | Mkdir                              (* fsp.mkdir(dirname(OUTPUT_FILE), ...) is called *)
  | WriteFile (docs : list Doc)        (* fsp.writeFile(OUTPUT_FILE, JSON.stringify(docs, ...)) is called *)
  | ConsoleLog (entries : nat)
  | ConsoleError (cause : error)
  | ProcessExit (status : Z).

(** The outcome of the two calls that write. *)
Record output := mkOutput {
  mkdir : result unit;
  writeFile : list Doc -> result unit
}.

Section Build.

Variable slugify : jsstring -> jsstring.
(** [matter(raw)] of gray-matter: the front matter and the rest. *)
Variable matter : jsstring -> result (frontmatter * jsstring).
(** [createProcessor().parse(markdown)] *)
Variable parse : jsstring -> result node.
(** [String.prototype.localeCompare] in the host's locale. *)
Variable localeCompare : jsstring -> jsstring -> Z.
(** The conversion of a value that is not a string to a string. *)
Variable ToString : jsvalue -> jsstring.
(** [Array.prototype.sort] of the engine. *)
Variable sort : sorter.

(** The argument of [localeCompare] as a string. *)
Definition title_text (v : jsvalue) : jsstring :=
  match v with
  | VString s => s
  | _ => ToString v
  end.

(** [(a, b) => a.order - b.order || a.title.localeCompare(b.title)]; a
    title that is not a string has no [localeCompare] method. *)
Definition compareDocs (a b : Doc) : result number :=
  let d := minus (order a) (order b) in
  if nonzero d then Ok d
  else match title a with
       | VString s => Ok (Num (localeCompare s (title_text (title b))))
       | _ => Throw (TypeError (str "a.title.localeCompare is not a function"))
       end.

(** [a] may stand before [b] in an array sorted by ascending [order], ties
    broken by the host's comparison of the titles. *)
Definition doc_le (a b : Doc) : Prop :=
  below (order a) (order b) \/
  (same (order a) (order b) /\
   (localeCompare (title_text (title a)) (title_text (title b)) <= 0)%Z).

(** The body of the loop [for (const file of files)]. *)
Definition index_file (dir : directory) (file : jsstring) : result Doc :=
  raw ← readFile dir file;
  '(data, content) ← matter raw;
  let slug := strip_md file in
  body ← markdownToText <$> parse content;
  questions ← extractQuestions <$> parse content;
  sections ← extractSections slugify <$> parse content;
  Ok (mkDoc slug
        (nullish_or (fm_title data) (VString slug))
        (nullish_or (fm_summary data) (VString []))
        (array_or_empty (fm_tags data))
        (order_or_999 (fm_order data))
        body questions sections).

Fixpoint index_files (dir : directory) (files : list jsstring)
    (docs : list Doc) : result (list Doc) :=
  match files with
  | [] => Ok docs
  | file :: rest =>
      doc ← index_file dir file;
      index_files dir rest (docs ++ [doc])
  end.

(** An error during the directory read, a file read or a parse: the
    directory cannot be listed, or one of the supported files cannot be
    read, has a front matter that [matter] rejects, or a body that the
    parser rejects. *)
Inductive read_failure (dir : directory) : Prop :=
  | readdir_fails e :
      readdir dir = Throw e -> read_failure dir
  | readFile_fails entries file e :
      readdir dir = Ok entries -> In file (List.filter supported entries) ->
      readFile dir file = Throw e -> read_failure dir
  | matter_fails entries file raw e :
      readdir dir = Ok entries -> In file (List.filter supported entries) ->
      readFile dir file = Ok raw -> matter raw = Throw e -> read_failure dir
  | parse_fails entries file raw data content e :
      readdir dir = Ok entries -> In file (List.filter supported entries) ->
      readFile dir file = Ok raw -> matter raw = Ok (data, content) ->
      parse content = Throw e -> read_failure dir.

(** The reading half of the [try] block: up to and including the sort. *)
Definition read_docs (dir : directory) : result (list Doc) :=
  entries ← readdir dir;
  let files := List.filter supported entries in
  docs ← index_files dir files [];
  sort Doc compareDocs docs.

(** [buildIndex]: the effects of a run. *)
Definition buildIndex (dir : directory) (out : output) : list effect :=
  let failed error := [ConsoleError error; ProcessExit 1] in
  match read_docs dir with
  | Throw error => failed error
  | Ok docs =>
      Mkdir ::
      match mkdir out with
      | Throw error => failed error
      | Ok _ =>
          WriteFile docs ::
          match writeFile out docs with
          | Throw error => failed error
          | Ok _ => [ConsoleLog (length docs)]
          end
      end
  end.

(** The status the process ends with. *)
Definition exit_status (run : list effect) : Z :=
  match List.find (fun e => match e with ProcessExit _ => true | _ => false end) run with
  | Some (ProcessExit status) => status
  | _ => 0%Z
  end.

End Build.

End IndexBuilder.

(** ** The content library of the site *)
Module Content.

Record DocMeta := mkDocMeta {
  title : jsstring;
  order : number;
  summary : jsvalue;
  tags : list jsvalue;
  slug : jsstring
}.

Record Heading_ := mkHeading {
  id : jsstring;
  text_ : jsstring;
  depth : nat
}.

(** [slugFromFilename] *)
Definition slugFromFilename (filename : jsstring) : jsstring :=
  match List.find (endsWith filename) SUPPORTED_EXT with
  | Some ext => take (length filename - length ext) filename
  | None => filename
  end.

(** [readContentFiles] *)
Definition readContentFiles (dir : directory) : result (list jsstring) :=
  entries ← readdir dir;
  Ok (List.filter supported entries).

Section Content.

Variable slugify : jsstring -> jsstring.
Variable matter : jsstring -> result (frontmatter * jsstring).
Variable localeCompare : jsstring -> jsstring -> Z.
(** [Array.prototype.sort] of the engine. *)
Variable sort : sorter.

(** The messages of the two errors; code unit 34 is the double quote. *)
Definition missing_title (filename : jsstring) : error :=
  Error (str "Missing required frontmatter " ++ [34%N] ++ str "title" ++ [34%N]
         ++ str " in " ++ filename).

Definition missing_order (filename : jsstring) : error :=
  Error (str "Missing required numeric frontmatter " ++ [34%N] ++ str "order"
         ++ [34%N] ++ str " in " ++ filename).

(** The body of the loop [for (const filename of filenames)]. *)
Definition read_meta (dir : directory) (filename : jsstring) : result DocMeta :=
  raw ← readFile dir filename;
  '(frontmatter, _) ← matter raw;
  if falsy (fm_title frontmatter) || negb (is_string (fm_title frontmatter))
  then Throw (missing_title filename)
  else if negb (is_number (fm_order frontmatter))
  then Throw (missing_order filename)
  else
    Ok (mkDocMeta (as_string (fm_title frontmatter))
          (as_number (fm_order frontmatter))
          (nullish_or (fm_summary frontmatter) (VString []))
          (array_or_empty (fm_tags frontmatter))
          (slugFromFilename filename)).

Fixpoint read_metas (dir : directory) (filenames : list jsstring)
    (metas : list DocMeta) : result (list DocMeta) :=
  match filenames with
  | [] => Ok metas
  | filename :: rest =>
      meta ← read_meta dir filename;
      read_metas dir rest (metas ++ [meta])
  end.

(** [(a, b) => a.order - b.order || a.title.localeCompare(b.title)] *)
Definition compareMetas (a b : DocMeta) : result number :=
  let d := minus (order a) (order b) in
  if nonzero d then Ok d else Ok (Num (localeCompare (title a) (title b))).

Definition meta_le (a b : DocMeta) : Prop :=
  below (order a) (order b) \/
  (same (order a) (order b) /\ (localeCompare (title a) (title b) <= 0)%Z).

(** [getAllDocsMeta] *)
Definition getAllDocsMeta (dir : directory) : result (list DocMeta) :=
  filenames ← readContentFiles dir;
  metas ← read_metas dir filenames [];
  sort DocMeta compareMetas metas.

(** [getAllDocSlugs] *)
Definition getAllDocSlugs (dir : directory) : result (list jsstring) :=
  metas ← getAllDocsMeta dir;
  Ok (List.map slug metas).

(** The inner [visit(node, 'text', ...)] of [extractHeadings]. *)
Definition heading_text (node : node) : jsstring :=
  visit node (TLiteral text)
    (fun acc textNode =>
       match textNode with
       | Literal _ value => acc ++ value
       | _ => acc
       end)
    [].

(** The visitor of the outer [visit(tree, 'heading', ...)]; its state is
    the slugger and the headings pushed so far. *)
Definition heading_visitor (st : Slugger.occurrences * list Heading_)
    (node : node) : Slugger.occurrences * list Heading_ :=
  let '(slugger, headings) := st in
  match node with
  | Heading depth _ =>
      if (depth <? 2) || (3 <? depth) then st
      else
        let text := heading_text node in
        if length (trim text) =? 0 then st
        else
          let '(id, slugger) := Slugger.slug slugify slugger text in
          (slugger, headings ++ [mkHeading id text depth])
  | _ => st
  end.

(** [extractHeadings], from the parsed tree on. *)
Definition extractHeadings (tree : node) : list Heading_ :=
  snd (visit tree THeading heading_visitor (Slugger.fresh, [])).

End Content.

(** The headings the renderer's [extractHeadings] gives an id to: depth 2
    or 3, and text nodes that are not all white space. *)
Definition renderer_heading (n : node) : bool :=
  match n with
  | Heading depth _ =>
      negb ((depth <? 2) || (3 <? depth))
      && negb (length (trim (heading_text n)) =? 0)
  | _ => false
  end.

(** The headings the index builder's [extractSections] gives an id to,
    among the children of the root: depth up to 4, and a text that is not
    all white space. *)
Definition indexed_heading (n : node) : bool :=
  match n with
  | Heading depth _ => (depth <=? 4) && truthy (trim (toString n))
  | _ => false
  end.

(** The nodes below a node. *)
Definition descendants (n : node) : list node := tail (preorder n).

(** A section of the index and a heading of the renderer that stand for
    the same heading and link to the same anchor. *)
Definition same_anchor (s : IndexBuilder.Section_) (hd : Heading_) : Prop :=
  IndexBuilder.sec_id s = id hd /\
  IndexBuilder.sec_title s = text_ hd /\
  IndexBuilder.sec_depth s = depth hd.

(** The depths of the renderer's headings. *)
Definition toc_depth (depth : nat) : bool := (2 <=? depth) && (depth <=? 3).

Definition in_toc_depth (n : node) : bool :=
  match n with
  | Heading depth _ => toc_depth depth
  | _ => false
  end.

(** A child of the root that the two functions read alike: if it is a
    heading of depth 2 or 3, both give it an id or neither does; if the
    renderer gives it an id, both read the same text from it; and no
    heading of the renderer is hidden below it. *)
Definition reads_alike (c : node) : Prop :=
  (in_toc_depth c = true -> indexed_heading c = renderer_heading c) /\
  (renderer_heading c = true -> trim (toString c) = heading_text c) /\
  Forall (fun n => renderer_heading n = false) (descendants c).

(** A heading that only the index builder gives an id to: one of depth 1
    or 4 with text. *)
Definition index_only (c : node) : bool :=
  indexed_heading c && negb (in_toc_depth c).

(** The headings that only the index builder counts cannot take a slug
    away from the headings that both count. *)
Definition slugs_apart (slugify : jsstring -> jsstring) (children : list node)
    : Prop :=
  forall c1 c2, c1 ∈ children -> c2 ∈ children ->
    index_only c1 = true -> renderer_heading c2 = true ->
    Slugger.apart (slugify (trim (toString c1))) (slugify (heading_text c2)).

End Content.

(** ** The search bar *)
Module SearchBar.

Record SectionEntry := mkSectionEntry {
  id : jsstring;
  title : jsstring;
  depth : nat;
  content : jsstring
}.

Record SearchIndexDoc := mkSearchIndexDoc {
  doc_slug : jsstring;
  doc_title : jsvalue;
  doc_summary : jsvalue;
  doc_tags : list jsvalue;
  doc_body : jsstring;
  doc_questions : option (list jsstring);
  doc_sections : option (list SectionEntry)
}.

Inductive entry_type := doc | section.

Record SearchEntry := mkSearchEntry {
  type : entry_type;
  slug : jsstring;
  entry_title : jsvalue;
  summary : jsvalue;
  tags : list jsvalue;
  body : jsstring;
  questions : option (list jsstring);
  sectionId : option jsstring;
  sectionTitle : option jsstring;
  sectionContent : option jsstring
}.

(** [array.forEach(callback)] for a callback that updates a state. *)
Definition forEach {A S : Type} (array : list A) (callback : S -> A -> S)
    (init : S) : S :=
  fold_left callback array init.

(** [expandEntries]; the state of both loops is the array [expanded]. *)
Definition expandEntries (docs : list SearchIndexDoc) : list SearchEntry :=
  forEach docs
    (fun expanded doc =>
       let expanded :=
         expanded ++
         [mkSearchEntry SearchBar.doc (doc_slug doc) (doc_title doc)
            (doc_summary doc) (doc_tags doc) (doc_body doc) (doc_questions doc)
            None None None] in
       match doc_sections doc with
       | Some sections =>
           forEach sections
             (fun expanded section =>
                expanded ++
                [mkSearchEntry SearchBar.section (doc_slug doc) (doc_title doc)
                   (doc_summary doc) (doc_tags doc) (doc_body doc)
                   (doc_questions doc)
                   (Some (id section)) (Some (title section))
                   (Some (content section))])
             expanded
       | None => expanded
       end)
    [].

(** The entries the expansion owes to one document: its document entry,
    then a section entry for each of its sections, in their order. *)
Definition doc_entry (d : SearchIndexDoc) : SearchEntry :=
  mkSearchEntry SearchBar.doc (doc_slug d) (doc_title d) (doc_summary d)
    (doc_tags d) (doc_body d) (doc_questions d) None None None.

Definition section_entry (d : SearchIndexDoc) (sec : SectionEntry) : SearchEntry :=
  mkSearchEntry SearchBar.section (doc_slug d) (doc_title d) (doc_summary d)
    (doc_tags d) (doc_body d) (doc_questions d)
    (Some (id sec)) (Some (title sec)) (Some (content sec)).

(** [doc.sections], none when the key is absent. *)
Definition sections_of (d : SearchIndexDoc) : list SectionEntry :=
  default [] (doc_sections d).

Definition entries_of (d : SearchIndexDoc) : list SearchEntry :=
  doc_entry d :: (section_entry d <$> sections_of d).

(** An entry carries the fields of the document it belongs to. *)
Definition copies_parent (d : SearchIndexDoc) (e : SearchEntry) : Prop :=
  slug e = doc_slug d /\ entry_title e = doc_title d /\
  summary e = doc_summary d /\ tags e = doc_tags d /\
  body e = doc_body d /\ questions e = doc_questions d.

(** How [loadIndex] can end: [fetch], [res.json()] or the import rejects;
    the response is not ok; the documents arrive. *)
Inductive fetch_outcome :=
  | Rejected (cause : error)
  | NotOk
  | Fetched (docs : list SearchIndexDoc).

Inductive event :=
  | Loaded (outcome : fetch_outcome)   (* [loadIndex()] settles *)
  | Change (value : jsstring)          (* [onChange]: [setQuery(event.target.value)] *)
  | Select                             (* [onClick] of a result *)
  | Wait (ms : nat).                   (* time passes without an event *)

Section Component.

(** A result of the fuzzy index and its [search(query, { limit: 30 })]. *)
Variable FuseResult : Type.
Variable search : list SearchEntry -> jsstring -> list FuseResult.

(** The component between two events.  [handle] is the pending timeout:
    when it is due and the query its callback closes over.  [calls] lists
    the queries [search] was called with, oldest first. *)
Record state := mkState {
  fuseRef : option (list SearchEntry);
  query : jsstring;
  results : list FuseResult;
  loading : bool;
  handle : option (nat * jsstring);
  loadIndex_pending : bool;
  now : nat;
  calls : list jsstring;
  console : list error
}.

Definition set_fuseRef v (s : state) : state :=
  mkState v (query s) (results s) (loading s) (handle s)
    (loadIndex_pending s) (now s) (calls s) (console s).
Definition set_query v (s : state) : state :=
  mkState (fuseRef s) v (results s) (loading s) (handle s)
    (loadIndex_pending s) (now s) (calls s) (console s).
Definition set_results v (s : state) : state :=
  mkState (fuseRef s) (query s) v (loading s) (handle s)
    (loadIndex_pending s) (now s) (calls s) (console s).
Definition set_loading v (s : state) : state :=
  mkState (fuseRef s) (query s) (results s) v (handle s)
    (loadIndex_pending s) (now s) (calls s) (console s).
Definition set_handle v (s : state) : state :=
  mkState (fuseRef s) (query s) (results s) (loading s) v
    (loadIndex_pending s) (now s) (calls s) (console s).
Definition set_pending v (s : state) : state :=
  mkState (fuseRef s) (query s) (results s) (loading s) (handle s)
    v (now s) (calls s) (console s).
Definition set_now v (s : state) : state :=
  mkState (fuseRef s) (query s) (results s) (loading s) (handle s)
    (loadIndex_pending s) v (calls s) (console s).
Definition set_calls v (s : state) : state :=
  mkState (fuseRef s) (query s) (results s) (loading s) (handle s)
    (loadIndex_pending s) (now s) v (console s).
Definition set_console v (s : state) : state :=
  mkState (fuseRef s) (query s) (results s) (loading s) (handle s)
    (loadIndex_pending s) (now s) (calls s) v.

(** The body of [loadIndex], once the fetch has settled. *)
Definition loadIndex (outcome : fetch_outcome) (s : state) : result state :=
  match outcome with
  | Rejected cause => Throw cause
  | NotOk => Ok s
  | Fetched docs =>
      let expanded := expandEntries docs in
      Ok (set_fuseRef (Some expanded) s)
  end.

(** [loadIndex().catch((error) => console.error(..., error))] *)
Definition load_effect (outcome : fetch_outcome) (s : state) : state :=
  match loadIndex outcome s with
  | Ok s' => s'
  | Throw error => set_console (console s ++ [error]) s
  end.

(** The effect on [query]: its body ... *)
Definition query_effect (s : state) : state :=
  if negb (bool_decide (is_Some (fuseRef s))) || blank (query s)
  then set_results [] s
  else set_handle (Some (now s + 120, query s)) (set_loading true s).

(** ... and its cleanup, [window.clearTimeout(handle)]. *)
Definition cleanup (s : state) : state := set_handle None s.

(** [setQuery(value)]: a value equal to the state changes nothing; a new
    one renders again, and the effect on [query] is cleaned up and run. *)
Definition setQuery (value : jsstring) (s : state) : state :=
  if bool_decide (value = query s) then s
  else query_effect (cleanup (set_query value s)).

(** The callback of [window.setTimeout(..., 120)]. *)
Definition timeout_callback (query : jsstring) (s : state) : state :=
  let '(searchResults, calls) :=
    match fuseRef s with
    | Some fuse => (search fuse query, calls s ++ [query])
    | None => ([], calls s)
    end in
  set_handle None (set_loading false (set_results searchResults (set_calls calls s))).

(** Time passes: the pending timeout runs once it is due. *)
Definition wait (ms : nat) (s : state) : state :=
  let s := set_now (now s + ms) s in
  match handle s with
  | Some (due, query) => if due <=? now s then timeout_callback query s else s
  | None => s
  end.

Definition step (s : state) (e : event) : state :=
  match e with
  | Loaded outcome =>
      if loadIndex_pending s then load_effect outcome (set_pending false s) else s
  | Change value => setQuery value s
  | Select => set_results [] (setQuery [] s)
  | Wait ms => wait ms s
  end.

Definition run (s : state) (events : list event) : state :=
  fold_left step events s.

(** The component once mounted: the index is being fetched, and the effect
    on [query] has run for the empty query. *)
Definition mounted : state :=
  query_effect (mkState None [] [] false None true 0 [] []).

(** The states the component can be in: those some events lead to. *)
Definition reachable (s : state) : Prop :=
  exists events, s = run mounted events.

(** Keystrokes, each followed by the time until the next event. *)
Fixpoint typing (keys : list (jsstring * nat)) : list event :=
  match keys with
  | [] => []
  | (value, gap) :: rest => Change value :: Wait gap :: typing rest
  end.

(** Every keystroke changes the value of the input field: none of the
    values is the value before it, the first is not [current]. *)
Fixpoint changing (current : jsstring) (values : list jsstring) : Prop :=
  match values with
  | [] => True
  | value :: rest => value <> current /\ changing value rest
  end.

(** While the index is missing, nothing is shown and nothing is pending. *)
Definition without_index (s : state) : Prop :=
  fuseRef s = None /\ results s = [] /\ handle s = None.

(** While the query is blank, nothing is shown and nothing is pending. *)
Definition quiet_when_blank (s : state) : Prop :=
  blank (query s) = true -> results s = [] /\ handle s = None.

(** The index is there. *)
Definition has_index (s : state) : bool := bool_decide (is_Some (fuseRef s)).

End Component.

(** The fetch failed: it was rejected, or the response was not ok. *)
Definition failed (outcome : fetch_outcome) : Prop :=
  match outcome with
  | Fetched _ => False
  | _ => True
  end.

Definition is_Loaded (e : event) : bool :=
  match e with Loaded _ => true | _ => false end.

End SearchBar.

(** ** Sample documents *)
Module Samples.

Definition para (s : string) : node := Parent paragraph [Literal text (str s)].
Definition h (depth : nat) (s : string) : node :=
  Heading depth [Literal text (str s)].

(** A library call tabulated on the inputs of the samples. *)
Definition tabulated {V} (table : list (jsstring * V)) (key : jsstring)
    : result V :=
  match List.find (fun kv => bool_decide (fst kv = key)) table with
  | Some kv => Ok (snd kv)
  | None => Throw (HostError key)
  end.

(** Conversion to a string, on the values of the samples. *)
Definition sample_ToString (v : jsvalue) : jsstring :=
  match v with
  | VString s => s
  | VNumber (Num z) => str (pretty z)
  | VNumber NaN => str "NaN"
  | VBoolean true => str "true"
  | VBoolean false => str "false"
  | VNull => str "null"
  | VUndefined => str "undefined"
  | _ => []
  end.

(** [## Retry Policy], two paragraphs, [## Deeper]. *)
Definition kafka_tree : node :=
  Parent root [h 2 "Retry Policy"; para "Retries are bounded.";
               para "Why does this matter?"; h 2 "Deeper"].

(** [# Git Guide], a paragraph, [## Overview], [#### Notes],
    [### Overview]. *)
Definition guide_tree : node :=
  Parent root [h 1 "Git Guide"; para "Objects and refs."; h 2 "Overview";
               h 4 "Notes"; h 3 "Overview"].

Definition git_tree : node :=
  Parent root [h 1 "Overview"; para "Objects and refs."; h 2 "Overview"].

(** A file with the front matter [title: Overview] and the body
    [## Title Overview] and a paragraph: the body as the index builder
    parses it, after [matter] has taken the front matter away, and the
    whole file as [getDocBySlug] hands it to [extractHeadings], where the
    markdown parser reads the front matter as a thematic break and a
    heading of depth 2 (the closing [---] underlines the line before it). *)
Definition titled_body_tree : node :=
  Parent root [h 2 "Title Overview"; para "Objects and refs."].

Definition titled_file_tree : node :=
  Parent root [Void thematicBreak; h 2 "title: Overview";
               h 2 "Title Overview"; para "Objects and refs."].

Definition contents : list (jsstring * (frontmatter * jsstring)) :=
  [(str "kafka-raw",
     (mkFrontmatter (VString (str "Kafka Basics")) (VNumber (Num 3))
        (VString (str "Covers Kafka?")) (VArray [VString (str "kafka")]),
      str "kafka-body"));
   (str "git-raw",
     (mkFrontmatter (VString (str "Git")) (VNumber (Num 1)) VUndefined VUndefined,
      str "git-body"));
   (str "alpha-raw",
     (mkFrontmatter (VString (str "Alpha")) (VNumber (Num 3)) VUndefined VUndefined,
      str "git-body"));
   (str "draft-raw",
     (mkFrontmatter VUndefined VUndefined VUndefined VUndefined,
      str "kafka-body"));
   (str "year-raw",
     (mkFrontmatter (VNumber (Num 2024)) (VNumber (Num 1)) VUndefined VUndefined,
      str "git-body"));
   (str "banana-raw",
     (mkFrontmatter (VString (str "Banana")) (VNumber (Num 1)) VUndefined VUndefined,
      str "git-body"));
   (str "apple-raw",
     (mkFrontmatter (VString (str "apple")) (VNumber (Num 1)) VUndefined VUndefined,
      str "git-body"));
   (str "a-raw",
     (mkFrontmatter (VString (str "A")) (VNumber (Num 2)) VUndefined VUndefined,
      str "git-body"));
   (str "b-raw",
     (mkFrontmatter (VString (str "B")) (VNumber NaN) VUndefined VUndefined,
      str "git-body"));
   (str "c-raw",
     (mkFrontmatter (VString (str "C")) (VNumber (Num 1)) VUndefined VUndefined,
      str "git-body"))].

Definition sample_matter : jsstring -> result (frontmatter * jsstring) :=
  tabulated contents.

Definition sample_parse : jsstring -> result node :=
  tabulated [(str "kafka-body", kafka_tree); (str "git-body", git_tree)].

Definition sample_readFile : jsstring -> result jsstring :=
  tabulated [(str "03-kafka.md", str "kafka-raw"); (str "01-git.md", str "git-raw");
             (str "alpha.mdx", str "alpha-raw"); (str "draft.md", str "draft-raw");
             (str "review.md", str "year-raw"); (str "torn.md", str "torn-raw");
             (str "1-banana.md", str "banana-raw"); (str "2-apple.md", str "apple-raw");
             (str "a.md", str "a-raw"); (str "b.md", str "b-raw");
             (str "c.md", str "c-raw")].

(** Three well-formed documents and a file that is not markdown. *)
Definition site_dir : directory :=
  mkDirectory (Ok [str "03-kafka.md"; str "notes.txt"; str "01-git.md"; str "alpha.mdx"])
    sample_readFile.

(** A document without front matter next to a well-formed one. *)
Definition draft_dir : directory :=
  mkDirectory (Ok [str "03-kafka.md"; str "draft.md"]) sample_readFile.

(** A document with the front matter [title: 2024]. *)
Definition review_dir : directory :=
  mkDirectory (Ok [str "review.md"]) sample_readFile.

(** A document whose front matter cannot be parsed. *)
Definition torn_dir : directory :=
  mkDirectory (Ok [str "01-git.md"; str "torn.md"]) sample_readFile.

(** Two documents of order 1 with the titles [Banana] and [apple]. *)
Definition fruit_dir : directory :=
  mkDirectory (Ok [str "1-banana.md"; str "2-apple.md"]) sample_readFile.

(** Three documents with the orders 2, [.nan] and 1. *)
Definition nan_dir : directory :=
  mkDirectory (Ok [str "a.md"; str "b.md"; str "c.md"]) sample_readFile.

(** The document with [title: 2024] before one of the same order, and
    behind it. *)
Definition mixed_dir : directory :=
  mkDirectory (Ok [str "review.md"; str "01-git.md"]) sample_readFile.

Definition mixed_rev_dir : directory :=
  mkDirectory (Ok [str "01-git.md"; str "review.md"]) sample_readFile.

(** A stand-in for [localeCompare] in an English locale, on ASCII: the
    strings are compared letter by letter without regard to case, and
    strings that differ in case only with the lower case first (code
    units 65 to 90 are the capital letters). *)
Definition fold_case (c : N) : N :=
  if (65 <=? c)%N && (c <=? 90)%N then (c + 32)%N else c.

Definition collate (s t : jsstring) : Z :=
  let primary := compare_units (fold_case <$> s) (fold_case <$> t) in
  if (primary =? 0)%Z then compare_units t s else primary.

Definition writable : IndexBuilder.output :=
  IndexBuilder.mkOutput (Ok tt) (fun _ => Ok tt).

Definition sample_buildIndex : directory -> list IndexBuilder.effect :=
  fun dir =>
    IndexBuilder.buildIndex Slugger.ascii_slugify sample_matter sample_parse
      collate sample_ToString insertion_sort dir writable.

(** The array the build of [site_dir] writes. *)
Definition site_docs : list IndexBuilder.Doc :=
  Eval vm_compute in
    match IndexBuilder.read_docs Slugger.ascii_slugify sample_matter
            sample_parse collate sample_ToString insertion_sort site_dir with
    | Ok docs => docs
    | Throw _ => []
    end.

Definition draft_docs : list IndexBuilder.Doc :=
  Eval vm_compute in
    match IndexBuilder.read_docs Slugger.ascii_slugify sample_matter
            sample_parse collate sample_ToString insertion_sort draft_dir with
    | Ok docs => docs
    | Throw _ => []
    end.

Definition mixed_docs : list IndexBuilder.Doc :=
  Eval vm_compute in
    match IndexBuilder.read_docs Slugger.ascii_slugify sample_matter
            sample_parse collate sample_ToString insertion_sort mixed_dir with
    | Ok docs => docs
    | Throw _ => []
    end.

(** The section of [## Retry Policy] in [kafka_tree]. *)
Definition retry_section : IndexBuilder.Section_ :=
  IndexBuilder.mkSection (str "retry-policy") (str "Retry Policy") 2
    (str "Retries are bounded. Why does this matter?").

(** The index as the search bar fetches it: one document, two sections. *)
Definition fetched_docs : list SearchBar.SearchIndexDoc :=
  [SearchBar.mkSearchIndexDoc (str "03-kafka") (VString (str "Kafka Basics"))
     (VString (str "Covers Kafka?")) [VString (str "kafka")]
     (str "Retries are bounded.") (Some [str "Why does this matter?"])
     (Some [SearchBar.mkSectionEntry (str "retry-policy") (str "Retry Policy") 2
              (str "Retries are bounded. Why does this matter?");
            SearchBar.mkSectionEntry (str "deeper") (str "Deeper") 2 []])].

(** A stand-in for the fuzzy index: the entries whose slug or section id
    starts with the query, thirty at most. *)
Definition prefix_search (entries : list SearchBar.SearchEntry)
    (query : jsstring) : list SearchBar.SearchEntry :=
  take 30
    (List.filter
       (fun e =>
          bool_decide (take (length query) (SearchBar.slug e) = query) ||
          bool_decide (take (length query) (default [] (SearchBar.sectionId e)) = query))
       entries).

(** The search bar with the index loaded. *)
Definition loaded_bar : SearchBar.state SearchBar.SearchEntry :=
  SearchBar.run _ prefix_search (SearchBar.mounted _)
    [SearchBar.Loaded (SearchBar.Fetched fetched_docs)].

(** [> quoted words] *)
Definition quoted_doc : node :=
  Parent root [Parent blockquote [para "quoted words"]].

End Samples.

(** ** The outline of a document, without the loops

    What [extractSections] and [extractQuestions] compute, written with
    the list functions: to be compared with the loops above. *)
Module Outline.
Import IndexBuilder.

(** [node.depth] of a heading. *)
Definition heading_depth (n : node) : nat :=
  match n with
  | Heading depth _ => depth
  | _ => 0
  end.

(** The siblings before the first heading of the given depth or less. *)
Fixpoint until_heading (depth : nat) (siblings : list node) : list node :=
  match siblings with
  | [] => []
  | sibling :: rest =>
      if is_heading_upto depth sibling then []
      else sibling :: until_heading depth rest
  end.

(** The non-empty trimmed texts of the paragraphs among some nodes. *)
Definition paragraph_texts (nodes : list node) : list jsstring :=
  List.filter truthy
    (section_text <$> List.filter (is_type (TParent paragraph)) nodes).

(** The trimmed texts of all paragraphs of a tree, in document order. *)
Definition trimmed_paragraphs (tree : node) : list jsstring :=
  (fun n => trim (toString n)) <$> all_paragraphs tree.

(** The code unit of the question mark. *)
Definition QUESTION_MARK : N := 63.

(** The content of a section by the siblings after its heading: the
    first three texts of paragraphs before the next heading of that
    depth or less, joined by spaces. *)
Definition first_three (depth : nat) (after : list node) : jsstring :=
  join (str " ") (take 3 (paragraph_texts (until_heading depth after))).

(** Title, depth and content of the sections, heading by heading: each
    heading that gets a section with the siblings that follow it. *)
Fixpoint section_outline (children : list node)
    : list (jsstring * nat * jsstring) :=
  match children with
  | [] => []
  | child :: after =>
      if Content.indexed_heading child
      then (trim (toString child), heading_depth child,
            first_three (heading_depth child) after)
           :: section_outline after
      else section_outline after
  end.

End Outline.

(** ** Files that the two programs accept *)
Module Accepts.

Section Accepts.

Variable matter : jsstring -> result (frontmatter * jsstring).
Variable parse : jsstring -> result node.

(** A file that [getAllDocsMeta] accepts: it can be read, its front matter
    can be split off, its title is a string that is not empty and its
    order is a number. *)
Definition listable (dir : directory) (file : jsstring) : Prop :=
  exists raw data content,
    readFile dir file = Ok raw /\ matter raw = Ok (data, content) /\
    falsy (fm_title data) = false /\ is_string (fm_title data) = true /\
    is_number (fm_order data) = true.

(** A file that the index builder can index and sort: it can be read, its
    front matter and its body can be parsed, and its title, if there is
    one, is a string. *)
Definition indexable (dir : directory) (file : jsstring) : Prop :=
  exists raw data content tree,
    readFile dir file = Ok raw /\ matter raw = Ok (data, content) /\
    parse content = Ok tree /\
    (nullish (fm_title data) = true \/ is_string (fm_title data) = true).

End Accepts.

End Accepts.

(** ** The order of the documents *)
Module Orders.

Section Orders.

Variable localeCompare : jsstring -> jsstring -> Z.
Variable ToString : jsvalue -> jsstring.

(** A record that the comparison of the index builder can compare with
    every other: its title is a string and its order is not [NaN]. *)
Definition sortable (doc : IndexBuilder.Doc) : Prop :=
  is_string (IndexBuilder.title doc) = true /\ IndexBuilder.order doc <> NaN.

(** What [compareDocs] returns for two such records: the difference of
    the orders, or when that is 0 the comparison of the titles. *)
Definition doc_cf (a b : IndexBuilder.Doc) : Z :=
  let d := (comparison (IndexBuilder.order a)
            - comparison (IndexBuilder.order b))%Z in
  if (d =? 0)%Z
  then localeCompare (IndexBuilder.title_text ToString (IndexBuilder.title a))
         (IndexBuilder.title_text ToString (IndexBuilder.title b))
  else d.

(** The same for the listing, whose titles are strings. *)
Definition meta_cf (a b : Content.DocMeta) : Z :=
  let d := (comparison (Content.order a) - comparison (Content.order b))%Z in
  if (d =? 0)%Z then localeCompare (Content.title a) (Content.title b) else d.

End Orders.

End Orders.

(** ** What holds of the search bar between any two events *)
Module SearchBarInv.
Import SearchBar.

Section Component.

Variable FuseResult : Type.
Variable search : list SearchEntry -> jsstring -> list FuseResult.

(** A pending timeout is for the query in the input field, which is not
    blank; the index is there; the timeout is due within the next 120 ms;
    and the component shows that it is searching. *)
Definition timer_ok (s : state FuseResult) : Prop :=
  match handle _ s with
  | Some (due, q) =>
      q = query _ s /\ blank q = false /\ is_Some (fuseRef _ s) /\
      now _ s < due /\ due <= now _ s + 120 /\ loading _ s = true
  | None => True
  end.

(** The searches that have run were for queries that are not blank, and
    none has run while the index was missing; the index, once set, stays. *)
Definition calls_ok (s : state FuseResult) : Prop :=
  Forall (fun q => blank q = false) (calls _ s) /\
  (fuseRef _ s = None -> calls _ s = [] /\ results _ s = []) /\
  (loadIndex_pending _ s = true -> fuseRef _ s = None).

(** The results on display are none, or those of the last search that
    has run. *)
Definition results_ok (s : state FuseResult) : Prop :=
  results _ s = [] \/
  exists fuse q, fuseRef _ s = Some fuse /\ last (calls _ s) = Some q /\
                 results _ s = search fuse q.

Definition well_formed (s : state FuseResult) : Prop :=
  timer_ok s /\ calls_ok s /\ results_ok s.

End Component.

End SearchBarInv.

(** ** Links between documents *)
Module Links.
Import IndexBuilder.

(** [s.startsWith(prefix)] *)
Definition startsWith (s prefix : jsstring) : bool :=
  bool_decide (take (length prefix) s = prefix).

(** [url.replace(/^\.\//, '')] *)
Definition strip_dot_slash (url : jsstring) : jsstring :=
  if startsWith url (str "./") then drop 2 url else url.

(** The visitor of [visit(tree, 'link', ...)] in [rewriteLinks], as the
    value [node.url] has after it. *)
Definition rewrite_url (url : jsvalue) : jsvalue :=
  if falsy url || negb (is_string url) then url
  else
    let u := as_string url in
    if startsWith u (str "./")
    then
      let cleaned := strip_md (strip_dot_slash u) in
      VString (str "/docs/" ++ cleaned)
    else url.

End Links.

(** ** The revalidation route *)
Module Revalidate.
Import Links.

(** The request as the route reads it: the header
    [x-revalidate-secret] ([null] when absent) and how
    [request.json()] settles. *)
Record request := mkRequest {
  x_revalidate_secret : option jsstring;
  json : result jsvalue
}.

(** [NextResponse.json(body, { status })]; the status is 200 when none
    is given. *)
Record response := mkResponse {
  status : nat;
  success : bool;
  message : option jsstring;
  revalidated : option (list jsstring)
}.

(** What a call of the route comes to: its answer, or the error it
    throws; the paths [revalidatePath] was called with, in order; and
    what was written to the console. *)
Record outcome := mkOutcome {
  answer : result response;
  revalidatePath_calls : list jsstring;
  console : list error
}.

(** The own property of an object parsed from JSON: of two members with
    the same key the later one stays. *)
Definition own (props : list (jsstring * jsvalue)) (key : jsstring) : jsvalue :=
  fold_left (fun found kv => if bool_decide (kv.1 = key) then kv.2 else found)
    props VUndefined.

Definition cannot_read (key : jsstring) : error :=
  TypeError (str "Cannot read properties of null or undefined: " ++ key).

Definition not_a_function (key : jsstring) : error :=
  TypeError (key ++ str " is not a function").

(** [value.key] for a key that no prototype defines, as [secret] and
    [slugs] are: the own property of an object, [undefined] on an array,
    a string, a number or a boolean, a [TypeError] on [null] and
    [undefined]. *)
Definition get (value : jsvalue) (key : jsstring) : result jsvalue :=
  match value with
  | VUndefined | VNull => Throw (cannot_read key)
  | VObject props => Ok (own props key)
  | _ => Ok VUndefined
  end.

(** [slug.startsWith('/') ? slug : `/docs/${slug}`] on a string ... *)
Definition path_of (slug : jsstring) : jsstring :=
  if startsWith slug (str "/") then slug else str "/docs/" ++ slug.

(** ... and on any member of the array: only a string has the method. *)
Definition to_path (slug : jsvalue) : result jsstring :=
  match slug with
  | VString s => Ok (path_of s)
  | VUndefined | VNull => Throw (cannot_read (str "startsWith"))
  | _ => Throw (not_a_function (str "slug.startsWith"))
  end.

(** [slugs.map(...)] *)
Fixpoint map_paths (slugs : list jsvalue) : result (list jsstring) :=
  match slugs with
  | [] => Ok []
  | slug :: rest =>
      path ← to_path slug;
      paths ← map_paths rest;
      Ok (path :: paths)
  end.

(** [pathsToRevalidate], from [body] on. *)
Definition pathsToRevalidate (body : jsvalue) : result (list jsstring) :=
  value ← get body (str "slugs");
  let slugs := match value with VArray items => Some items | _ => None end in
  match slugs with
  | Some ((_ :: _) as slugs) => map_paths slugs
  | _ => Ok [str "/"]
  end.

Definition invalid_secret : response :=
  mkResponse 401 false (Some (str "Invalid secret token.")) None.

Definition error_revalidating : response :=
  mkResponse 500 false (Some (str "Error revalidating paths.")) None.

Section Route.

(** [process.env.REVALIDATE_SECRET], [undefined] when it is not set. *)
Variable REVALIDATE_SECRET : option jsstring.
(** [revalidatePath] of the framework: whether it throws for a path. *)
Variable revalidatePath : jsstring -> result unit.

(** [secret === process.env.REVALIDATE_SECRET] *)
Definition strict_equal (secret : jsvalue) : bool :=
  match secret, REVALIDATE_SECRET with
  | VString s, Some expected => bool_decide (s = expected)
  | VUndefined, None => true
  | _, _ => false
  end.

(** [!secret || secret !== process.env.REVALIDATE_SECRET] *)
Definition refused (secret : jsvalue) : bool :=
  falsy secret || negb (strict_equal secret).

(** [await request.json().catch(() => ({}))] *)
Definition body_of (req : request) : jsvalue :=
  match json req with
  | Ok body => body
  | Throw _ => VObject []
  end.

(** [headerSecret ?? body.secret] *)
Definition secret_of (req : request) : result jsvalue :=
  match x_revalidate_secret req with
  | Some headerSecret => Ok (VString headerSecret)
  | None => get (body_of req) (str "secret")
  end.

(** [pathsToRevalidate.forEach((path) => { revalidatePath(path); })]: the
    calls made, and the error that ended the loop, if any. *)
Fixpoint forEach_revalidatePath (paths : list jsstring)
    : list jsstring * option error :=
  match paths with
  | [] => ([], None)
  | path :: rest =>
      match revalidatePath path with
      | Throw error => ([path], Some error)
      | Ok _ =>
          let '(calls, failure) := forEach_revalidatePath rest in
          (path :: calls, failure)
      end
  end.

(** [POST] *)
Definition POST (req : request) : outcome :=
  let body := body_of req in
  match secret_of req with
  | Throw error => mkOutcome (Throw error) [] []
  | Ok secret =>
      if refused secret then mkOutcome (Ok invalid_secret) [] []
      else
        match pathsToRevalidate body with
        | Throw error => mkOutcome (Throw error) [] []
        | Ok paths =>
            match forEach_revalidatePath paths with
            | (calls, None) =>
                mkOutcome (Ok (mkResponse 200 true None (Some paths))) calls []
            | (calls, Some error) =>
                mkOutcome (Ok error_revalidating) calls [error]
            end
        end
  end.

End Route.

End Revalidate.

(** ** A document by its slug, and its page *)
Module Pages.

(** What [getDocBySlug] returns; [C] is the compiled content. *)
Record LoadedDoc (C : Type) := mkLoadedDoc {
  content : C;
  frontmatter_ : frontmatter;
  slug : jsstring;
  headings : list Content.Heading_
}.
Arguments mkLoadedDoc {C} _ _ _ _.
Arguments content {C} _.
Arguments frontmatter_ {C} _.
Arguments slug {C} _.
Arguments headings {C} _.

(** What [generateMetadata] returns. *)
Record Metadata := mkMetadata {
  meta_title : jsstring;
  description : option jsvalue
}.

(** What [DocPage] comes to: the page of a document, or [notFound()]. *)
Inductive page (C : Type) :=
  | Rendered (doc : LoadedDoc C)
  | NotFound.
Arguments Rendered {C} doc.
Arguments NotFound {C}.

Section Pages.

Variable slugify : jsstring -> jsstring.
Variable parse : jsstring -> result node.
(** The compiled content, and [compileMDX] with its front matter. *)
Variable C : Type.
Variable compileMDX : jsstring -> result (C * frontmatter).
Variable ToString : jsvalue -> jsstring.
(** The conversion of a string, an array or an object to a number. *)
Variable ToNumber : jsvalue -> number.
(** [fs.access(path.join(CONTENT_DIR, candidate))] *)
Variable access : jsstring -> result unit.

(** The loop [for (const ext of SUPPORTED_EXTENSIONS)] of [getDocBySlug]:
    the first candidate that can be accessed ends it. *)
Fixpoint resolve_from (slug : jsstring) (extensions : list jsstring)
    (resolvedFilename : option jsstring) : option jsstring :=
  match extensions with
  | [] => resolvedFilename
  | ext :: rest =>
      let candidate := slug ++ ext in
      match access candidate with
      | Ok _ => Some candidate
      | Throw _ => resolve_from slug rest resolvedFilename
      end
  end.

Definition not_found (slug : jsstring) : error :=
  Error (str "Document not found for slug " ++ slug).

(** [getDocBySlug].  (Its first statement, a [find] with an asynchronous
    predicate, yields a name that is not used.) *)
Definition getDocBySlug (dir : directory) (slug : jsstring)
    : result (LoadedDoc C) :=
  match resolve_from slug SUPPORTED_EXT None with
  | None => Throw (not_found slug)
  | Some resolvedFilename =>
      source ← readFile dir resolvedFilename;
      headings ← Content.extractHeadings slugify <$> parse source;
      '(content, frontmatter) ← compileMDX source;
      Ok (mkLoadedDoc content frontmatter slug headings)
  end.

(** The string a template literal makes of a value. *)
Definition interpolate (v : jsvalue) : jsstring :=
  match v with
  | VString s => s
  | _ => ToString v
  end.

(** [generateMetadata] *)
Definition generateMetadata (dir : directory) (slug : jsstring) : Metadata :=
  match getDocBySlug dir slug with
  | Ok doc =>
      mkMetadata
        (interpolate (fm_title (frontmatter_ doc)) ++ str " | Interview Knowledge Base")
        (Some (fm_summary (frontmatter_ doc)))
  | Throw _ => mkMetadata (str "Topic not found") None
  end.

(** [v > 0] *)
Definition greater_than_zero (v : jsvalue) : bool :=
  let n := match v with
           | VNumber n => n
           | VUndefined => NaN
           | VNull => Num 0
           | VBoolean b => Num (if b then 1 else 0)
           | _ => ToNumber v
           end in
  match n with
  | Num z => (0 <? z)%Z
  | NaN => false
  end.

(** [tags.length] *)
Definition length_of (tags : jsvalue) : jsvalue :=
  match tags with
  | VString s => VNumber (Num (Z.of_nat (length s)))
  | VArray items => VNumber (Num (Z.of_nat (length items)))
  | VObject props => Revalidate.own props (str "length")
  | _ => VUndefined
  end.

(** [doc.frontmatter.tags?.length > 0 && doc.frontmatter.tags.join(...)]
    in the header of the page: only an array has the method [join]. *)
Definition tags_line (tags : jsvalue) : result unit :=
  if nullish tags then Ok tt
  else if greater_than_zero (length_of tags)
  then match tags with
       | VArray _ => Ok tt
       | _ => Throw (Revalidate.not_a_function (str "doc.frontmatter.tags.join"))
       end
  else Ok tt.

(** [DocPage]: the page is built inside the [try], so that an error in
    its header ends in [notFound()] as well. *)
Definition DocPage (dir : directory) (slug : jsstring) : page C :=
  match (doc ← getDocBySlug dir slug;
         _ ← tags_line (fm_tags (frontmatter_ doc));
         Ok doc) with
  | Ok doc => Rendered doc
  | Throw _ => NotFound
  end.

End Pages.

End Pages.

(** ** The highlighter that all code blocks share *)
Module Shiki.

Section Shiki.

Variable Highlighter : Type.

(** The promise of [createHighlighter(...).then(...)]. *)
Inductive promise :=
  | Pending
  | Fulfilled (instance : Highlighter)
  | Rejected (cause : error).

(** The two globals [__shikiHighlighter] and [__shikiPromise], and how
    often [createHighlighter] has been called. *)
Record globals := mkGlobals {
  shikiHighlighter : option Highlighter;
  shikiPromise : option promise;
  createHighlighter_calls : nat
}.

(** What [getSingletonHighlighter] returns: the instance, or the promise
    in [__shikiPromise]. *)
Inductive returned :=
  | Instance (highlighter : Highlighter)
  | ThePromise.

(** [getSingletonHighlighter] *)
Definition getSingletonHighlighter (g : globals) : globals * returned :=
  match shikiHighlighter g with
  | Some instance => (g, Instance instance)
  | None =>
      let g :=
        match shikiPromise g with
        | Some _ => g
        | None =>
            mkGlobals (shikiHighlighter g) (Some Pending)
              (S (createHighlighter_calls g))
        end in
      (g, ThePromise)
  end.

(** [createHighlighter] settles: the callback of [then] stores the
    instance; a rejection is passed on by [then]. *)
Definition settle (settled : result Highlighter) (g : globals) : globals :=
  match shikiPromise g with
  | Some Pending =>
      match settled with
      | Ok instance =>
          mkGlobals (Some instance) (Some (Fulfilled instance))
            (createHighlighter_calls g)
      | Throw cause =>
          mkGlobals (shikiHighlighter g) (Some (Rejected cause))
            (createHighlighter_calls g)
      end
  | _ => g
  end.

Inductive event :=
  | Call                                  (* a code block asks for the highlighter *)
  | Settle (settled : result Highlighter). (* [createHighlighter] settles *)

Definition step (g : globals) (e : event) : globals :=
  match e with
  | Call => fst (getSingletonHighlighter g)
  | Settle settled => settle settled g
  end.

Definition run (g : globals) (events : list event) : globals :=
  fold_left step events g.

(** The globals when the module is loaded. *)
Definition start : globals := mkGlobals None None 0.

Definition reachable (g : globals) : Prop :=
  exists events, g = run start events.

(** What [await getSingletonHighlighter()] gives a caller once the
    promise has settled; nothing while it is pending. *)
Definition awaited (g : globals) : option (result Highlighter) :=
  match getSingletonHighlighter g with
  | (_, Instance instance) => Some (Ok instance)
  | (g', ThePromise) =>
      match shikiPromise g' with
      | Some (Fulfilled instance) => Some (Ok instance)
      | Some (Rejected cause) => Some (Throw cause)
      | _ => None
      end
  end.

(** The two globals agree, and [createHighlighter] has been called once
    if there is a promise and never if there is none. *)
Definition coherent (g : globals) : Prop :=
  match shikiPromise g with
  | None => shikiHighlighter g = None /\ createHighlighter_calls g = 0
  | Some Pending | Some (Rejected _) =>
      shikiHighlighter g = None /\ createHighlighter_calls g = 1
  | Some (Fulfilled instance) =>
      shikiHighlighter g = Some instance /\ createHighlighter_calls g = 1
  end.

End Shiki.

Arguments Pending {Highlighter}.
Arguments Rejected {Highlighter} cause.
Arguments ThePromise {Highlighter}.
Arguments Call {Highlighter}.

End Shiki.

(** ** More sample inputs *)
Module Cases.
Import Samples.

(** The listing of [site_dir]. *)
Definition site_metas : list Content.DocMeta :=
  Eval vm_compute in
    match Content.getAllDocsMeta sample_matter collate insertion_sort site_dir with
    | Ok metas => metas
    | Throw _ => []
    end.

(** [fs.access] for the files that can be read. *)
Definition sample_access (file : jsstring) : result unit :=
  (fun _ => tt) <$> sample_readFile file.

(** A stand-in for [compileMDX]: the body as the compiled content. *)
Definition sample_compileMDX (source : jsstring)
    : result (jsstring * frontmatter) :=
  '(data, content) ← sample_matter source;
  Ok (content, data).

(** Conversion to a number, on the values of the samples: a string of
    digits would be its number; the samples have none. *)
Definition sample_ToNumber (v : jsvalue) : number :=
  match v with
  | VString [] | VArray [] => Num 0
  | _ => NaN
  end.

Definition sample_secret : option jsstring := Some (str "s3cret").

(** A framework that cannot revalidate [/docs/broken]. *)
Definition sample_revalidatePath (path : jsstring) : result unit :=
  if bool_decide (path = str "/docs/broken") then Throw (HostError path)
  else Ok tt.

Definition sample_POST : Revalidate.request -> Revalidate.outcome :=
  Revalidate.POST sample_secret sample_revalidatePath.

(** The body [{ "slugs": [...] }]. *)
Definition slugs_body (slugs : list jsvalue) : jsvalue :=
  VObject [(str "slugs", VArray slugs)].

(** A request with the right secret in the header. *)
Definition signed (body : jsvalue) : Revalidate.request :=
  Revalidate.mkRequest (Some (str "s3cret")) (Ok body).

End Cases.

(** * Properties *)

(** ** Strings *)
Module JSFacts.

Lemma trimStart_suffix (s : jsstring) :
  exists p, s = p ++ trimStart s /\ forallb is_ws p = true.
Proof.
  induction s as [|c r IH]; simpl.
  - exists []. done.
  - destruct (is_ws c) eqn:E.
    + destruct IH as (p & Hp & Hw). exists (c :: p). simpl.
      rewrite E, Hw. split; [by f_equal|done].
    + exists []. done.
Qed.

Lemma trimStart_head (s : jsstring) c r :
  trimStart s = c :: r -> is_ws c = false.
Proof.
  induction s as [|a s IH]; simpl; [done|].
  destruct (is_ws a) eqn:E; [done|]. intros [= <- _]. done.
Qed.

Lemma trimStart_id (s : jsstring) :
  match s with c :: _ => is_ws c = false | [] => True end -> trimStart s = s.
Proof. destruct s as [|c r]; simpl; [done|]. by intros ->. Qed.

Lemma trimStart_idem (s : jsstring) : trimStart (trimStart s) = trimStart s.
Proof.
  apply trimStart_id. destruct (trimStart s) eqn:E; [done|].
  by apply trimStart_head in E.
Qed.

Lemma trimStart_all_ws (s : jsstring) :
  trimStart s = [] <-> forallb is_ws s = true.
Proof.
  induction s as [|c r IH]; simpl; [done|].
  destruct (is_ws c); simpl; [done|]. split; done.
Qed.

Lemma trimEnd_prefix (s : jsstring) :
  exists q, s = trimEnd s ++ q /\ forallb is_ws q = true.
Proof.
  unfold trimEnd. destruct (trimStart_suffix (rev s)) as (p & Hp & Hw).
  exists (rev p). split.
  - rewrite <- rev_app_distr, <- Hp. by rewrite rev_involutive.
  - rewrite forallb_forall in *. intros x Hx. apply Hw. by apply in_rev.
Qed.

(** The white-space test of [trim] on a whole string. *)
Lemma blank_all_ws (s : jsstring) :
  blank s = true <-> forallb is_ws s = true.
Proof.
  unfold blank, trim, trimEnd.
  destruct (rev (trimStart (rev (trimStart s)))) eqn:E; simpl.
  - split; [intros _|done].
    apply (f_equal (@rev N)) in E. rewrite rev_involutive in E. simpl in E.
    apply trimStart_all_ws in E.
    destruct (trimStart_suffix s) as (p & Hp & Hw).
    rewrite Hp, forallb_app, Hw. simpl.
    rewrite forallb_forall in *. intros x Hx. apply E. by apply in_rev in Hx.
  - split; [done|]. intros H.
    apply trimStart_all_ws in H. rewrite H in E. done.
Qed.

Lemma normal_collapse_from b (s : jsstring) : normal b (collapse_from b s) = true.
Proof.
  revert b. induction s as [|c r IH]; intros b; simpl; [done|].
  destruct (is_ws c) eqn:E.
  - destruct b; [apply IH|]. simpl. by rewrite IH.
  - simpl. by rewrite E.
Qed.

Lemma normal_fixed b (s : jsstring) :
  normal b s = true -> collapse_from b s = s.
Proof.
  revert b. induction s as [|c r IH]; intros b; simpl; [done|].
  destruct (is_ws c) eqn:E.
  - destruct b; simpl; [done|].
    destruct (N.eqb_spec c SP) as [->|]; simpl; [|done].
    intros H. by rewrite (IH true H).
  - intros H. by rewrite (IH false H).
Qed.

Lemma normal_weaken (s : jsstring) : normal true s = true -> normal false s = true.
Proof. destruct s as [|c r]; simpl; [done|]. by destruct (is_ws c). Qed.

Lemma normal_true_head (s : jsstring) :
  normal true s = true -> trimStart s = s.
Proof. destruct s as [|c r]; simpl; [done|]. by destruct (is_ws c). Qed.

Lemma normal_trimStart (s : jsstring) :
  normal false s = true -> normal false (trimStart s) = true.
Proof.
  destruct s as [|c r]; simpl; [done|].
  destruct (is_ws c) eqn:E; simpl; [|by rewrite E].
  destruct (N.eqb_spec c SP); simpl; [|done].
  intros H. rewrite (normal_true_head _ H). by apply normal_weaken.
Qed.

Lemma normal_prefix b (s q : jsstring) :
  normal b (s ++ q) = true -> normal b s = true.
Proof.
  revert b. induction s as [|c r IH]; intros b; simpl; [done|].
  destruct (is_ws c); [|apply IH].
  destruct (negb b && (c =? SP)%N); simpl; [apply IH|done].
Qed.

Lemma normal_trim (s : jsstring) :
  normal false s = true -> normal false (trim s) = true.
Proof.
  intros H. unfold trim. apply normal_trimStart in H.
  destruct (trimEnd_prefix (trimStart s)) as (q & Hq & _).
  rewrite Hq in H. by apply normal_prefix in H.
Qed.

Lemma normal_ws (s : jsstring) b c :
  normal b s = true -> c ∈ s -> is_ws c = true -> c = SP.
Proof.
  revert b. induction s as [|a r IH]; intros b H Hin Hc.
  - by apply elem_of_nil in Hin.
  - simpl in H. apply elem_of_cons in Hin as [->|Hin].
    + rewrite Hc in H. destruct (N.eqb_spec a SP); [done|].
      by rewrite andb_false_r in H.
    + destruct (is_ws a); [|by eapply IH].
      apply andb_true_iff in H as [_ H]. by eapply IH.
Qed.

Lemma trimEnd_idem (s : jsstring) : trimEnd (trimEnd s) = trimEnd s.
Proof.
  unfold trimEnd. by rewrite rev_involutive, trimStart_idem.
Qed.

Lemma trimStart_trimEnd (s : jsstring) :
  trimStart (trimEnd (trimStart s)) = trimEnd (trimStart s).
Proof.
  apply trimStart_id.
  destruct (trimEnd (trimStart s)) as [|c r] eqn:E; [done|].
  destruct (trimEnd_prefix (trimStart s)) as (q & Hq & _).
  rewrite E in Hq. simpl in Hq. by apply trimStart_head in Hq.
Qed.

(** [s.trim().trim()] is [s.trim()]. *)
Lemma trim_idem (s : jsstring) : trim (trim s) = trim s.
Proof.
  unfold trim. rewrite trimStart_trimEnd. apply trimEnd_idem.
Qed.

End JSFacts.

(** ** The slugger *)
Module SluggerFacts.
Import Slugger.

Lemma str_inj (s t : string) : str s = str t -> s = t.
Proof.
  unfold str. intros H.
  assert (Hl : list_ascii_of_string s = list_ascii_of_string t).
  { revert H. generalize (list_ascii_of_string s) (list_ascii_of_string t).
    intros l. induction l as [|a l IH]; intros [|b l']; simpl; try done.
    intros [= Hab Hl]. f_equal; [|by apply IH].
    rewrite <- (ascii_N_embedding a), <- (ascii_N_embedding b). by rewrite Hab. }
  rewrite <- (string_of_list_ascii_of_string s),
          <- (string_of_list_ascii_of_string t). by rewrite Hl.
Qed.

(** The candidates [original-n] differ from each other and from
    [original]. *)
Lemma suffixed_inj (original : jsstring) (n m : nat) :
  original ++ str "-" ++ str (pretty n) = original ++ str "-" ++ str (pretty m) ->
  n = m.
Proof.
  intros H. apply app_inv_head, app_inv_head, str_inj in H.
  by apply (inj pretty) in H.
Qed.

Lemma suffixed_ne (original : jsstring) (n : nat) :
  original ++ str "-" ++ str (pretty n) <> original.
Proof.
  intros H. apply (f_equal length) in H.
  rewrite !length_app in H. simpl in H. lia.
Qed.

Lemma slug_loop_ends (fuel : nat) (occ : occurrences)
    (original result : jsstring) (tried : gset jsstring) :
  tried ⊆ dom occ ->
  size occ < fuel + size tried ->
  result ∉ tried ->
  (result = original \/
   exists m, m <= default 0 (occ !! original) /\
             result = original ++ str "-" ++ str (pretty m)) ->
  (result ∈ dom occ -> original ∈ dom occ) ->
  (forall n, default 0 (occ !! original) < n ->
             original ++ str "-" ++ str (pretty n) ∉ tried) ->
  is_Some (slug_loop fuel occ original result).
Proof.
  revert occ result tried.
  induction fuel as [|fuel IH]; intros occ result tried Hsub Hsize Hnew Hform Horig Hfree;
    simpl; destruct (occ !! result) as [k|] eqn:Hres; try by eexists.
  - exfalso. assert (Hin : result ∈ dom occ) by (apply elem_of_dom; by eexists).
    assert (Hle : size ({[result]} ∪ tried) <= size (dom occ)).
    { apply subseteq_size. set_solver. }
    rewrite size_union, size_singleton, size_dom in Hle by set_solver. lia.
  - assert (Hin : result ∈ dom occ) by (apply elem_of_dom; by eexists).
    pose proof (Horig Hin) as Ho.
    set (n := S (default 0 (occ !! original))).
    assert (Hdom : dom (<[original:=n]> occ) = dom occ).
    { rewrite dom_insert_L. set_solver. }
    assert (Hne : original ++ str "-" ++ str (pretty n) <> result).
    { destruct Hform as [->|(m & Hm & ->)]; [apply suffixed_ne|].
      intros E. apply suffixed_inj in E. subst n. lia. }
    apply (IH _ _ ({[result]} ∪ tried)).
    + rewrite Hdom. set_solver.
    + rewrite size_union, size_singleton by set_solver.
      rewrite <- size_dom, Hdom, size_dom. lia.
    + intros [E|E]%elem_of_union.
      * apply elem_of_singleton in E. done.
      * revert E. apply Hfree. subst n. lia.
    + right. exists n. rewrite lookup_insert_eq. simpl. done.
    + intros _. rewrite Hdom. done.
    + intros n'. rewrite lookup_insert_eq. simpl. intros Hn'.
      intros [E|E]%elem_of_union.
      * apply elem_of_singleton in E.
        destruct Hform as [->|(m & Hm & ->)]; [by apply suffixed_ne in E|].
        apply suffixed_inj in E. subst n. lia.
      * revert E. apply Hfree. subst n. lia.
Qed.

(** The loop of [slug] finds a free slug within [size occ + 1] tests. *)
Lemma slug_loop_total (occ : occurrences) (original : jsstring) :
  is_Some (slug_loop (S (size occ)) occ original original).
Proof.
  apply (slug_loop_ends _ _ _ _ ∅).
  - set_solver.
  - rewrite size_empty. lia.
  - set_solver.
  - by left.
  - done.
  - set_solver.
Qed.

Section Slugger.

Variable slugify : jsstring -> jsstring.

Lemma in_family_original (original : jsstring) : in_family original original.
Proof. by left. Qed.

(** The loop hands out a slug of the family and touches the table at the
    base slug only. *)
Lemma slug_loop_frame (fuel : nat) (occ occ' : occurrences)
    (original result result' : jsstring) :
  slug_loop fuel occ original result = Some (result', occ') ->
  in_family original result ->
  in_family original result' /\
  forall key, key <> original -> occ' !! key = occ !! key.
Proof.
  revert occ result. induction fuel as [|fuel IH]; intros occ result; simpl;
    destruct (occ !! result) eqn:Hres; try done;
    try (by intros [= <- <-] ?).
  intros Hloop _. apply IH in Hloop as [Hfam Hframe].
  - split; [done|]. intros key Hkey. rewrite Hframe by done.
    by apply lookup_insert_ne.
  - right. by eexists.
Qed.

(** [slug] hands out a slug of the family of the base slug, and touches
    the table at the base slug and at the slug it hands out. *)
Lemma slug_in_family (occ : occurrences) (value : jsstring) :
  in_family (slugify value) (fst (slug slugify occ value)).
Proof.
  unfold slug.
  destruct (slug_loop _ occ _ _) as [[result occ']|] eqn:Hloop; simpl.
  - by apply slug_loop_frame in Hloop as [Hfam _]; [|apply in_family_original].
  - apply in_family_original.
Qed.

Lemma slug_touch (occ : occurrences) (value key : jsstring) :
  key <> slugify value -> key <> fst (slug slugify occ value) ->
  snd (slug slugify occ value) !! key = occ !! key.
Proof.
  unfold slug.
  destruct (slug_loop _ occ _ _) as [[result occ']|] eqn:Hloop; simpl.
  - intros Ho Hr. rewrite lookup_insert_ne by done.
    apply slug_loop_frame in Hloop as [_ Hframe]; [|apply in_family_original].
    by apply Hframe.
  - intros Ho _. by rewrite lookup_insert_ne.
Qed.

Lemma slug_frame (occ : occurrences) (value key : jsstring) :
  ~ in_family (slugify value) key ->
  snd (slug slugify occ value) !! key = occ !! key.
Proof.
  intros Hkey. apply slug_touch.
  - intros ->. apply Hkey, in_family_original.
  - intros ->. apply Hkey, slug_in_family.
Qed.

(** On two tables that agree on the family of the base slug, the loop
    hands out the same slug and leaves tables that agree on the family. *)
Lemma slug_loop_agree (fuel1 fuel2 : nat) (occ1 occ2 occ1' occ2' : occurrences)
    (original result result1 result2 : jsstring) :
  (forall key, in_family original key -> occ1 !! key = occ2 !! key) ->
  in_family original result ->
  slug_loop fuel1 occ1 original result = Some (result1, occ1') ->
  slug_loop fuel2 occ2 original result = Some (result2, occ2') ->
  result1 = result2 /\
  forall key, in_family original key -> occ1' !! key = occ2' !! key.
Proof.
  revert fuel2 occ1 occ2 result.
  induction fuel1 as [|fuel1 IH]; intros fuel2 occ1 occ2 result Hagree Hres;
    simpl; rewrite (Hagree result Hres);
    destruct fuel2 as [|fuel2]; simpl;
    destruct (occ2 !! result) eqn:Hlook; try done;
    try (by intros [= <- <-] [= <- <-]).
  rewrite (Hagree original (in_family_original _)).
  apply IH.
  - intros key Hkey. destruct (decide (original = key)) as [<-|Hne].
    + by rewrite !lookup_insert_eq.
    + rewrite !lookup_insert_ne by done. by apply Hagree.
  - right. by eexists.
Qed.

Lemma slug_agree (occ1 occ2 : occurrences) (value : jsstring) :
  (forall key, in_family (slugify value) key -> occ1 !! key = occ2 !! key) ->
  fst (slug slugify occ1 value) = fst (slug slugify occ2 value) /\
  forall key, in_family (slugify value) key ->
    snd (slug slugify occ1 value) !! key = snd (slug slugify occ2 value) !! key.
Proof.
  intros Hagree. unfold slug.
  destruct (slug_loop_total occ1 (slugify value)) as [[r1 occ1'] H1].
  destruct (slug_loop_total occ2 (slugify value)) as [[r2 occ2'] H2].
  rewrite H1, H2. simpl.
  destruct (slug_loop_agree _ _ _ _ _ _ _ _ _ _ Hagree
              (in_family_original _) H1 H2) as [<- Hagree'].
  split; [done|]. intros key Hkey.
  destruct (decide (r1 = key)) as [<-|Hne].
  - by rewrite !lookup_insert_eq.
  - rewrite !lookup_insert_ne by done. by apply Hagree'.
Qed.

End Slugger.

(** Base slugs that start differently are apart. *)
Lemma apart_by_head (a b : N) (s t : jsstring) :
  a <> b -> apart (a :: s) (b :: t).
Proof.
  intros Hne key [->|[n ->]] [E|[m E]]; simpl in E; congruence.
Qed.

End SluggerFacts.

(** ** The body text of a document *)
Module BodyFacts.
Import JSFacts IndexBuilder.

Lemma fold_left_push {A B} (keep : B -> bool) (f : A -> B) (l : list A)
    (init : list B) :
  fold_left (fun acc x => if keep (f x) then acc ++ [f x] else acc) l init
  = init ++ List.filter keep (f <$> l).
Proof.
  revert init. induction l as [|x l IH]; intros init; simpl.
  - by rewrite app_nil_r.
  - rewrite IH. destruct (keep (f x)); [|done].
    by rewrite <- app_assoc.
Qed.

Lemma markdownToText_lines (tree : node) :
  markdownToText tree = join [LF] (lines_of (all_paragraphs tree)).
Proof.
  unfold markdownToText, visit, lines_of, all_paragraphs.
  by rewrite (fold_left_push truthy body_text).
Qed.

Lemma body_text_normal (n : node) : normal false (body_text n) = true.
Proof. apply normal_trim, normal_collapse_from. Qed.

(** C3 as the claim has it, on [> quoted words]: the paragraph is inside a
    block quote, not at the top level, and its text is in the body. *)
Lemma markdownToText_not_top_level :
  markdownToText Samples.quoted_doc
  <> join [LF] (lines_of (top_level_paragraphs Samples.quoted_doc)).
Proof. vm_compute. discriminate. Qed.

(** C3, amended: the body is made of the paragraph nodes anywhere in the
    tree (also those inside lists and block quotes), in document order, one
    per line; every line is non-empty, has its white space collapsed to
    single spaces, none at either end, and so holds no line feed. *)
Theorem markdownToText_all_paragraphs (tree : node) :
  markdownToText tree = join [LF] (lines_of (all_paragraphs tree)) /\
  Forall (fun line => line <> [] /\ collapse_ws line = line /\
                      trim line = line /\ LF ∉ line)
         (lines_of (all_paragraphs tree)).
Proof.
  split; [apply markdownToText_lines|].
  unfold lines_of. apply Forall_forall. intros line Hin.
  apply list_elem_of_In, filter_In in Hin as [Hin Hne].
  apply list_elem_of_In, list_elem_of_fmap in Hin as (n & -> & _).
  pose proof (body_text_normal n) as Hn.
  split; [by destruct (body_text n)|].
  split; [by apply normal_fixed|].
  split; [apply trim_idem|].
  intros HLF. by pose proof (normal_ws _ _ _ Hn HLF eq_refl).
Qed.

End BodyFacts.

(** ** Sections *)
Module SectionFacts.
Import JSFacts IndexBuilder.

Lemma lookahead_cons (depth : nat) sibling rest (paragraphs : list jsstring) :
  lookahead depth (sibling :: rest) paragraphs =
  if is_heading_upto depth sibling then paragraphs
  else
    let paragraphs' :=
      if is_type (TParent paragraph) sibling
      then (if truthy (section_text sibling)
            then paragraphs ++ [section_text sibling] else paragraphs)
      else paragraphs in
    if 3 <=? length paragraphs' then paragraphs'
    else lookahead depth rest paragraphs'.
Proof. reflexivity. Qed.

Lemma lookahead_sources (depth : nat) (siblings : list node)
    (paragraphs : list jsstring) :
  length paragraphs < 3 ->
  exists between rest sources,
    siblings = between ++ rest /\
    Forall (fun n => is_heading_upto depth n = false) between /\
    sublist sources between /\
    Forall (fun n => is_type (TParent paragraph) n = true) sources /\
    lookahead depth siblings paragraphs
      = paragraphs ++ (section_text <$> sources) /\
    length paragraphs + length sources <= 3 /\
    (length paragraphs + length sources < 3 ->
       match rest with
       | [] => True
       | stop :: _ => is_heading_upto depth stop = true
       end).
Proof.
  revert paragraphs.
  induction siblings as [|sibling rest IH]; intros paragraphs Hlen.
  - exists [], [], [].
    repeat split; simpl; rewrite ?app_nil_r; auto using sublist_nil; lia.
  - rewrite lookahead_cons.
    destruct (is_heading_upto depth sibling) eqn:Hstop.
    { exists [], (sibling :: rest), [].
      repeat split; simpl; rewrite ?app_nil_r; auto using sublist_nil; lia. }
    set (paragraphs' :=
           if is_type (TParent paragraph) sibling
           then (if truthy (section_text sibling)
                 then paragraphs ++ [section_text sibling] else paragraphs)
           else paragraphs).
    cbv zeta.
    assert (Hcase :
      (paragraphs' = paragraphs ++ [section_text sibling] /\
       is_type (TParent paragraph) sibling = true) \/ paragraphs' = paragraphs).
    { subst paragraphs'. destruct (is_type _ sibling); [|by right].
      destruct (truthy _); [by left|by right]. }
    destruct (Nat.leb_spec 3 (length paragraphs')) as [Hfull|Hroom].
    + destruct Hcase as [[Hp Hpara]|Hp]; rewrite Hp in Hfull |- *.
      * rewrite length_app in Hfull. simpl in Hfull.
        exists [sibling], rest, [sibling]. simpl.
        repeat split; auto; try lia.
      * lia.
    + destruct (IH paragraphs' Hroom)
        as (between & rest' & sources & -> & Hbetween & Hsub & Hsrc & Heq & Hn & Hend).
      destruct Hcase as [[Hp Hpara]|Hp]; rewrite Hp in Heq, Hn, Hend; rewrite Hp.
      * exists (sibling :: between), rest', (sibling :: sources).
        rewrite length_app in Hn, Hend. simpl in *.
        rewrite <- app_assoc in Heq. simpl in Heq.
        split; [done|]. split; [by constructor|].
        split; [by apply sublist_skip|]. split; [by constructor|].
        split; [done|]. split; [lia|]. intros. apply Hend. lia.
      * exists (sibling :: between), rest', sources.
        split; [done|]. split; [by constructor|].
        split; [by apply sublist_cons|]. done.
Qed.

Section WithSlugger.

Variable slugify : jsstring -> jsstring.

Lemma sections_loop_acc slugger (children : list node) (sections : list Section_) :
  sections_loop slugify slugger children sections
  = sections ++ sections_loop slugify slugger children [].
Proof.
  revert slugger sections.
  induction children as [|node rest IH]; intros slugger sections; simpl.
  - by rewrite app_nil_r.
  - destruct node as [| depth kids | | |]; try apply IH.
    destruct (depth <=? 4); [|apply IH].
    destruct (truthy _); simpl; [|apply IH].
    destruct (Slugger.slug _ _ _) as [id slugger'].
    rewrite IH, (IH _ [_]). by rewrite <- app_assoc.
Qed.

(** Every section comes from a heading of the list, and its content from
    the look-ahead over the nodes after that heading. *)
Lemma sections_loop_origin slugger (children : list node) (s : Section_) :
  s ∈ sections_loop slugify slugger children [] ->
  exists before depth kids after,
    children = before ++ Heading depth kids :: after /\
    depth <= 4 /\
    sec_depth s = depth /\
    sec_title s = trim (toString (Heading depth kids)) /\
    sec_title s <> [] /\
    sec_content s = join (str " ") (lookahead depth after []).
Proof.
  revert slugger.
  induction children as [|node rest IH]; intros slugger Hin.
  - by apply elem_of_nil in Hin.
  - assert (Hrest : forall slugger', s ∈ sections_loop slugify slugger' rest [] ->
      exists before depth kids after,
        node :: rest = before ++ Heading depth kids :: after /\
        depth <= 4 /\ sec_depth s = depth /\
        sec_title s = trim (toString (Heading depth kids)) /\
        sec_title s <> [] /\
        sec_content s = join (str " ") (lookahead depth after [])).
    { intros slugger' H. destruct (IH _ H) as (before & d & kids & after & -> & ?).
      by exists (node :: before), d, kids, after. }
    simpl in Hin.
    destruct node as [| depth kids | | |]; try by eapply Hrest.
    destruct (Nat.leb_spec depth 4) as [Hd|]; [|by eapply Hrest].
    destruct (truthy _) eqn:Htitle; simpl in Hin; [|by eapply Hrest].
    destruct (Slugger.slug _ _ _) as [id slugger'].
    rewrite sections_loop_acc in Hin.
    apply elem_of_app in Hin as [Hin|Hin]; [|by eapply Hrest].
    apply list_elem_of_singleton in Hin as ->.
    exists [], depth, kids, rest. simpl.
    repeat split; auto. intros E. fold (toString (Heading depth kids)) in Htitle.
    cbn [toString] in Htitle. by rewrite E in Htitle.
Qed.

(** The section at a position comes from the heading at that position
    among the headings that get a section, and its content from the
    look-ahead over the nodes after that heading. *)
Lemma sections_loop_at slugger (children : list node) (i : nat) (s : Section_) :
  sections_loop slugify slugger children [] !! i = Some s ->
  exists before depth kids after,
    children = before ++ Heading depth kids :: after /\
    length (List.filter Content.indexed_heading before) = i /\
    Content.indexed_heading (Heading depth kids) = true /\
    sec_depth s = depth /\
    sec_title s = trim (toString (Heading depth kids)) /\
    sec_content s = join (str " ") (lookahead depth after []).
Proof.
  revert slugger i.
  induction children as [|node rest IH]; intros slugger i Hi; [done|].
  assert (Hskip : Content.indexed_heading node = false ->
    forall slugger', sections_loop slugify slugger' rest [] !! i = Some s ->
    exists before depth kids after,
      node :: rest = before ++ Heading depth kids :: after /\
      length (List.filter Content.indexed_heading before) = i /\
      Content.indexed_heading (Heading depth kids) = true /\
      sec_depth s = depth /\
      sec_title s = trim (toString (Heading depth kids)) /\
      sec_content s = join (str " ") (lookahead depth after [])).
  { intros Hno slugger' H.
    destruct (IH _ _ H) as (before & d & kids & after & -> & Hlen & ?).
    exists (node :: before), d, kids, after. split; [done|].
    split; [|done]. simpl. by rewrite Hno. }
  cbn [sections_loop] in Hi.
  destruct node as [| depth kids | | |]; try by eapply Hskip.
  destruct (depth <=? 4) eqn:Hd;
    [|eapply Hskip; [|exact Hi]; unfold Content.indexed_heading; by rewrite Hd].
  destruct (truthy (trim (toString (Heading depth kids)))) eqn:Htitle;
    cbn [negb] in Hi;
    [|eapply Hskip; [|exact Hi]; unfold Content.indexed_heading;
      by rewrite Hd, Htitle].
  assert (Hyes : Content.indexed_heading (Heading depth kids) = true).
  { unfold Content.indexed_heading. by rewrite Hd, Htitle. }
  destruct (Slugger.slug _ _ _) as [id slugger'].
  rewrite sections_loop_acc in Hi. destruct i as [|i]; simpl in Hi.
  - injection Hi as <-. by exists [], depth, kids, rest.
  - destruct (IH _ _ Hi) as (before & d & kids' & after & -> & Hlen & ?).
    exists (Heading depth kids :: before), d, kids', after.
    split; [done|]. split; [|done].
    cbn [List.filter]. rewrite Hyes. simpl. by rewrite Hlen.
Qed.

(** C4: the section at position [i] is the section of the heading at
    position [i] among the headings that get a section; its content is
    the space-join of at most three paragraph texts, and the paragraphs
    they come from all lie after that heading and before the next heading
    of the same or a smaller depth (or the end of the list). *)
Theorem extractSections_content (tree : node) (i : nat) (s : Section_) :
  extractSections slugify tree !! i = Some s ->
  exists before depth kids after between rest sources,
    children_of tree = before ++ Heading depth kids :: after /\
    length (List.filter Content.indexed_heading before) = i /\
    Content.indexed_heading (Heading depth kids) = true /\
    sec_depth s = depth /\
    sec_title s = trim (toString (Heading depth kids)) /\
    after = between ++ rest /\
    Forall (fun n => is_heading_upto depth n = false) between /\
    sublist sources between /\
    Forall (fun n => is_type (TParent paragraph) n = true) sources /\
    length sources <= 3 /\
    sec_content s = join (str " ") (section_text <$> sources).
Proof.
  intros Hi. apply sections_loop_at in Hi
    as (before & depth & kids & after & Hch & Hpos & Hidx & Hd & Ht & Hc).
  destruct (lookahead_sources depth after [])
    as (between & rest & sources & Ha & Hb & Hsub & Hsrc & Heq & Hn & _);
    [simpl; lia|].
  exists before, depth, kids, after, between, rest, sources.
  simpl in Heq, Hn. rewrite Heq in Hc. done.
Qed.

End WithSlugger.

Lemma extractSections_content_witness :
  exists before depth kids after sources,
    children_of Samples.kafka_tree = before ++ Heading depth kids :: after /\
    length (List.filter Content.indexed_heading before) = 0 /\
    length sources <= 3 /\
    sec_content Samples.retry_section = join (str " ") (section_text <$> sources).
Proof.
  destruct (extractSections_content Slugger.ascii_slugify Samples.kafka_tree 0
              Samples.retry_section)
    as (before & depth & kids & after & _ & _ & sources & Hch & Hpos & _ & _ & _
        & _ & _ & _ & _ & Hn & Hc).
  - vm_compute. reflexivity.
  - exists before, depth, kids, after, sources.
    split; [exact Hch|]. split; [exact Hpos|]. split; [exact Hn|exact Hc].
Defined.

End SectionFacts.

(** ** The expansion of the fetched documents *)
Module ExpandFacts.
Import SearchBar.

Lemma forEach_push {A B} (f : A -> B) (array : list A) (init : list B) :
  forEach array (fun acc x => acc ++ [f x]) init = init ++ (f <$> array).
Proof.
  unfold forEach. revert init.
  induction array as [|x array IH]; intros init; simpl.
  - by rewrite app_nil_r.
  - rewrite IH. by rewrite <- app_assoc.
Qed.

Lemma expand_one (expanded : list SearchEntry) (d : SearchIndexDoc) :
  match doc_sections d with
  | Some sections =>
      forEach sections
        (fun expanded section => expanded ++ [section_entry d section])
        (expanded ++ [doc_entry d])
  | None => expanded ++ [doc_entry d]
  end = expanded ++ entries_of d.
Proof.
  unfold entries_of, sections_of.
  destruct (doc_sections d) as [sections|]; simpl.
  - rewrite forEach_push. by rewrite <- app_assoc.
  - done.
Qed.

Lemma expandEntries_from (docs : list SearchIndexDoc) (init : list SearchEntry) :
  fold_left
    (fun expanded d =>
       match doc_sections d with
       | Some sections =>
           forEach sections
             (fun expanded section => expanded ++ [section_entry d section])
             (expanded ++ [doc_entry d])
       | None => expanded ++ [doc_entry d]
       end) docs init
  = init ++ concat (entries_of <$> docs).
Proof.
  revert init. induction docs as [|d docs IH]; intros init; simpl.
  - by rewrite app_nil_r.
  - rewrite expand_one, IH. by rewrite <- app_assoc.
Qed.

Lemma entries_of_copies (d : SearchIndexDoc) :
  Forall (copies_parent d) (entries_of d).
Proof.
  unfold entries_of. constructor; [done|].
  apply Forall_fmap, Forall_forall. intros sec _. done.
Qed.

(** C5: the expansion is, document by document in input order, one
    document entry followed by one section entry per section in the
    sections' order, each copying the fields of its document; so its length
    is the sum over the documents of one plus the number of sections. *)
Theorem expandEntries_spec (docs : list SearchIndexDoc) :
  expandEntries docs = concat (entries_of <$> docs) /\
  Forall (fun d => Forall (copies_parent d) (entries_of d) /\
                   head (entries_of d) = Some (doc_entry d) /\
                   tail (entries_of d) = section_entry d <$> sections_of d) docs /\
  length (expandEntries docs)
    = sum_list ((fun d => 1 + length (sections_of d)) <$> docs).
Proof.
  assert (H : expandEntries docs = concat (entries_of <$> docs)).
  { unfold expandEntries, forEach at 1.
    exact (expandEntries_from docs []). }
  split; [done|]. split.
  - apply Forall_forall. intros d _. split; [apply entries_of_copies|done].
  - rewrite H. clear H. induction docs as [|d docs IH]; [done|].
    rewrite !fmap_cons, concat_cons, length_app, IH.
    unfold entries_of. simpl. by rewrite length_fmap.
Qed.

End ExpandFacts.

(** ** Sorting *)
Module SortFacts.

(** *** Consistent comparators *)
Section Consistent.

Context {A : Type} (cf : A -> A -> Z).
Hypothesis Hcf : consistent cf.

Lemma consistent_lt_gt a b : (cf a b < 0)%Z -> (0 < cf b a)%Z.
Proof.
  intros Hab. destruct (Z.lt_trichotomy (cf b a) 0) as [Hba|[Hba|Hba]]; [| |done].
  - pose proof (cf_trans_lt cf Hcf a b a Hab Hba) as H.
    rewrite (cf_refl cf Hcf) in H. lia.
  - apply (cf_sym cf Hcf) in Hba. lia.
Qed.

Lemma consistent_gt_lt a b : (0 < cf a b)%Z -> (cf b a < 0)%Z.
Proof.
  intros Hab. destruct (Z.lt_trichotomy (cf b a) 0) as [Hba|[Hba|Hba]]; [done| |].
  - apply (cf_sym cf Hcf) in Hba. lia.
  - pose proof (cf_trans_gt cf Hcf a b a Hab Hba) as H.
    rewrite (cf_refl cf Hcf) in H. lia.
Qed.

Lemma consistent_le_trans a b c :
  (cf a b <= 0)%Z -> (cf b c <= 0)%Z -> (cf a c <= 0)%Z.
Proof.
  intros Hab Hbc.
  destruct (Z.lt_trichotomy (cf a c) 0) as [Hac|[Hac|Hac]]; [lia|lia|].
  pose proof (consistent_gt_lt a c Hac) as Hca.
  destruct (Z.eq_dec (cf a b) 0%Z) as [Eab|Nab], (Z.eq_dec (cf b c) 0%Z) as [Ebc|Nbc].
  - rewrite (cf_trans_eq cf Hcf a b c Eab Ebc) in Hac. lia.
  - assert (Hlt : (cf b c < 0)%Z) by lia.
    pose proof (cf_trans_lt cf Hcf b c a Hlt Hca) as Hba.
    rewrite (cf_sym cf Hcf a b Eab) in Hba. lia.
  - assert (Hlt : (cf a b < 0)%Z) by lia.
    pose proof (cf_trans_lt cf Hcf c a b Hca Hlt) as Hcb.
    rewrite (cf_sym cf Hcf b c Ebc) in Hcb. lia.
  - assert (H : (cf a c < 0)%Z) by (apply (cf_trans_lt cf Hcf a b c); lia). lia.
Qed.

(** An element that does not compare less than another may stand behind
    it. *)
Lemma consistent_not_lt a b : ~ (cf b a < 0)%Z -> (cf a b <= 0)%Z.
Proof.
  intros H. destruct (Z.lt_trichotomy (cf a b) 0) as [?|[?|Hab]]; [lia|lia|].
  destruct H. by apply consistent_gt_lt.
Qed.

Lemma consistent_le_not_lt a b : (cf a b <= 0)%Z -> ~ (cf b a < 0)%Z.
Proof. intros H Hba. apply consistent_lt_gt in Hba. lia. Qed.

End Consistent.

(** A comparison under which less and greater mirror each other and
    less-or-equal is transitive is a consistent comparator. *)
Lemma consistent_intro {A} (cf : A -> A -> Z) :
  (forall a b, (cf a b < 0)%Z <-> (0 < cf b a)%Z) ->
  (forall a b c, (cf a b <= 0)%Z -> (cf b c <= 0)%Z -> (cf a c <= 0)%Z) ->
  consistent cf.
Proof.
  intros Hm Ht.
  assert (Hsym : forall a b, cf a b = 0%Z -> cf b a = 0%Z).
  { intros a b E. destruct (Z.lt_trichotomy (cf b a) 0) as [H|[H|H]]; [|done|].
    - apply Hm in H. lia.
    - apply Hm in H. lia. }
  assert (Hlt : forall a b c, (cf a b < 0)%Z -> (cf b c < 0)%Z -> (cf a c < 0)%Z).
  { intros a b c Hab Hbc.
    assert (Hac : (cf a c <= 0)%Z) by (apply (Ht a b c); lia).
    destruct (Z.eq_dec (cf a c) 0%Z) as [E|]; [|lia].
    apply Hsym in E. assert (Hcb : (cf c b <= 0)%Z) by (apply (Ht c a b); lia).
    apply Hm in Hbc. lia. }
  split.
  - intros a. destruct (Z.lt_trichotomy (cf a a) 0) as [H|[H|H]]; [|done|].
    + pose proof (proj1 (Hm a a) H). lia.
    + pose proof (proj2 (Hm a a) H). lia.
  - exact Hsym.
  - intros a b c Eab Ebc.
    assert (H1 : (cf a c <= 0)%Z) by (apply (Ht a b c); lia).
    assert (H2 : (cf c a <= 0)%Z).
    { apply (Ht c b a); [rewrite (Hsym b c Ebc)|rewrite (Hsym a b Eab)]; lia. }
    destruct (Z.lt_trichotomy (cf a c) 0) as [H|[H|H]]; [|done|lia].
    apply Hm in H. lia.
  - exact Hlt.
  - intros a b c Hab Hbc. apply Hm. apply Hm in Hab, Hbc. by apply (Hlt c b a).
Qed.

(** The comparison by a first comparison and, where that finds no
    difference, by a second. *)
Lemma lexicographic_consistent {A} (cf1 cf2 : A -> A -> Z) :
  consistent cf1 -> consistent cf2 ->
  consistent (fun a b => if (cf1 a b =? 0)%Z then cf2 a b else cf1 a b).
Proof.
  intros H1 H2. apply consistent_intro.
  - intros a b. destruct (Z.eqb_spec (cf1 a b) 0) as [E|N].
    + rewrite (cf_sym cf1 H1 a b E), Z.eqb_refl. split.
      * by apply consistent_lt_gt.
      * by apply consistent_gt_lt.
    + destruct (Z.eqb_spec (cf1 b a) 0) as [E|_].
      { apply (cf_sym cf1 H1) in E. lia. }
      split; [by apply consistent_lt_gt|by apply consistent_gt_lt].
  - intros a b c.
    destruct (Z.eqb_spec (cf1 a b) 0) as [Eab|Nab],
             (Z.eqb_spec (cf1 b c) 0) as [Ebc|Nbc]; intros Hab Hbc.
    + rewrite (cf_trans_eq cf1 H1 a b c Eab Ebc), Z.eqb_refl.
      by apply (consistent_le_trans cf2 H2 a b c).
    + assert (Hac : (cf1 a c <= 0)%Z).
      { apply (consistent_le_trans cf1 H1 a b c); lia. }
      destruct (Z.eqb_spec (cf1 a c) 0) as [Eac|]; [|done].
      destruct Nbc. apply (cf_trans_eq cf1 H1 b a c); [|done].
      by apply (cf_sym cf1 H1).
    + assert (Hac : (cf1 a c <= 0)%Z).
      { apply (consistent_le_trans cf1 H1 a b c); lia. }
      destruct (Z.eqb_spec (cf1 a c) 0) as [Eac|]; [|done].
      destruct Nab. apply (cf_trans_eq cf1 H1 a c b); [done|].
      by apply (cf_sym cf1 H1).
    + assert (Hac : (cf1 a c < 0)%Z).
      { apply (cf_trans_lt cf1 H1 a b c); lia. }
      destruct (Z.eqb_spec (cf1 a c) 0); lia.
Qed.

(** The comparison of what a function makes of the elements. *)
Lemma preimage_consistent {A B} (f : B -> A) (cf : A -> A -> Z) :
  consistent cf -> consistent (fun a b => cf (f a) (f b)).
Proof.
  intros H. split.
  - intros a. apply (cf_refl cf H).
  - intros a b. apply (cf_sym cf H).
  - intros a b c. apply (cf_trans_eq cf H).
  - intros a b c. apply (cf_trans_lt cf H).
  - intros a b c. apply (cf_trans_gt cf H).
Qed.

(** The comparison the other way round. *)
Lemma flip_consistent {A} (cf : A -> A -> Z) :
  consistent cf -> consistent (fun a b => cf b a).
Proof.
  intros H. split.
  - intros a. apply (cf_refl cf H).
  - intros a b. apply (cf_sym cf H).
  - intros a b c Hab Hbc. by apply (cf_trans_eq cf H c b a).
  - intros a b c Hab Hbc. by apply (cf_trans_lt cf H c b a).
  - intros a b c Hab Hbc. by apply (cf_trans_gt cf H c b a).
Qed.

(** The difference of two integers. *)
Lemma difference_consistent {A} (key : A -> Z) :
  consistent (fun a b => (key a - key b)%Z).
Proof. split; intros; lia. Qed.

Lemma compare_units_consistent : consistent compare_units.
Proof.
  apply consistent_intro.
  - intros s. induction s as [|a s IH]; intros [|b t]; simpl; try lia.
    destruct (N.ltb_spec a b), (N.ltb_spec b a); try lia. apply IH.
  - intros s. induction s as [|a s IH]; intros [|b t] [|c u]; simpl;
      try (intros; lia).
    destruct (N.ltb_spec a b), (N.ltb_spec b a), (N.ltb_spec b c),
      (N.ltb_spec c b), (N.ltb_spec a c), (N.ltb_spec c a); try (intros; lia).
    assert (a = b) by lia. assert (b = c) by lia. subst. apply IH.
Qed.

Lemma collate_consistent : consistent Samples.collate.
Proof.
  apply (lexicographic_consistent
           (fun s t => compare_units (Samples.fold_case <$> s)
                         (Samples.fold_case <$> t))
           (fun s t => compare_units t s)).
  - apply (preimage_consistent (fmap Samples.fold_case)),
      compare_units_consistent.
  - apply flip_consistent, compare_units_consistent.
Qed.

(** *** Sorted arrays *)

Lemma StronglySorted_snoc {A} (R : relation A) (l : list A) (a : A) :
  StronglySorted R l -> Forall (fun x => R x a) l ->
  StronglySorted R (l ++ [a]).
Proof.
  induction 1 as [|x l _ IH Hall]; intros Ha; simpl.
  - by repeat constructor.
  - apply Forall_cons in Ha as [Hx Ha]. constructor; [by apply IH|].
    apply Forall_app. split; [done|]. by constructor.
Qed.

Lemma StronglySorted_rev {A} (R : relation A) (l : list A) :
  StronglySorted (fun a b => R b a) l -> StronglySorted R (rev l).
Proof.
  induction 1 as [|a l _ IH Hall]; simpl; [constructor|].
  apply StronglySorted_snoc; [done|].
  rewrite Forall_forall in Hall |- *. intros x Hx. apply Hall.
  by rewrite (Permutation_rev l).
Qed.

(** A sorted array is sorted under every relation that holds of its
    elements wherever the first does. *)
Lemma StronglySorted_weaken {A} (R R' : relation A) (l : list A) :
  (forall a b, a ∈ l -> b ∈ l -> R a b -> R' a b) ->
  StronglySorted R l -> StronglySorted R' l.
Proof.
  intros Himpl Hs. induction Hs as [|a l _ IH Hall]; [constructor|].
  constructor.
  - apply IH. intros x y Hx Hy. apply Himpl; by right.
  - rewrite Forall_forall in Hall |- *. intros b Hb.
    apply Himpl; [by left|by right|by apply Hall].
Qed.

(** *** The insertion engine *)
Section Insertion.

Context {A : Type} (compare : A -> A -> result number).

Lemma place_rearranges (x : A) (placed placed' : list A) :
  place compare x placed = Ok placed' -> Permutation (x :: placed) placed'.
Proof.
  revert placed'. induction placed as [|y rest IH]; intros placed'; simpl.
  - by intros [= <-].
  - destruct (compare x y) as [v|]; simpl; [|done].
    destruct (comparison v <? 0)%Z; [|by intros [= <-]].
    destruct (place compare x rest) as [rest'|]; simpl; [|done].
    intros [= <-]. rewrite <- (IH rest' eq_refl). apply perm_swap.
Qed.

Lemma place_throws (x : A) (placed : list A) e :
  place compare x placed = Throw e ->
  exists y, y ∈ placed /\ compare x y = Throw e.
Proof.
  induction placed as [|y rest IH]; simpl; [done|].
  destruct (compare x y) as [v|e'] eqn:Hc; simpl.
  - destruct (comparison v <? 0)%Z; [|done].
    destruct (place compare x rest) as [rest'|e'] eqn:Hp; simpl; [done|].
    intros [= <-]. destruct (IH eq_refl) as (z & Hz & Hthrow).
    exists z. split; [by right|done].
  - intros [= <-]. exists y. split; [by left|done].
Qed.

Lemma insertion_from_rearranges (placed todo out : list A) :
  insertion_from compare placed todo = Ok out ->
  Permutation (placed ++ todo) out.
Proof.
  revert placed. induction todo as [|x rest IH]; intros placed; simpl.
  - intros [= <-]. rewrite app_nil_r. apply Permutation_rev.
  - destruct (place compare x placed) as [placed'|] eqn:Hp; simpl; [|done].
    intros H. etrans; [|exact (IH _ H)].
    rewrite <- (place_rearranges _ _ _ Hp). simpl.
    symmetry. apply Permutation_middle.
Qed.

Lemma insertion_from_throws (placed todo : list A) e :
  insertion_from compare placed todo = Throw e ->
  exists a b, a ∈ placed ++ todo /\ b ∈ placed ++ todo /\ compare a b = Throw e.
Proof.
  revert placed. induction todo as [|x rest IH]; intros placed; simpl; [done|].
  destruct (place compare x placed) as [placed'|e'] eqn:Hp; simpl.
  - intros H. destruct (IH _ H) as (a & b & Ha & Hb & Hc).
    apply place_rearranges in Hp.
    assert (Hperm : Permutation (placed ++ x :: rest) (placed' ++ rest)).
    { rewrite <- Hp. simpl. symmetry. apply Permutation_middle. }
    exists a, b. by rewrite Hperm.
  - intros [= <-]. destruct (place_throws _ _ _ Hp) as (y & Hy & Hc).
    exists x, y. set_solver.
Qed.

Context (cf : A -> A -> Z).
Hypothesis Hcf : consistent cf.

Lemma place_sorted (x : A) (placed placed' : list A) :
  (forall y, y ∈ placed -> compare x y = Ok (Num (cf x y))) ->
  StronglySorted (fun a b => (cf b a <= 0)%Z) placed ->
  place compare x placed = Ok placed' ->
  StronglySorted (fun a b => (cf b a <= 0)%Z) placed'.
Proof.
  revert placed'. induction placed as [|y rest IH]; intros placed' Hc Hs; simpl.
  - intros [= <-]. by repeat constructor.
  - rewrite (Hc y) by by left. simpl.
    apply StronglySorted_inv in Hs as [Hrest Hall].
    destruct (Z.ltb_spec (cf x y) 0) as [Hlt|Hge].
    + destruct (place compare x rest) as [rest'|] eqn:Hp; simpl; [|done].
      intros [= <-]. constructor.
      * apply IH; [|done|done]. intros z Hz. apply Hc. by right.
      * apply place_rearranges in Hp. rewrite <- Hp.
        constructor; [lia|done].
    + intros [= <-]. constructor; [by constructor|].
      assert (Hyx : (cf y x <= 0)%Z).
      { apply (consistent_not_lt cf Hcf). lia. }
      constructor; [done|].
      rewrite Forall_forall in Hall |- *. intros z Hz.
      apply (consistent_le_trans cf Hcf z y x); [by apply Hall|done].
Qed.

Lemma insertion_from_sorted (placed todo out : list A) :
  answers compare cf (placed ++ todo) ->
  StronglySorted (fun a b => (cf b a <= 0)%Z) placed ->
  insertion_from compare placed todo = Ok out ->
  StronglySorted (fun a b => (cf a b <= 0)%Z) out.
Proof.
  revert placed. induction todo as [|x rest IH]; intros placed Ha Hs; simpl.
  - intros [= <-]. by apply StronglySorted_rev.
  - destruct (place compare x placed) as [placed'|] eqn:Hp; simpl; [|done].
    apply IH.
    + intros a b Hin1 Hin2. apply place_rearranges in Hp.
      assert (Hperm : Permutation (placed ++ x :: rest) (placed' ++ rest)).
      { rewrite <- Hp. simpl. symmetry. apply Permutation_middle. }
      apply Ha; by rewrite Hperm.
    + apply (place_sorted x placed); [|done|done].
      intros y Hy. apply Ha; set_solver.
Qed.

End Insertion.

(** Insertion is an engine as the language wants it. *)
Lemma insertion_sort_conforming : conforming insertion_sort.
Proof.
  split; unfold insertion_sort.
  - intros A compare array out H.
    by apply insertion_from_rearranges in H.
  - intros A compare array e H.
    by apply insertion_from_throws in H.
  - intros A compare cf array out Hcf Ha H.
    apply (insertion_from_sorted compare cf Hcf) in H; [|done|constructor].
    eapply StronglySorted_weaken; [|exact H].
    intros a b _ _. by apply consistent_le_not_lt.
Qed.

(** *** What follows for every engine *)
Section Engine.

Variable sort : sorter.
Hypothesis engine : conforming sort.

(** A comparison that does not throw on the elements sorts the array. *)
Lemma sort_returns {A} (compare : A -> A -> result number) (array : list A) :
  (forall a b, a ∈ array -> b ∈ array -> exists v, compare a b = Ok v) ->
  exists out, sort A compare array = Ok out /\ Permutation array out.
Proof.
  intros Hc. destruct (sort A compare array) as [out|e] eqn:Hs.
  - exists out. split; [done|]. by eapply (sort_rearranges sort engine).
  - apply (sort_throws sort engine) in Hs as (a & b & Ha & Hb & Hthrow).
    destruct (Hc a b Ha Hb) as [v Hv]. congruence.
Qed.

(** Under a consistent comparator the array comes back sorted. *)
Lemma sort_sorted {A} (compare : A -> A -> result number) (cf : A -> A -> Z)
    (array out : list A) :
  consistent cf -> answers compare cf array ->
  sort A compare array = Ok out ->
  Permutation array out /\
  StronglySorted (fun a b => (cf a b <= 0)%Z) out.
Proof.
  intros Hcf Ha Hs. split; [by eapply (sort_rearranges sort engine)|].
  eapply StronglySorted_weaken;
    [|by eapply (sort_sorts sort engine A compare cf)].
  intros a b _ _. by apply consistent_not_lt.
Qed.

End Engine.

End SortFacts.

(** ** The build of the index *)
Module BuildFacts.
Import IndexBuilder Orders SortFacts.

Section Build.

Variable slugify : jsstring -> jsstring.
Variable matter : jsstring -> result (frontmatter * jsstring).
Variable parse : jsstring -> result node.
Variable localeCompare : jsstring -> jsstring -> Z.
Variable ToString : jsvalue -> jsstring.
Variable sort : sorter.

Abbreviation doc_le := (doc_le localeCompare ToString).
Abbreviation doc_cf := (doc_cf localeCompare ToString).
Abbreviation compareDocs := (compareDocs localeCompare ToString).
Abbreviation index_file := (index_file slugify matter parse).
Abbreviation index_files := (index_files slugify matter parse).
Abbreviation read_docs :=
  (read_docs slugify matter parse localeCompare ToString sort).
Abbreviation buildIndex :=
  (buildIndex slugify matter parse localeCompare ToString sort).
Abbreviation read_failure := (read_failure matter parse).

(** On records whose titles are strings and whose orders are not [NaN],
    the comparison returns a number that is not [NaN] ... *)
Lemma compareDocs_answers (a b : Doc) :
  sortable a -> sortable b -> compareDocs a b = Ok (Num (doc_cf a b)).
Proof.
  intros [Ha Hoa] [Hb Hob].
  unfold IndexBuilder.compareDocs, Orders.doc_cf.
  destruct (order a) as [x|]; [|done]. destruct (order b) as [y|]; [|done].
  simpl. destruct (Z.eqb_spec (x - y) 0); simpl; [|done].
  by destruct (title a).
Qed.

(** ... it is a consistent comparator when [localeCompare] is one ... *)
Lemma doc_cf_consistent : consistent localeCompare -> consistent doc_cf.
Proof.
  intros Hc.
  apply (lexicographic_consistent
           (fun a b => (comparison (order a) - comparison (order b))%Z)
           (fun a b => localeCompare (title_text ToString (title a))
                         (title_text ToString (title b)))).
  - apply difference_consistent.
  - by apply (preimage_consistent (fun d => title_text ToString (title d))).
Qed.

(** ... and it puts the records in the order of [doc_le]. *)
Lemma doc_cf_le (a b : Doc) :
  sortable a -> sortable b -> (doc_cf a b <= 0)%Z -> doc_le a b.
Proof.
  intros [_ Hoa] [_ Hob]. unfold Orders.doc_cf, IndexBuilder.doc_le.
  destruct (order a) as [x|]; [|done]. destruct (order b) as [y|]; [|done].
  simpl. destruct (Z.eqb_spec (x - y) 0); intros H.
  - right. split; [lia|done].
  - left. lia.
Qed.

(** What a run writes is what the reading half returned. *)
Lemma buildIndex_writes dir out docs :
  In (WriteFile docs) (buildIndex dir out) -> read_docs dir = Ok docs.
Proof.
  unfold IndexBuilder.buildIndex.
  destruct (read_docs dir) as [docs'|e]; simpl.
  - destruct (mkdir out); simpl.
    + destruct (writeFile out docs'); simpl; intros H;
        repeat (destruct H as [H|H]; try discriminate);
        try contradiction; by injection H as ->.
    + intros H; repeat (destruct H as [H|H]; try discriminate); contradiction.
  - intros H; repeat (destruct H as [H|H]; try discriminate); contradiction.
Qed.

Lemma read_docs_sorts dir docs :
  read_docs dir = Ok docs ->
  exists entries unsorted,
    readdir dir = Ok entries /\
    index_files dir (List.filter supported entries) [] = Ok unsorted /\
    sort Doc compareDocs unsorted = Ok docs.
Proof.
  unfold IndexBuilder.read_docs.
  destruct (readdir dir) as [entries|]; simpl; [|done].
  destruct (index_files dir _ []) as [unsorted|] eqn:Hi; simpl; [|done].
  intros Hs. by exists entries, unsorted.
Qed.

Lemma index_files_spec dir files docs result :
  index_files dir files docs = Ok result ->
  exists built, result = docs ++ built /\
    Forall2 (fun file doc => index_file dir file = Ok doc) files built.
Proof.
  revert docs. induction files as [|file rest IH]; intros docs; simpl.
  - intros [= <-]. exists []. by rewrite app_nil_r.
  - destruct (index_file dir file) as [doc|] eqn:Hf; simpl; [|done].
    intros H. apply IH in H as (built & -> & HF).
    exists (doc :: built). rewrite <- app_assoc. split; [done|].
    by constructor.
Qed.

(** The array a run writes holds, rearranged, the records of the
    supported files. *)
Lemma buildIndex_records dir out docs :
  conforming sort ->
  In (WriteFile docs) (buildIndex dir out) ->
  exists entries built,
    readdir dir = Ok entries /\
    Forall2 (fun file doc => index_file dir file = Ok doc)
      (List.filter supported entries) built /\
    sort Doc compareDocs built = Ok docs /\
    Permutation built docs.
Proof.
  intros engine Hw. apply buildIndex_writes, read_docs_sorts in Hw
    as (entries & unsorted & Hd & Hi & Hs).
  apply index_files_spec in Hi as (built & -> & HF). simpl in Hs.
  exists entries, built. split; [done|]. split; [done|]. split; [done|].
  by eapply (sort_rearranges sort engine).
Qed.


Lemma index_files_fails dir files docs file e :
  In file files -> index_file dir file = Throw e ->
  exists cause, index_files dir files docs = Throw cause.
Proof.
  revert docs. induction files as [|f rest IH]; intros docs Hin Hf; [done|].
  simpl. destruct (index_file dir f) as [doc|e'] eqn:Hf'; simpl.
  - destruct Hin as [->|Hin]; [congruence|]. by apply IH.
  - by eexists.
Qed.

Lemma read_failure_throws dir :
  read_failure dir -> exists cause, read_docs dir = Throw cause.
Proof.
  unfold IndexBuilder.read_docs.
  assert (Hfile : forall entries file e,
    readdir dir = Ok entries -> In file (List.filter supported entries) ->
    index_file dir file = Throw e ->
    exists cause,
      (entries ← readdir dir;
       docs ← index_files dir (List.filter supported entries) [];
       sort Doc compareDocs docs) = Throw cause).
  { intros entries file e -> Hin Hf. simpl.
    destruct (index_files_fails dir _ [] file e Hin Hf) as [cause ->].
    by eexists. }
  intros [e H|entries file e Hd Hin H|entries file raw e Hd Hin Hr H
         |entries file raw data content e Hd Hin Hr Hm H].
  - rewrite H. by eexists.
  - apply (Hfile entries file e); auto.
    unfold IndexBuilder.index_file. by rewrite H.
  - apply (Hfile entries file e); auto.
    unfold IndexBuilder.index_file. rewrite Hr. simpl. by rewrite H.
  - apply (Hfile entries file e); auto.
    unfold IndexBuilder.index_file. rewrite Hr. simpl. rewrite Hm. simpl.
    by rewrite H.
Qed.

(** C8: when the directory read, a file read or a parse fails, the run
    consists of the logged cause and the exit with status 1; the status is
    not zero, and neither [mkdir] nor [writeFile] is called. *)
Theorem buildIndex_aborts dir out :
  read_failure dir ->
  exists cause,
    buildIndex dir out = [ConsoleError cause; ProcessExit 1] /\
    exit_status (buildIndex dir out) <> 0%Z /\
    ~ In Mkdir (buildIndex dir out) /\
    forall docs, ~ In (WriteFile docs) (buildIndex dir out).
Proof.
  intros Hf. destruct (read_failure_throws dir Hf) as [cause Hc].
  exists cause. unfold IndexBuilder.buildIndex. rewrite Hc.
  split; [done|]. split; [done|]. split.
  - intros [H|[H|[]]]; discriminate.
  - intros docs [H|[H|[]]]; discriminate.
Qed.

End Build.



Lemma buildIndex_aborts_witness :
  exists cause,
    Samples.sample_buildIndex Samples.torn_dir
      = [ConsoleError cause; ProcessExit 1] /\
    exit_status (Samples.sample_buildIndex Samples.torn_dir) <> 0%Z /\
    ~ In Mkdir (Samples.sample_buildIndex Samples.torn_dir) /\
    forall docs, ~ In (WriteFile docs) (Samples.sample_buildIndex Samples.torn_dir).
Proof.
  apply (buildIndex_aborts Slugger.ascii_slugify Samples.sample_matter
           Samples.sample_parse Samples.collate Samples.sample_ToString
           insertion_sort Samples.torn_dir Samples.writable).
  apply (matter_fails _ _ _ [str "01-git.md"; str "torn.md"] (str "torn.md")
           (str "torn-raw") (HostError (str "torn-raw"))).
  - reflexivity.
  - vm_compute. right. left. reflexivity.
  - vm_compute. reflexivity.
  - vm_compute. reflexivity.
Defined.

End BuildFacts.

(** ** The listing of the documents against the index *)
Module ListingFacts.
Import Orders SortFacts BuildFacts.

Section Listing.

Variable slugify : jsstring -> jsstring.
Variable matter : jsstring -> result (frontmatter * jsstring).
Variable parse : jsstring -> result node.
Variable localeCompare : jsstring -> jsstring -> Z.
Variable ToString : jsvalue -> jsstring.
Variable sort : sorter.

Abbreviation read_meta := (Content.read_meta matter).
Abbreviation read_metas := (Content.read_metas matter).
Abbreviation getAllDocsMeta := (Content.getAllDocsMeta matter localeCompare sort).
Abbreviation getAllDocSlugs := (Content.getAllDocSlugs matter localeCompare sort).
Abbreviation index_file := (IndexBuilder.index_file slugify matter parse).
Abbreviation buildIndex :=
  (IndexBuilder.buildIndex slugify matter parse localeCompare ToString sort).

Lemma read_meta_throws dir file raw data content :
  readFile dir file = Ok raw -> matter raw = Ok (data, content) ->
  falsy (fm_title data) = true \/ is_string (fm_title data) = false \/
    is_number (fm_order data) = false ->
  exists e, read_meta dir file = Throw e.
Proof.
  intros Hr Hm H. unfold Content.read_meta. rewrite Hr. simpl. rewrite Hm. simpl.
  destruct (falsy (fm_title data)); simpl; [by eexists|].
  destruct (is_string (fm_title data)); simpl; [|by eexists].
  destruct (is_number (fm_order data)); simpl; [|by eexists].
  by destruct H as [|[|]].
Qed.

Lemma read_metas_fails dir files metas file e :
  In file files -> read_meta dir file = Throw e ->
  exists cause, read_metas dir files metas = Throw cause.
Proof.
  revert metas. induction files as [|f rest IH]; intros metas Hin Hf; [done|].
  simpl. destruct (read_meta dir f) as [meta|e'] eqn:Hf'; simpl.
  - destruct Hin as [->|Hin]; [congruence|]. by apply IH.
  - by eexists.
Qed.

(** The listing throws as soon as one supported file has a title that is
    empty or not a string, or an order that is not a number. *)
Lemma getAllDocsMeta_throws dir entries file raw data content :
  readdir dir = Ok entries -> In file (List.filter supported entries) ->
  readFile dir file = Ok raw -> matter raw = Ok (data, content) ->
  falsy (fm_title data) = true \/ is_string (fm_title data) = false \/
    is_number (fm_order data) = false ->
  exists e, getAllDocsMeta dir = Throw e.
Proof.
  intros Hd Hin Hr Hm H.
  destruct (read_meta_throws dir file raw data content Hr Hm H) as [e He].
  unfold Content.getAllDocsMeta, Content.readContentFiles. rewrite Hd. simpl.
  destruct (read_metas_fails dir _ [] file e Hin He) as [cause ->].
  by eexists.
Qed.

Lemma index_file_fields dir file raw data content doc :
  readFile dir file = Ok raw -> matter raw = Ok (data, content) ->
  index_file dir file = Ok doc ->
  IndexBuilder.slug doc = IndexBuilder.strip_md file /\
  IndexBuilder.title doc
    = (if nullish (fm_title data) then VString (IndexBuilder.strip_md file)
       else fm_title data) /\
  IndexBuilder.order doc
    = (if is_number (fm_order data) then as_number (fm_order data)
       else Num 999).
Proof.
  intros Hr Hm. unfold IndexBuilder.index_file. rewrite Hr. simpl.
  rewrite Hm. simpl. destruct (parse content); simpl; [|done].
  intros [= <-]. simpl. split; [done|]. split; [|done].
  by destruct (fm_title data).
Qed.

(** Every supported file has its record in the array a run writes. *)
Lemma buildIndex_covers dir out docs entries file :
  conforming sort ->
  In (IndexBuilder.WriteFile docs) (buildIndex dir out) ->
  readdir dir = Ok entries -> In file (List.filter supported entries) ->
  exists doc, In doc docs /\ index_file dir file = Ok doc.
Proof.
  intros engine Hw Hd Hin.
  apply (buildIndex_records _ _ _ _ _ _ _ _ _ engine) in Hw
    as (entries' & built & Hd' & HF & _ & Hperm).
  rewrite Hd in Hd'. injection Hd' as <-.
  apply list_elem_of_In, (list_elem_of_lookup_1 _ file) in Hin as [i Hi].
  destruct (Forall2_lookup_l _ _ _ _ _ HF Hi) as (doc & Hdoc & Hfile).
  exists doc. split; [|done].
  eapply Permutation_in; [exact Hperm|].
  apply list_elem_of_In. by eapply list_elem_of_lookup_2.
Qed.

(** On the records of the listing, whose titles are strings, the
    comparison returns a number that is not [NaN] when no order is
    [NaN]; it is a consistent comparator when [localeCompare] is one; and
    it puts the records in the order of [meta_le]. *)
Lemma compareMetas_answers (a b : Content.DocMeta) :
  Content.order a <> NaN -> Content.order b <> NaN ->
  Content.compareMetas localeCompare a b = Ok (Num (meta_cf localeCompare a b)).
Proof.
  intros Ha Hb. unfold Content.compareMetas, Orders.meta_cf.
  destruct (Content.order a) as [x|]; [|done].
  destruct (Content.order b) as [y|]; [|done].
  simpl. by destruct (Z.eqb_spec (x - y) 0).
Qed.

Lemma meta_cf_consistent :
  consistent localeCompare -> consistent (meta_cf localeCompare).
Proof.
  intros Hc.
  apply (lexicographic_consistent
           (fun a b => (comparison (Content.order a)
                        - comparison (Content.order b))%Z)
           (fun a b => localeCompare (Content.title a) (Content.title b))).
  - apply difference_consistent.
  - by apply (preimage_consistent Content.title).
Qed.

Lemma meta_cf_le (a b : Content.DocMeta) :
  Content.order a <> NaN -> Content.order b <> NaN ->
  (meta_cf localeCompare a b <= 0)%Z -> Content.meta_le localeCompare a b.
Proof.
  intros Ha Hb. unfold Orders.meta_cf, Content.meta_le.
  destruct (Content.order a) as [x|]; [|done].
  destruct (Content.order b) as [y|]; [|done].
  simpl. destruct (Z.eqb_spec (x - y) 0); intros H.
  - right. split; [lia|done].
  - left. lia.
Qed.

(** X28: the listing, when it returns and no order is [NaN], is sorted
    like the index: by order, and among equal orders by title under the
    host's [localeCompare]. *)
Lemma getAllDocsMeta_sorted dir metas :
  conforming sort ->
  consistent localeCompare ->
  getAllDocsMeta dir = Ok metas ->
  Forall (fun meta => Content.order meta <> NaN) metas ->
  StronglySorted (Content.meta_le localeCompare) metas.
Proof.
  intros engine Hc. unfold Content.getAllDocsMeta.
  destruct (Content.readContentFiles dir) as [filenames|]; simpl; [|done].
  destruct (read_metas dir filenames []) as [unsorted|]; simpl; [|done].
  intros Hs Hmetas. rewrite Forall_forall in Hmetas.
  destruct (sort_sorted sort engine (Content.compareMetas localeCompare)
              (meta_cf localeCompare) unsorted metas)
    as [Hperm Hsorted]; [by apply meta_cf_consistent| |done|].
  { intros a b Ha Hb.
    pose proof (sort_rearranges sort engine _ _ _ _ Hs) as Hperm.
    rewrite Hperm in Ha, Hb. apply compareMetas_answers; by apply Hmetas. }
  eapply StronglySorted_weaken; [|exact Hsorted].
  intros a b Ha Hb. apply meta_cf_le; by apply Hmetas.
Qed.

(** C10, amended: when a supported file has a title that is not a string
    or an order that is not a number, the listing and the list of slugs
    throw; and every run of the index builder that writes an array has in
    it the record of that file, with the slug as title when the title is
    absent (undefined or null), with the title as it is otherwise (also
    when it is not a string), and with the order 999 when the order is not
    a number. *)
Theorem listing_throws_index_has dir entries file raw data content :
  conforming sort ->
  readdir dir = Ok entries -> In file (List.filter supported entries) ->
  readFile dir file = Ok raw -> matter raw = Ok (data, content) ->
  is_string (fm_title data) = false \/ is_number (fm_order data) = false ->
  (exists e, getAllDocsMeta dir = Throw e) /\
  (exists e, getAllDocSlugs dir = Throw e) /\
  (forall out docs,
     In (IndexBuilder.WriteFile docs) (buildIndex dir out) ->
     exists doc,
       In doc docs /\ index_file dir file = Ok doc /\
       IndexBuilder.slug doc = IndexBuilder.strip_md file /\
       IndexBuilder.title doc
         = (if nullish (fm_title data)
            then VString (IndexBuilder.strip_md file) else fm_title data) /\
       IndexBuilder.order doc
         = (if is_number (fm_order data) then as_number (fm_order data)
            else Num 999)).
Proof.
  intros engine Hd Hin Hr Hm H.
  assert (Hthrows : exists e, getAllDocsMeta dir = Throw e).
  { eapply getAllDocsMeta_throws; eauto; tauto. }
  split; [done|]. split.
  - destruct Hthrows as [e He]. exists e.
    unfold Content.getAllDocSlugs. by rewrite He.
  - intros out docs Hw.
    destruct (buildIndex_covers dir out docs entries file engine Hw Hd Hin)
      as (doc & Hdoc & Hfile).
    exists doc. split; [done|]. split; [done|].
    by eapply index_file_fields.
Qed.

End Listing.

Lemma listing_throws_index_has_witness :
  (exists e, Content.getAllDocsMeta Samples.sample_matter Samples.collate
               insertion_sort Samples.mixed_dir = Throw e) /\
  exists doc,
    In doc Samples.mixed_docs /\
    IndexBuilder.slug doc = str "review" /\
    IndexBuilder.title doc = VNumber (Num 2024) /\
    IndexBuilder.order doc = Num 1.
Proof.
  destruct (listing_throws_index_has Slugger.ascii_slugify Samples.sample_matter
              Samples.sample_parse Samples.collate Samples.sample_ToString
              insertion_sort
              Samples.mixed_dir [str "review.md"; str "01-git.md"]
              (str "review.md") (str "year-raw")
              (mkFrontmatter (VNumber (Num 2024)) (VNumber (Num 1))
                 VUndefined VUndefined)
              (str "git-body"))
    as (Hthrows & _ & Hindex).
  - apply insertion_sort_conforming.
  - reflexivity.
  - vm_compute. left. reflexivity.
  - vm_compute. reflexivity.
  - vm_compute. reflexivity.
  - left. reflexivity.
  - split; [exact Hthrows|].
    destruct (Hindex Samples.writable Samples.mixed_docs)
      as (doc & Hin & _ & Hs & Ht & Ho).
    + vm_compute. right. left. reflexivity.
    + exists doc. split; [exact Hin|]. split; [exact Hs|].
      split; [exact Ht|exact Ho].
Defined.

(** C10 as the claim has it, on a document with the front matter
    [title: 2024]: the title is not a string and the listing throws, but
    the index builder does not fall back to the slug: it writes the number
    as the title. *)
Lemma numeric_title_kept :
  is_string (VNumber (Num 2024)) = false /\
  (exists e, Content.getAllDocsMeta Samples.sample_matter Samples.collate
               insertion_sort Samples.review_dir = Throw e) /\
  exists doc,
    Samples.sample_buildIndex Samples.review_dir
      = [IndexBuilder.Mkdir; IndexBuilder.WriteFile [doc];
         IndexBuilder.ConsoleLog 1] /\
    IndexBuilder.slug doc = str "review" /\
    IndexBuilder.title doc = VNumber (Num 2024) /\
    IndexBuilder.title doc <> VString (IndexBuilder.slug doc).
Proof.
  split; [reflexivity|]. split.
  - eexists. vm_compute. reflexivity.
  - eexists. split; [vm_compute; reflexivity|].
    split; [reflexivity|]. split; [reflexivity|]. simpl. discriminate.
Qed.

(** The document with [title: 2024] beside a document of the same order.
    When it comes first, the comparison is called on the other title, the
    number is converted, and the array is written with both records; when
    it comes second, the comparison is called on the number, which has no
    [localeCompare], and the run fails. *)
Example numeric_title_beside_equal_order :
  (exists docs,
     Samples.sample_buildIndex Samples.mixed_dir
       = [IndexBuilder.Mkdir; IndexBuilder.WriteFile docs;
          IndexBuilder.ConsoleLog 2] /\
     IndexBuilder.title <$> docs
       = [VNumber (Num 2024); VString (str "Git")]) /\
  Samples.sample_buildIndex Samples.mixed_rev_dir
    = [IndexBuilder.ConsoleError
         (TypeError (str "a.title.localeCompare is not a function"));
       IndexBuilder.ProcessExit 1].
Proof.
  split; [eexists; split; vm_compute; reflexivity|]. vm_compute. reflexivity.
Qed.

End ListingFacts.

(** ** Heading ids: the index against the renderer *)
Module AnchorFacts.
Import IndexBuilder Content SectionFacts.

Lemma preorder_children (cs : list node) :
  (fix all (ns : list node) : list node :=
     match ns with
     | [] => []
     | c :: r => preorder c ++ all r
     end) cs = concat (preorder <$> cs).
Proof. induction cs as [|c r IH]; simpl; [done|]. by rewrite IH. Qed.

Lemma preorder_root t (cs : list node) :
  preorder (Parent t cs) = Parent t cs :: concat (preorder <$> cs).
Proof. simpl. by rewrite preorder_children. Qed.

Lemma preorder_descendants (n : node) : preorder n = n :: descendants n.
Proof. by destruct n. Qed.

Section WithSlugger.

Variable slugify : jsstring -> jsstring.

Abbreviation heading_visitor := (heading_visitor slugify).

(** The visitor leaves its state alone except on the renderer's headings. *)
Lemma heading_visitor_skip st (n : node) :
  renderer_heading n = false -> heading_visitor st n = st.
Proof.
  destruct st as [slugger headings]. destruct n as [|depth kids| | |]; try done.
  unfold renderer_heading, Content.heading_visitor.
  destruct ((depth <? 2) || (3 <? depth)); simpl; [done|].
  destruct (length (trim _) =? 0); [done|discriminate].
Qed.

Lemma heading_visitor_push slugger headings depth kids :
  renderer_heading (Heading depth kids) = true ->
  heading_visitor (slugger, headings) (Heading depth kids)
  = let text := heading_text (Heading depth kids) in
    (snd (Slugger.slug slugify slugger text),
     headings ++ [mkHeading (fst (Slugger.slug slugify slugger text)) text depth]).
Proof.
  unfold renderer_heading, Content.heading_visitor.
  destruct ((depth <? 2) || (3 <? depth)); simpl; [done|].
  destruct (length (trim _) =? 0); simpl; [done|]. intros _.
  by destruct (Slugger.slug _ _ _).
Qed.

Lemma fold_visitor_skip (nodes : list node) st :
  Forall (fun n => renderer_heading n = false) nodes ->
  fold_left heading_visitor nodes st = st.
Proof.
  induction 1 as [|n nodes Hn _ IH]; simpl; [done|].
  by rewrite heading_visitor_skip.
Qed.

Lemma fold_visitor_filter (keep : node -> bool) (nodes : list node) st :
  (forall n, keep n = false -> renderer_heading n = false) ->
  fold_left heading_visitor (List.filter keep nodes) st
  = fold_left heading_visitor nodes st.
Proof.
  intros Hk. revert st. induction nodes as [|n nodes IH]; intros st; simpl; [done|].
  destruct (keep n) eqn:E; simpl; [apply IH|].
  rewrite (heading_visitor_skip st n); [apply IH|by apply Hk].
Qed.

(** The run of [extractHeadings] over a tree whose renderer headings are
    all children of the root visits just these children. *)
Lemma extractHeadings_top_level t (children : list node) :
  Forall (fun c => Forall (fun n => renderer_heading n = false) (descendants c))
         children ->
  extractHeadings slugify (Parent t children)
  = snd (fold_left heading_visitor children (Slugger.fresh, [])).
Proof.
  intros Hn. unfold extractHeadings, visit. f_equal.
  rewrite fold_visitor_filter.
  2:{ intros [] E; try done. }
  rewrite preorder_root. simpl.
  generalize (Slugger.fresh, @nil Heading_) as st.
  induction Hn as [|c cs Hc _ IH]; intros st; simpl; [done|].
  rewrite fold_left_app, preorder_descendants. simpl.
  rewrite (fold_visitor_skip _ _ Hc). apply IH.
Qed.

Abbreviation toc_section :=
  (fun s : Section_ => toc_depth (sec_depth s)).

Lemma renderer_heading_toc (c : node) :
  renderer_heading c = true -> in_toc_depth c = true.
Proof.
  destruct c as [|depth kids| | |]; try done. unfold renderer_heading. simpl.
  unfold toc_depth. intros [H _]%andb_true_iff.
  apply negb_true_iff, orb_false_iff in H as [H1 H2].
  apply Nat.ltb_ge in H1, H2. apply andb_true_iff.
  split; by apply Nat.leb_le.
Qed.

(** The two loops side by side.  [shared] holds the slugs that the
    headings counted by both functions can be given; the two sluggers
    agree on them throughout. *)
Lemma loops_agree (shared : jsstring -> Prop) (children : list node)
    slugger1 slugger2 sections headings :
  Forall reads_alike children ->
  Forall (fun c => renderer_heading c = true ->
            forall key, Slugger.in_family (slugify (heading_text c)) key ->
                        shared key) children ->
  Forall (fun c => index_only c = true ->
            forall key, Slugger.in_family (slugify (trim (toString c))) key ->
                        ~ shared key) children ->
  (forall key, shared key -> slugger1 !! key = slugger2 !! key) ->
  Forall2 same_anchor (List.filter toc_section sections) headings ->
  Forall2 same_anchor
    (List.filter toc_section (sections_loop slugify slugger1 children sections))
    (snd (fold_left heading_visitor children (slugger2, headings))).
Proof.
  intros Hc. revert slugger1 slugger2 sections headings.
  induction Hc as [|c cs (Hsame & Htext & _) _ IH];
    intros slugger1 slugger2 sections headings Hin Hout Hagree Hacc; [done|].
  apply Forall_cons in Hin as [Hin Hins], Hout as [Hout Houts].
  cbn [fold_left]. destruct (renderer_heading c) eqn:Hr.
  - pose proof (renderer_heading_toc c Hr) as Htoc.
    specialize (Hsame Htoc). specialize (Htext eq_refl).
    specialize (Hin eq_refl).
    destruct c as [|depth kids| | |]; try done.
    rewrite heading_visitor_push by done. cbv zeta. cbn [sections_loop].
    unfold indexed_heading in Hsame. simpl in Htoc.
    destruct (depth <=? 4); [|done]. simpl in Hsame.
    cbn [toString] in Hsame, Htext |- *. rewrite Hsame, Htext. simpl.
    set (value := heading_text (Heading depth kids)) in *.
    assert (Hfam : forall key, Slugger.in_family (slugify value) key ->
                               slugger1 !! key = slugger2 !! key).
    { intros key Hkey. by apply Hagree, Hin. }
    destruct (SluggerFacts.slug_agree slugify _ _ value Hfam) as [Hid Hafter].
    destruct (Slugger.slug slugify slugger1 value) as [id1 slugger1'] eqn:E1.
    destruct (Slugger.slug slugify slugger2 value) as [id2 slugger2'] eqn:E2.
    simpl in Hid, Hafter |- *. subst id2.
    apply IH; [done|done| |].
    + intros key Hkey.
      pose proof (SluggerFacts.slug_in_family slugify slugger1 value) as Hid1.
      pose proof (SluggerFacts.slug_touch slugify slugger1 value key) as F1.
      pose proof (SluggerFacts.slug_touch slugify slugger2 value key) as F2.
      rewrite E1 in Hid1, F1. rewrite E2 in F2. simpl in Hid1, F1, F2.
      destruct (decide (key = slugify value)) as [->|Ho].
      { apply Hafter, SluggerFacts.in_family_original. }
      destruct (decide (key = id1)) as [->|Hid]; [by apply Hafter|].
      rewrite F1, F2 by done. by apply Hagree.
    + rewrite List.filter_app. simpl. rewrite Htoc.
      apply Forall2_app; [done|]. by repeat constructor.
  - rewrite heading_visitor_skip by done.
    destruct c as [|depth kids| | |]; cbn [sections_loop]; try by apply IH.
    unfold index_only, indexed_heading in Hout, Hsame.
    cbn [toString] in Hout, Hsame |- *.
    destruct (depth <=? 4); [|by apply IH]. simpl in Hout, Hsame.
    destruct (truthy (trim _)) eqn:Htitle; simpl; [|by apply IH].
    simpl in Hout. destruct (toc_depth depth) eqn:Htoc.
    { by specialize (Hsame eq_refl). }
    specialize (Hout eq_refl).
    set (value := trim _) in *.
    pose proof (fun key Hk =>
      SluggerFacts.slug_frame slugify slugger1 value key Hk) as F1.
    destruct (Slugger.slug slugify slugger1 value) as [id1 slugger1'].
    simpl in F1. apply IH; [done|done| |].
    + intros key Hkey. rewrite F1; [by apply Hagree|].
      intros Hk. by apply (Hout key Hk).
    + rewrite List.filter_app. simpl. rewrite Htoc. by rewrite app_nil_r.
Qed.

(** When the two functions are run on one and the same tree, whose
    headings of depth 2 and 3 are all children of the root and are read
    alike by both functions (an id from both or from neither, and the same
    text), and whose other headings with an id in the index (depth 1 or 4)
    have slugs that cannot collide with theirs, the sections of depth 2
    and 3 of the index and the headings of the renderer correspond one to
    one, in order, with equal ids, texts and depths. *)
Lemma anchors_agree t (children : list node) :
  Forall reads_alike children ->
  slugs_apart slugify children ->
  Forall2 same_anchor
    (List.filter toc_section (extractSections slugify (Parent t children)))
    (extractHeadings slugify (Parent t children)).
Proof.
  intros Hc Hapart. rewrite extractHeadings_top_level.
  2:{ eapply Forall_impl; [exact Hc|]. by intros c (_ & _ & ?). }
  apply (loops_agree
           (fun key => exists c, c ∈ children /\ renderer_heading c = true /\
                                 Slugger.in_family (slugify (heading_text c)) key)).
  - done.
  - apply Forall_forall. intros c Hin Hr key Hkey. by exists c.
  - apply Forall_forall. intros c1 Hin1 Hi key Hkey (c2 & Hin2 & Hr & Hkey2).
    by apply (Hapart c1 c2 Hin1 Hin2 Hi Hr key).
  - done.
  - constructor.
Qed.

End WithSlugger.

Lemma anchors_agree_witness :
  Forall2 same_anchor
    (List.filter (fun s => toc_depth (sec_depth s))
       (extractSections Slugger.ascii_slugify Samples.guide_tree))
    (extractHeadings Slugger.ascii_slugify Samples.guide_tree).
Proof.
  apply (anchors_agree Slugger.ascii_slugify root).
  - repeat constructor; try (vm_compute; reflexivity);
      try (intros _; vm_compute; reflexivity); intros [=].
  - intros c1 c2 H1 H2 Hi Hr.
    repeat (apply elem_of_cons in H1 as [->|H1]);
      try (by apply elem_of_nil in H1); try discriminate Hi;
      repeat (apply elem_of_cons in H2 as [->|H2]);
      try (by apply elem_of_nil in H2); try discriminate Hr;
      vm_compute; apply SluggerFacts.apart_by_head; discriminate.
Defined.

(** C1 fails.  On [# Overview], a paragraph, [## Overview], both
    functions give the second heading an id; the index builder has counted
    the first heading and says [overview-1], the renderer returns from its
    visitor before the slugger sees a heading of depth 1 and says
    [overview].  And on a file with the front matter [title: Overview]
    and the heading [## Title Overview], the index builder reads the body
    and says [title-overview], the renderer reads the whole file, takes
    the front matter for a heading, and says [title-overview-1]. *)
Theorem anchors_disagree :
  (extractSections Slugger.ascii_slugify Samples.git_tree
     = [mkSection (str "overview") (str "Overview") 1 (str "Objects and refs.");
        mkSection (str "overview-1") (str "Overview") 2 []] /\
   extractHeadings Slugger.ascii_slugify Samples.git_tree
     = [mkHeading (str "overview") (str "Overview") 2] /\
   str "overview-1" <> str "overview") /\
  (extractSections Slugger.ascii_slugify Samples.titled_body_tree
     = [mkSection (str "title-overview") (str "Title Overview") 2
          (str "Objects and refs.")] /\
   extractHeadings Slugger.ascii_slugify Samples.titled_file_tree
     = [mkHeading (str "title-overview") (str "title: Overview") 2;
        mkHeading (str "title-overview-1") (str "Title Overview") 2] /\
   str "title-overview" <> str "title-overview-1").
Proof.
  split; (split; [vm_compute; reflexivity|]);
    (split; [vm_compute; reflexivity|]); vm_compute; discriminate.
Qed.

End AnchorFacts.

(** ** The search bar: debounce, blank queries, a failed fetch *)
Module SearchBarFacts.
Import SearchBar.

Section Component.

Variable FuseResult : Type.
Variable search : list SearchEntry -> jsstring -> list FuseResult.

Abbreviation state := (state FuseResult).
Abbreviation step := (step FuseResult search).
Abbreviation run := (run FuseResult search).
Abbreviation mounted := (mounted FuseResult).
Abbreviation wait := (wait FuseResult search).
Abbreviation setQuery := (setQuery FuseResult).
Abbreviation reachable := (reachable FuseResult search).

Lemma run_app (s : state) (es1 es2 : list event) :
  run s (es1 ++ es2) = run (run s es1) es2.
Proof. apply fold_left_app. Qed.

(** *** One keystroke, one wait *)

Lemma setQuery_changed (s : state) (value : jsstring) :
  value <> query _ s ->
  let s' := setQuery value s in
  query _ s' = value /\ fuseRef _ s' = fuseRef _ s /\
  calls _ s' = calls _ s /\ now _ s' = now _ s /\
  handle _ s' = (if has_index _ s && negb (blank value)
                 then Some (now _ s + 120, value) else None) /\
  (has_index _ s && negb (blank value) = false -> results _ s' = []).
Proof.
  intros Hne. unfold SearchBar.setQuery. rewrite bool_decide_eq_false_2 by done.
  unfold query_effect, cleanup, has_index. simpl.
  destruct (bool_decide (is_Some (fuseRef _ s))); simpl; [|done].
  destruct (blank value); simpl; done.
Qed.

Lemma wait_idle (s : state) (ms : nat) :
  handle _ s = None ->
  let s' := wait ms s in
  calls _ s' = calls _ s /\ results _ s' = results _ s /\
  query _ s' = query _ s /\ fuseRef _ s' = fuseRef _ s /\ handle _ s' = None.
Proof. intros H. unfold SearchBar.wait. simpl. by rewrite H. Qed.

Lemma wait_early (s : state) (ms due : nat) q :
  handle _ s = Some (due, q) -> now _ s + ms < due ->
  let s' := wait ms s in
  calls _ s' = calls _ s /\ results _ s' = results _ s /\
  query _ s' = query _ s /\ fuseRef _ s' = fuseRef _ s.
Proof.
  intros H Hlt. unfold SearchBar.wait. simpl. rewrite H.
  destruct (Nat.leb_spec due (now _ s + ms)); [lia|done].
Qed.

Lemma wait_due (s : state) (ms due : nat) q fuse :
  handle _ s = Some (due, q) -> due <= now _ s + ms ->
  fuseRef _ s = Some fuse ->
  let s' := wait ms s in
  calls _ s' = calls _ s ++ [q] /\ results _ s' = search fuse q /\
  query _ s' = query _ s /\ handle _ s' = None.
Proof.
  intros H Hle Hf. unfold SearchBar.wait. simpl. rewrite H.
  destruct (Nat.leb_spec due (now _ s + ms)); [|lia].
  unfold timeout_callback. simpl. by rewrite Hf.
Qed.

(** *** The debounce *)

(** A keystroke that is followed by another event within the 120 ms runs
    no search. *)
Lemma key_then_gap (s : state) (value : jsstring) (gap : nat) :
  value <> query _ s -> gap < 120 ->
  let s' := wait gap (setQuery value s) in
  calls _ s' = calls _ s /\ query _ s' = value /\
  fuseRef _ s' = fuseRef _ s.
Proof.
  intros Hne Hlt.
  destruct (setQuery_changed s value Hne) as (Hq & Hf & Hc & Hn & Hh & _).
  set (s1 := setQuery value s) in *. cbv zeta.
  destruct (has_index _ s && negb (blank value)).
  - destruct (wait_early s1 gap _ _ Hh) as (? & _ & ? & ?); [lia|].
    split; [congruence|]. split; congruence.
  - destruct (wait_idle s1 gap Hh) as (? & _ & ? & ? & _).
    split; [congruence|]. split; congruence.
Qed.

(** The last keystroke, followed by silence. *)
Lemma key_then_silence (s : state) (value : jsstring) (silence : nat) :
  value <> query _ s -> 120 <= silence ->
  calls _ (wait silence (setQuery value s))
  = calls _ s ++ (if has_index _ s && negb (blank value) then [value] else []).
Proof.
  intros Hne Hsil.
  destruct (setQuery_changed s value Hne) as (_ & Hf & Hc & Hn & Hh & _).
  destruct (has_index _ s && negb (blank value)) eqn:Hgo.
  - apply andb_true_iff in Hgo as [Hi _]. unfold has_index in Hi.
    apply bool_decide_eq_true in Hi as [fuse Hfuse].
    destruct (wait_due (setQuery value s) silence _ _ fuse Hh) as (-> & _);
      [lia|congruence|]. congruence.
  - destruct (wait_idle (setQuery value s) silence Hh) as (-> & _).
    rewrite app_nil_r. congruence.
Qed.

(** C6, amended: keystrokes that each change the value and follow each
    other within the 120 ms, then silence for 120 ms or more, run at most
    one search: exactly one, with the value of the last keystroke, when the
    index is there and that value is not blank, and none otherwise.  No
    value but the last is searched for. *)
Theorem debounce_last_only (s : state) (keys : list (jsstring * nat))
    (value : jsstring) (silence : nat) :
  changing (query _ s) (keys.*1 ++ [value]) ->
  Forall (fun key => key.2 < 120) keys ->
  120 <= silence ->
  calls _ (run s (typing keys ++ [Change value; Wait silence]))
  = calls _ s ++ (if has_index _ s && negb (blank value) then [value] else []).
Proof.
  revert s. induction keys as [|[v gap] rest IH]; intros s Hch Hgap Hsil.
  - destruct Hch as [Hne _]. by apply key_then_silence.
  - destruct Hch as [Hne Hch]. inversion Hgap as [|? ? Hlt Hrest]; subst.
    simpl in Hne, Hch, Hlt.
    destruct (key_then_gap s v gap Hne Hlt) as (Hc & Hq & Hf).
    change (run s (typing ((v, gap) :: rest) ++ [Change value; Wait silence]))
      with (run (wait gap (setQuery v s))
              (typing rest ++ [Change value; Wait silence])).
    rewrite IH; [|by rewrite Hq|done|done].
    unfold has_index. by rewrite Hc, Hf.
Qed.

(** *** Blank queries *)

Lemma step_quiet_when_blank (s : state) (e : event) :
  quiet_when_blank _ s -> quiet_when_blank _ (step s e).
Proof.
  unfold quiet_when_blank. intros Hs. destruct e as [outcome|value| |ms]; simpl.
  - destruct (loadIndex_pending _ s); [|done].
    unfold load_effect, loadIndex. by destruct outcome.
  - unfold SearchBar.setQuery. case_bool_decide; [done|].
    unfold query_effect, cleanup. simpl.
    destruct (negb (bool_decide (is_Some (fuseRef _ s)))); simpl; [done|].
    destruct (blank value) eqn:Hb; simpl; [done|]. by rewrite Hb.
  - unfold SearchBar.setQuery. case_bool_decide as Hq; simpl.
    + rewrite <- Hq in Hs. intros _. split; [done|]. by apply Hs.
    + unfold query_effect, cleanup. simpl.
      change (blank []) with true. rewrite orb_true_r. simpl. by intros _.
  - unfold SearchBar.wait. simpl.
    destruct (handle _ s) as [[due q]|] eqn:Hh.
    + assert (Hnb : blank (query _ s) = false).
      { destruct (blank (query _ s)); [|done].
        destruct Hs as [_ Hs]; [done|congruence]. }
      destruct (due <=? now _ s + ms); simpl; [|by rewrite Hnb].
      unfold timeout_callback. simpl.
      destruct (fuseRef _ s); simpl; by rewrite Hnb.
    + intros Hb. by destruct (Hs Hb) as [? _].
Qed.

Lemma reachable_quiet_when_blank (s : state) :
  reachable s -> quiet_when_blank _ s.
Proof.
  intros [events ->]. induction events as [|e events IH] using rev_ind.
  - done.
  - rewrite run_app. simpl. by apply step_quiet_when_blank.
Qed.

(** C7: a query that is empty or all white space shows no results,
    schedules no search and runs none, whatever the component did before
    and however long one waits after. *)
Theorem blank_query_never_searches (s : state) (value : jsstring) :
  reachable s ->
  forallb is_ws value = true ->
  let s' := step s (Change value) in
  results _ s' = [] /\ handle _ s' = None /\ calls _ s' = calls _ s /\
  forall ms, results _ (step s' (Wait ms)) = [] /\
             calls _ (step s' (Wait ms)) = calls _ s.
Proof.
  intros Hr Hws. apply JSFacts.blank_all_ws in Hws. cbv zeta.
  assert (Hs' : reachable (step s (Change value))).
  { destruct Hr as [events ->]. exists (events ++ [Change value]).
    by rewrite run_app. }
  assert (Hq : query _ (step s (Change value)) = value).
  { simpl. unfold SearchBar.setQuery. case_bool_decide; [done|].
    unfold query_effect, cleanup. simpl.
    by destruct (negb (bool_decide (is_Some (fuseRef _ s))) || blank value). }
  assert (Hc : calls _ (step s (Change value)) = calls _ s).
  { simpl. unfold SearchBar.setQuery. case_bool_decide; [done|].
    unfold query_effect, cleanup. simpl.
    by destruct (negb (bool_decide (is_Some (fuseRef _ s))) || blank value). }
  destruct (reachable_quiet_when_blank _ Hs') as [Hres Hh]; [by rewrite Hq|].
  split; [done|]. split; [done|]. split; [done|].
  intros ms. destruct (wait_idle _ ms Hh) as (Hc' & Hr' & _).
  change (step (step s (Change value)) (Wait ms))
    with (wait ms (step s (Change value))).
  split; congruence.
Qed.

(** *** A failed fetch *)

Lemma step_without_index (s : state) (e : event) :
  without_index _ s ->
  is_Loaded e = false \/ loadIndex_pending _ s = false ->
  without_index _ (step s e) /\ calls _ (step s e) = calls _ s /\
  console _ (step s e) = console _ s /\
  loadIndex_pending _ (step s e) = loadIndex_pending _ s.
Proof.
  unfold without_index. intros (Hf & Hr & Hh) He.
  destruct e as [outcome|value| |ms]; simpl.
  - destruct He as [|He]; [done|]. by rewrite He.
  - unfold SearchBar.setQuery. case_bool_decide; [done|].
    unfold query_effect, cleanup. simpl. by rewrite Hf.
  - unfold SearchBar.setQuery. case_bool_decide; [done|].
    unfold query_effect, cleanup. simpl. by rewrite Hf.
  - unfold SearchBar.wait. simpl. by rewrite Hh.
Qed.

Lemma run_without_index (s : state) (events : list event) :
  without_index _ s ->
  forallb (fun e => negb (is_Loaded e)) events = true \/
    loadIndex_pending _ s = false ->
  without_index _ (run s events) /\ calls _ (run s events) = calls _ s /\
  console _ (run s events) = console _ s /\
  loadIndex_pending _ (run s events) = loadIndex_pending _ s.
Proof.
  revert s. induction events as [|e events IH]; intros s Hs He; [done|].
  simpl. destruct (step_without_index s e Hs) as (Hs' & Hc & Hl & Hp).
  { destruct He as [He|He]; [|by right]. left. simpl in He.
    apply andb_true_iff in He as [He _]. by destruct (is_Loaded e). }
  destruct (IH (step s e) Hs') as (Hs'' & Hc' & Hl' & Hp').
  { destruct He as [He|He]; [left|right; congruence]. simpl in He.
    by apply andb_true_iff in He as [_ He]. }
  split; [done|]. split; [congruence|]. split; congruence.
Qed.

(** C9: when the fetch of the index fails, by a rejection or by a
    response that is not ok, the index stays unset, and after any events
    that follow no results are shown and no search has run; a rejection
    ends in the console, the component goes on. *)
Theorem failed_fetch_no_results (before after : list event)
    (outcome : fetch_outcome) :
  failed outcome ->
  forallb (fun e => negb (is_Loaded e)) before = true ->
  let s := run mounted (before ++ Loaded outcome :: after) in
  fuseRef _ s = None /\ results _ s = [] /\ calls _ s = [] /\
  console _ s = match outcome with Rejected cause => [cause] | _ => [] end.
Proof.
  intros Hfail Hbefore. cbv zeta. rewrite run_app.
  destruct (run_without_index mounted before) as ((Hf & Hr & Hh) & Hc & Hl & Hp);
    [done|by left|].
  set (s1 := run mounted before) in *.
  change (run s1 (Loaded outcome :: after))
    with (run (step s1 (Loaded outcome)) after).
  assert (H1 : without_index _ (step s1 (Loaded outcome)) /\
               calls _ (step s1 (Loaded outcome)) = [] /\
               console _ (step s1 (Loaded outcome))
                 = match outcome with Rejected cause => [cause] | _ => [] end /\
               loadIndex_pending _ (step s1 (Loaded outcome)) = false).
  { simpl. rewrite Hp. simpl. unfold load_effect, loadIndex, without_index.
    destruct outcome; simpl; [|done|done].
    rewrite Hl. done. }
  destruct H1 as (Hs2 & Hc2 & Hl2 & Hp2).
  destruct (run_without_index _ after Hs2) as ((Hf3 & Hr3 & _) & Hc3 & Hl3 & _);
    [by right|].
  split; [done|]. split; [done|]. split; congruence.
Qed.

End Component.

Lemma debounce_last_only_witness :
  calls _ (run _ Samples.prefix_search Samples.loaded_bar
             (typing [(str "r", 40); (str "re", 100); (str "ret", 119)]
              ++ [Change (str "retr"); Wait 120]))
  = [str "retr"].
Proof.
  apply (debounce_last_only _ Samples.prefix_search Samples.loaded_bar
           [(str "r", 40); (str "re", 100); (str "ret", 119)] (str "retr") 120).
  - vm_compute. repeat split; discriminate.
  - repeat constructor; simpl; lia.
  - lia.
Defined.

(** C6 as the claim has it, on two keystrokes 40 ms apart that type a
    letter and erase it, followed by silence: no search runs, not one. *)
Lemma debounce_erased_query :
  let s := run _ Samples.prefix_search Samples.loaded_bar
             (typing [(str "r", 40)] ++ [Change []; Wait 500]) in
  calls _ s = [] /\ calls _ s <> calls _ Samples.loaded_bar ++ [[]].
Proof. vm_compute. split; [reflexivity|discriminate]. Qed.

Lemma blank_query_never_searches_witness :
  let s := run _ Samples.prefix_search Samples.loaded_bar
             [Change (str "retry"); Wait 200] in
  let s' := step _ Samples.prefix_search s (Change (str "  ")) in
  results _ s' = [] /\ handle _ s' = None /\ calls _ s' = calls _ s /\
  forall ms, results _ (step _ Samples.prefix_search s' (Wait ms)) = [] /\
             calls _ (step _ Samples.prefix_search s' (Wait ms)) = calls _ s.
Proof.
  apply (blank_query_never_searches _ Samples.prefix_search).
  - exists [Loaded (Fetched Samples.fetched_docs); Change (str "retry"); Wait 200].
    reflexivity.
  - vm_compute. reflexivity.
Defined.

Lemma failed_fetch_no_results_witness :
  let s := run _ Samples.prefix_search (mounted _)
             ([Change (str "r"); Wait 10] ++
              Loaded NotOk :: [Change (str "retry"); Wait 200]) in
  fuseRef _ s = None /\ results _ s = [] /\ calls _ s = [] /\ console _ s = [].
Proof.
  apply (failed_fetch_no_results _ Samples.prefix_search
           [Change (str "r"); Wait 10] [Change (str "retry"); Wait 200] NotOk).
  - exact I.
  - reflexivity.
Defined.

End SearchBarFacts.

(** ** The scenarios of the specification *)
Module Scenarios.
Import IndexBuilder Content Samples.

(** A heading followed by two paragraphs and another heading of the same
    depth: the section holds the two paragraphs, joined by a space. *)
Example retry_policy_section :
  extractSections Slugger.ascii_slugify kafka_tree
  = [retry_section; mkSection (str "deeper") (str "Deeper") 2 []].
Proof. vm_compute. reflexivity. Qed.

(** The questions are the paragraphs that end in a question mark; the
    summary of the front matter is no paragraph. *)
Example questions_of_kafka :
  extractQuestions kafka_tree = [str "Why does this matter?"].
Proof. vm_compute. reflexivity. Qed.

(** Two headings with the same text get two ids. *)
Example overview_twice :
  sec_id <$> extractSections Slugger.ascii_slugify
               (Parent root [h 2 "Overview"; h 2 "Overview"; h 3 "Overview"])
  = [str "overview"; str "overview-1"; str "overview-2"].
Proof. vm_compute. reflexivity. Qed.

(** A slug that is taken by another heading's suffixed id is skipped. *)
Example overview_with_taken_suffix :
  sec_id <$> extractSections Slugger.ascii_slugify
               (Parent root [h 2 "Overview 1"; h 2 "Overview"; h 2 "Overview"])
  = [str "overview-1"; str "overview"; str "overview-2"].
Proof. vm_compute. reflexivity. Qed.

(** A first-level title and a fourth-level heading are counted by the
    index only; here they take no slug away from the other headings. *)
Example guide_anchors :
  sec_id <$> extractSections Slugger.ascii_slugify guide_tree
  = [str "git-guide"; str "overview"; str "notes"; str "overview-1"] /\
  id <$> extractHeadings Slugger.ascii_slugify guide_tree
  = [str "overview"; str "overview-1"].
Proof. vm_compute. split; reflexivity. Qed.

(** A document without [order] gets 999 and sorts last. *)
Example draft_sorts_last :
  IndexBuilder.order <$> draft_docs = [Num 3; Num 999] /\
  IndexBuilder.slug <$> draft_docs = [str "03-kafka"; str "draft"].
Proof. vm_compute. split; reflexivity. Qed.

(** Equal orders are told apart by the titles. *)
Example site_order :
  IndexBuilder.slug <$> site_docs = [str "01-git"; str "alpha"; str "03-kafka"].
Proof. vm_compute. reflexivity. Qed.

(** White space is collapsed in the body, not in the sections. *)
Example collapse_and_trim :
  body_text (Parent paragraph [Literal text (str "  a    b  ")]) = str "a b" /\
  section_text (Parent paragraph [Literal text (str "  a    b  ")]) = str "a    b".
Proof. vm_compute. split; reflexivity. Qed.

(** The expansion of the fetched sample: the document, then its sections. *)
Example expanded_sample :
  (fun e => (SearchBar.type e, SearchBar.sectionId e))
    <$> SearchBar.expandEntries fetched_docs
  = [(SearchBar.doc, None); (SearchBar.section, Some (str "retry-policy"));
     (SearchBar.section, Some (str "deeper"))].
Proof. vm_compute. reflexivity. Qed.

End Scenarios.

(** ** The slugger never hands out a slug twice *)
Module SluggerFresh.
Import Slugger SluggerFacts.

Section Slugger.

Variable slugify : jsstring -> jsstring.

(** The loop ends on a slug that is not in the table, and adds no key
    to the table. *)
Lemma slug_loop_fresh (fuel : nat) (occ occ' : occurrences)
    (original result result' : jsstring) :
  (is_Some (occ !! result) -> is_Some (occ !! original)) ->
  slug_loop fuel occ original result = Some (result', occ') ->
  occ' !! result' = None /\
  forall key, is_Some (occ' !! key) <-> is_Some (occ !! key).
Proof.
  revert occ result. induction fuel as [|fuel IH]; intros occ result Horig; simpl;
    destruct (occ !! result) eqn:Hres; try done;
    try (by intros [= <- <-]).
  intros Hloop. apply IH in Hloop as [Hnone Hdom].
  - split; [done|]. intros key. rewrite Hdom.
    destruct (decide (original = key)) as [<-|Hne].
    + rewrite lookup_insert_eq. split; [|by eexists].
      intros _. apply Horig. by eexists.
    + by rewrite lookup_insert_ne.
  - intros _. rewrite lookup_insert_eq. by eexists.
Qed.

(** [slug] hands out a slug that was not in the table and now is; the
    slugs that were in the table stay. *)
Lemma slug_fresh (occ : occurrences) (value : jsstring) :
  occ !! fst (slug slugify occ value) = None /\
  is_Some (snd (slug slugify occ value) !! fst (slug slugify occ value)) /\
  forall key, is_Some (occ !! key) -> is_Some (snd (slug slugify occ value) !! key).
Proof.
  unfold slug.
  destruct (slug_loop_total occ (slugify value)) as [[result occ'] Hloop].
  rewrite Hloop. simpl.
  apply slug_loop_fresh in Hloop as [Hnone Hdom]; [|done].
  split.
  - destruct (occ !! result) eqn:E; [|done].
    assert (H : is_Some (occ' !! result)) by (apply Hdom; by eexists).
    rewrite Hnone in H. by destruct H.
  - split; [rewrite lookup_insert_eq; by eexists|].
    intros key Hkey. destruct (decide (result = key)) as [<-|Hne].
    + rewrite lookup_insert_eq. by eexists.
    + rewrite lookup_insert_ne by done. by apply Hdom.
Qed.

End Slugger.

End SluggerFresh.

(** ** The outline of a document *)
Module OutlineFacts.
Import JSFacts IndexBuilder Content Outline SectionFacts.

(** *** The inner loop *)

Lemma lookahead_full (depth : nat) (siblings : list node)
    (paragraphs : list jsstring) :
  3 <= length paragraphs ->
  take 3 (paragraphs ++ paragraph_texts (until_heading depth siblings))
  = take 3 paragraphs.
Proof.
  intros H. rewrite take_app_le by lia. done.
Qed.

Lemma paragraph_texts_cons (n : node) (nodes : list node) :
  paragraph_texts (n :: nodes)
  = (if is_type (TParent paragraph) n
     then (if truthy (section_text n) then [section_text n] else [])
     else []) ++ paragraph_texts nodes.
Proof.
  unfold paragraph_texts. simpl.
  destruct (is_type (TParent paragraph) n); simpl; [|done].
  by destruct (truthy (section_text n)).
Qed.

(** The look-ahead collects the first three non-empty paragraph texts
    before the next heading of the given depth or less. *)
Lemma lookahead_first_three (depth : nat) (siblings : list node)
    (paragraphs : list jsstring) :
  length paragraphs < 3 ->
  lookahead depth siblings paragraphs
  = take 3 (paragraphs ++ paragraph_texts (until_heading depth siblings)).
Proof.
  revert paragraphs.
  induction siblings as [|sibling rest IH]; intros paragraphs Hlen.
  - simpl. rewrite app_nil_r. by rewrite take_ge by lia.
  - rewrite lookahead_cons. simpl until_heading.
    destruct (is_heading_upto depth sibling).
    { rewrite app_nil_r. by rewrite take_ge by lia. }
    rewrite paragraph_texts_cons. cbv zeta.
    destruct (is_type (TParent paragraph) sibling);
      [destruct (truthy (section_text sibling))|].
    + rewrite app_assoc.
      destruct (Nat.leb_spec 3 (length (paragraphs ++ [section_text sibling])))
        as [Hfull|Hroom].
      * rewrite lookahead_full by done. rewrite take_ge; [done|].
        rewrite length_app in *. simpl in *. lia.
      * by apply IH.
    + rewrite app_nil_l.
      destruct (Nat.leb_spec 3 (length paragraphs)); [lia|]. by apply IH.
    + rewrite app_nil_l.
      destruct (Nat.leb_spec 3 (length paragraphs)); [lia|]. by apply IH.
Qed.

(** *** The sections *)

Section WithSlugger.

Variable slugify : jsstring -> jsstring.

Lemma sections_loop_outline slugger (children : list node)
    (sections : list Section_) :
  (fun s => (sec_title s, sec_depth s))
    <$> sections_loop slugify slugger children sections
  = ((fun s => (sec_title s, sec_depth s)) <$> sections) ++
    ((fun c => (trim (toString c), heading_depth c))
       <$> List.filter indexed_heading children).
Proof.
  revert slugger sections.
  induction children as [|c rest IH]; intros slugger sections.
  - simpl. by rewrite app_nil_r.
  - destruct c as [|depth kids| | |]; cbn [sections_loop List.filter indexed_heading];
      try apply IH.
    cbn [toString]. destruct (depth <=? 4); simpl; [|apply IH].
    destruct (truthy _); simpl; [|apply IH].
    destruct (Slugger.slug _ _ _) as [id slugger'].
    rewrite IH, fmap_app. simpl. by rewrite <- app_assoc.
Qed.

(** X1: the sections are one per heading among the children of the root
    that has a depth up to 4 and a text that is not all white space, in
    the order of the document, each with the trimmed text and the depth of
    its heading. *)
Theorem extractSections_outline (tree : node) :
  (fun s => (sec_title s, sec_depth s)) <$> extractSections slugify tree
  = (fun c => (trim (toString c), heading_depth c))
      <$> List.filter indexed_heading (children_of tree) /\
  length (extractSections slugify tree)
  = length (List.filter indexed_heading (children_of tree)) /\
  Forall (fun s => sec_title s <> [] /\ trim (sec_title s) = sec_title s /\
                   sec_depth s <= 4)
         (extractSections slugify tree).
Proof.
  assert (H := sections_loop_outline Slugger.fresh (children_of tree) []).
  fold (extractSections slugify tree) in H. simpl in H.
  split; [done|]. split.
  - apply (f_equal length) in H. by rewrite !length_fmap in H.
  - apply Forall_forall. intros s Hin.
    apply sections_loop_origin in Hin
      as (before & depth & kids & after & _ & Hd & Hdepth & Ht & Hne & _).
    split; [done|]. split; [|lia].
    rewrite Ht. apply trim_idem.
Qed.

Lemma sections_loop_contents slugger (children : list node)
    (sections : list Section_) :
  (fun s => (sec_title s, sec_depth s, sec_content s))
    <$> sections_loop slugify slugger children sections
  = ((fun s => (sec_title s, sec_depth s, sec_content s)) <$> sections) ++
    section_outline children.
Proof.
  revert slugger sections.
  induction children as [|c rest IH]; intros slugger sections.
  - simpl. by rewrite app_nil_r.
  - destruct c as [|depth kids| | |];
      cbn [sections_loop section_outline indexed_heading]; try apply IH.
    cbn [toString]. destruct (depth <=? 4); simpl; [|apply IH].
    destruct (truthy _); simpl; [|apply IH].
    destruct (Slugger.slug _ _ _) as [id slugger'].
    rewrite IH, fmap_app. simpl. rewrite <- app_assoc. simpl.
    unfold first_three. by rewrite lookahead_first_three by (simpl; lia).
Qed.

(** X2: the sections are, heading by heading in the order of the
    document, the headings of depth up to 4 with a text among the
    children of the root, each with its trimmed text, its depth and as
    content exactly the first three (or fewer) non-empty trimmed paragraph
    texts among the siblings that follow that very heading, up to the next
    heading of the same or a smaller depth, joined by single spaces. *)
Theorem extractSections_first_three (tree : node) :
  (fun s => (sec_title s, sec_depth s, sec_content s))
    <$> extractSections slugify tree
  = section_outline (children_of tree).
Proof.
  exact (sections_loop_contents Slugger.fresh (children_of tree) []).
Qed.

Lemma sections_loop_ids slugger (children : list node)
    (sections : list Section_) :
  Forall (fun s => is_Some (slugger !! sec_id s)) sections ->
  NoDup (sec_id <$> sections) ->
  NoDup (sec_id <$> sections_loop slugify slugger children sections).
Proof.
  revert slugger sections.
  induction children as [|c rest IH]; intros slugger sections Hin Hnd; [done|].
  destruct c as [|depth kids| | |]; cbn [sections_loop]; try by apply IH.
  destruct (depth <=? 4); [|by apply IH].
  destruct (truthy _); simpl; [|by apply IH].
  destruct (SluggerFresh.slug_fresh slugify slugger
              (trim (toString (Heading depth kids)))) as (Hnew & Hid & Hold).
  cbn [toString] in Hnew, Hid, Hold.
  destruct (Slugger.slug _ _ _) as [id slugger']. simpl in Hnew, Hid, Hold.
  apply IH.
  - apply Forall_app. split.
    + eapply Forall_impl; [exact Hin|]. intros s. apply Hold.
    + by repeat constructor.
  - rewrite fmap_app. apply NoDup_app. split; [done|]. split.
    + intros x Hx [->|[]%elem_of_nil]%elem_of_cons.
      apply list_elem_of_fmap in Hx as (s & Hs & Hx).
      rewrite Forall_forall in Hin. destruct (Hin s Hx) as [n Hn].
      rewrite <- Hs in Hn. simpl in Hn. congruence.
    + apply NoDup_singleton.
Qed.

(** X3: the ids of the sections of a document are pairwise distinct,
    whatever the headings and whatever the base function of the slugger. *)
Theorem extractSections_ids_distinct (tree : node) :
  NoDup (sec_id <$> extractSections slugify tree).
Proof.
  apply sections_loop_ids; [constructor|constructor].
Qed.

End WithSlugger.

(** *** The questions *)

Lemma endsWith_question (t : jsstring) :
  endsWith t (str "?") = true -> last t = Some QUESTION_MARK.
Proof.
  unfold endsWith. intros H%bool_decide_eq_true.
  rewrite <- (take_drop (length t - length (str "?")) t), H.
  by rewrite last_app.
Qed.

(** X4: the questions are the trimmed texts of the paragraphs anywhere in
    the tree that end in a question mark, in document order; each of them
    ends in a question mark and has no white space at either end. *)
Theorem extractQuestions_spec (tree : node) :
  extractQuestions tree
  = List.filter (fun t => endsWith t (str "?")) (trimmed_paragraphs tree) /\
  Forall (fun q => last q = Some QUESTION_MARK /\ trim q = q)
         (extractQuestions tree).
Proof.
  assert (H : extractQuestions tree
    = List.filter (fun t => endsWith t (str "?")) (trimmed_paragraphs tree)).
  { unfold extractQuestions, visit, trimmed_paragraphs, all_paragraphs.
    by rewrite (BodyFacts.fold_left_push (fun t => endsWith t (str "?"))
                  (fun n => trim (toString n))). }
  split; [done|]. rewrite H. apply Forall_forall. intros q Hq.
  apply list_elem_of_In, filter_In in Hq as [Hq Hend].
  split; [by apply endsWith_question|].
  apply list_elem_of_In, list_elem_of_fmap in Hq as (n & -> & _).
  apply trim_idem.
Qed.

End OutlineFacts.

(** ** The listing and the index, file by file *)
Module ContentFacts.
Import JSFacts IndexBuilder SortFacts BuildFacts Accepts.

(** *** Slugs from file names *)

Lemma endsWith_last (t suffix : jsstring) (c : N) :
  endsWith t suffix = true -> last suffix = Some c -> last t = Some c.
Proof.
  unfold endsWith. intros H%bool_decide_eq_true Hc.
  rewrite <- (take_drop (length t - length suffix) t), H.
  destruct suffix as [|a suffix]; [done|]. by rewrite last_app, Hc.
Qed.

Lemma endsWith_md_mdx (file : jsstring) :
  endsWith file (str ".md") = true -> endsWith file (str ".mdx") = true -> False.
Proof.
  intros H1 H2.
  pose proof (endsWith_last _ _ 100%N H1 eq_refl) as L1.
  pose proof (endsWith_last _ _ 120%N H2 eq_refl) as L2.
  congruence.
Qed.

(** The slug the index builder strips from a file name is the slug the
    listing takes from it. *)
Lemma strip_md_slugFromFilename (file : jsstring) :
  strip_md file = Content.slugFromFilename file.
Proof.
  unfold strip_md, Content.slugFromFilename, SUPPORTED_EXT. simpl.
  destruct (endsWith file (str ".md")) eqn:Hmd;
    destruct (endsWith file (str ".mdx")) eqn:Hmdx; try done.
  by destruct (endsWith_md_mdx file).
Qed.

Lemma endsWith_app (s suffix : jsstring) : endsWith (s ++ suffix) suffix = true.
Proof.
  unfold endsWith. apply bool_decide_eq_true.
  rewrite length_app. replace (length s + length suffix - length suffix)
    with (length s) by lia.
  by rewrite drop_app_length.
Qed.

(** A slug with one of the two extensions is a supported file name with
    that slug. *)
Lemma slugFromFilename_app (slug ext : jsstring) :
  In ext SUPPORTED_EXT ->
  supported (slug ++ ext) = true /\
  Content.slugFromFilename (slug ++ ext) = slug.
Proof.
  intros [<-|[<-|[]]].
  - unfold supported, Content.slugFromFilename, SUPPORTED_EXT. simpl.
    rewrite endsWith_app. simpl. split; [done|].
    rewrite length_app. simpl.
    replace (length slug + 3 - 3) with (length slug) by lia.
    by rewrite take_app_length.
  - unfold supported, Content.slugFromFilename, SUPPORTED_EXT. simpl.
    rewrite (endsWith_app slug (str ".mdx")).
    destruct (endsWith (slug ++ str ".mdx") (str ".md")) eqn:Hmd.
    { destruct (endsWith_md_mdx _ Hmd (endsWith_app _ _)). }
    simpl. split; [done|]. rewrite length_app. simpl.
    replace (length slug + 4 - 4) with (length slug) by lia.
    by rewrite take_app_length.
Qed.

(** A supported file name is its slug followed by one of the two
    extensions. *)
Lemma supported_slug_ext (file : jsstring) :
  supported file = true ->
  exists ext, In ext SUPPORTED_EXT /\ file = Content.slugFromFilename file ++ ext.
Proof.
  unfold supported, Content.slugFromFilename, SUPPORTED_EXT. simpl.
  assert (Hsplit : forall suffix, endsWith file suffix = true ->
    file = take (length file - length suffix) file ++ suffix).
  { intros suffix H. unfold endsWith in H. apply bool_decide_eq_true in H.
    rewrite <- H at 2. by rewrite take_drop. }
  destruct (endsWith file (str ".md")) eqn:Hmd; simpl.
  - intros _. exists (str ".md"). split; [by left|].
    exact (Hsplit (str ".md") Hmd).
  - destruct (endsWith file (str ".mdx")) eqn:Hmdx; simpl; [|done].
    intros _. exists (str ".mdx"). split; [by right; left|].
    exact (Hsplit (str ".mdx") Hmdx).
Qed.

(** *** The listing *)

Section Listing.

Variable slugify : jsstring -> jsstring.
Variable matter : jsstring -> result (frontmatter * jsstring).
Variable parse : jsstring -> result node.
Variable localeCompare : jsstring -> jsstring -> Z.
Variable ToString : jsvalue -> jsstring.
Variable sort : sorter.
(** The engine sorts as the language wants it. *)
Hypothesis engine : conforming sort.

Abbreviation read_meta := (Content.read_meta matter).
Abbreviation read_metas := (Content.read_metas matter).
Abbreviation getAllDocsMeta := (Content.getAllDocsMeta matter localeCompare sort).
Abbreviation listable := (listable matter).
Abbreviation indexable := (indexable matter parse).
Abbreviation index_file := (IndexBuilder.index_file slugify matter parse).
Abbreviation index_files := (IndexBuilder.index_files slugify matter parse).
Abbreviation compareDocs := (IndexBuilder.compareDocs localeCompare ToString).
Abbreviation buildIndex :=
  (IndexBuilder.buildIndex slugify matter parse localeCompare ToString sort).

Lemma read_meta_ok dir file meta :
  read_meta dir file = Ok meta ->
  listable dir file /\ Content.slug meta = Content.slugFromFilename file /\
  Content.title meta <> [].
Proof.
  unfold Content.read_meta, Accepts.listable.
  destruct (readFile dir file) as [raw|] eqn:Hr; simpl; [|done].
  destruct (matter raw) as [[data content]|] eqn:Hm; simpl; [|done].
  destruct (falsy (fm_title data)) eqn:Hf; simpl; [done|].
  destruct (is_string (fm_title data)) eqn:Hs; simpl; [|done].
  destruct (is_number (fm_order data)) eqn:Hn; simpl; [|done].
  intros [= <-]. simpl. split; [|split; [done|]].
  - by exists raw, data, content.
  - by destruct (fm_title data) as [| | | |[|]| |].
Qed.

Lemma read_meta_listable dir file :
  listable dir file -> exists meta, read_meta dir file = Ok meta.
Proof.
  intros (raw & data & content & Hr & Hm & Hf & Hs & Hn).
  unfold Content.read_meta. rewrite Hr. simpl. rewrite Hm. simpl.
  rewrite Hf, Hs, Hn. simpl. by eexists.
Qed.

Lemma read_metas_spec dir files metas result :
  read_metas dir files metas = Ok result ->
  exists read, result = metas ++ read /\
    Forall2 (fun file meta => read_meta dir file = Ok meta) files read.
Proof.
  revert metas. induction files as [|file rest IH]; intros metas; simpl.
  - intros [= <-]. exists []. by rewrite app_nil_r.
  - destruct (read_meta dir file) as [meta|] eqn:Hf; simpl; [|done].
    intros H. apply IH in H as (read & -> & HF).
    exists (meta :: read). rewrite <- app_assoc. split; [done|].
    by constructor.
Qed.

Lemma read_metas_total dir files metas :
  Forall (listable dir) files -> exists result, read_metas dir files metas = Ok result.
Proof.
  intros H. revert metas. induction H as [|file rest Hf _ IH]; intros metas; simpl.
  - by eexists.
  - destruct (read_meta_listable dir file Hf) as [meta ->]. simpl. apply IH.
Qed.

Lemma getAllDocsMeta_reads dir metas :
  getAllDocsMeta dir = Ok metas ->
  exists entries read,
    readdir dir = Ok entries /\
    Forall2 (fun file meta => read_meta dir file = Ok meta)
      (List.filter supported entries) read /\
    Permutation read metas.
Proof.
  unfold Content.getAllDocsMeta, Content.readContentFiles.
  destruct (readdir dir) as [entries|]; simpl; [|done].
  destruct (read_metas dir _ []) as [read|] eqn:Hread; simpl; [|done].
  intros Hs. apply read_metas_spec in Hread as (read' & -> & HF).
  exists entries, read'. split; [done|]. split; [done|].
  by eapply (sort_rearranges sort engine).
Qed.

(** X8: the listing returns exactly when every supported file of the
    directory can be read and has a front matter with a non-empty string
    title and a numeric order; what it returns then has one entry per
    supported file, with the slug of the file, and no empty title. *)
Theorem getAllDocsMeta_exactly dir entries :
  readdir dir = Ok entries ->
  ((exists metas, getAllDocsMeta dir = Ok metas) <->
   Forall (listable dir) (List.filter supported entries)) /\
  (forall metas, getAllDocsMeta dir = Ok metas ->
     Permutation (Content.slug <$> metas)
       (Content.slugFromFilename <$> List.filter supported entries) /\
     Forall (fun meta => Content.title meta <> []) metas).
Proof.
  intros Hd. split; [split|].
  - intros [metas Hm]. apply getAllDocsMeta_reads in Hm
      as (entries' & read & Hd' & HF & _).
    rewrite Hd in Hd'. injection Hd' as <-.
    induction HF as [|file meta files read Hf _ IH]; constructor; [|done].
    by apply read_meta_ok in Hf as [? _].
  - intros Hall. unfold Content.getAllDocsMeta, Content.readContentFiles.
    rewrite Hd. simpl.
    destruct (read_metas_total dir _ [] Hall) as [read ->]. simpl.
    destruct (sort_returns sort engine (Content.compareMetas localeCompare) read)
      as (metas & Hs & _); [|by exists metas].
    intros a b _ _. unfold Content.compareMetas.
    destruct (nonzero _); by eexists.
  - intros metas Hm. apply getAllDocsMeta_reads in Hm
      as (entries' & read & Hd' & HF & Hperm).
    rewrite Hd in Hd'. injection Hd' as <-. split.
    + rewrite <- Hperm. clear Hperm.
      induction HF as [|file meta files read Hf _ IH]; [done|].
      rewrite !fmap_cons. apply read_meta_ok in Hf as (_ & -> & _).
      by constructor.
    + assert (Hread : Forall (fun meta => Content.title meta <> []) read).
      { clear Hperm.
        induction HF as [|file meta files read Hf _ IH]; constructor; [|done].
        by apply read_meta_ok in Hf as (_ & _ & ?). }
      by rewrite <- Hperm.
Qed.

(** *** The index *)

Lemma index_file_slug dir file doc :
  index_file dir file = Ok doc -> slug doc = strip_md file.
Proof.
  unfold IndexBuilder.index_file.
  destruct (readFile dir file) as [raw|]; simpl; [|done].
  destruct (matter raw) as [[data content]|]; simpl; [|done].
  destruct (parse content); simpl; [|done]. by intros [= <-].
Qed.

Lemma index_file_indexable dir file :
  indexable dir file ->
  exists doc, index_file dir file = Ok doc /\ is_string (title doc) = true.
Proof.
  intros (raw & data & content & tree & Hr & Hm & Hp & Ht).
  unfold IndexBuilder.index_file. rewrite Hr. simpl. rewrite Hm. simpl.
  rewrite Hp. simpl. eexists. split; [done|]. simpl.
  destruct (fm_title data); simpl in *; try done; by destruct Ht.
Qed.

Lemma index_files_total dir files docs :
  Forall (indexable dir) files ->
  Forall (fun doc => is_string (title doc) = true) docs ->
  exists result, index_files dir files docs = Ok result /\
    Forall (fun doc => is_string (title doc) = true) result.
Proof.
  intros H. revert docs. induction H as [|file rest Hf _ IH]; intros docs Hdocs; simpl.
  - by eexists.
  - destruct (index_file_indexable dir file Hf) as (doc & -> & Ht). simpl.
    apply IH. apply Forall_app. split; [done|]. by repeat constructor.
Qed.

(** The sort of the index builder returns when all titles are strings. *)
Lemma sort_docs_total (docs : list Doc) :
  Forall (fun doc => is_string (title doc) = true) docs ->
  exists sorted, sort Doc compareDocs docs = Ok sorted /\ Permutation docs sorted.
Proof.
  intros Hdocs. apply (sort_returns sort engine).
  intros a b Ha _. rewrite Forall_forall in Hdocs. specialize (Hdocs a Ha).
  unfold IndexBuilder.compareDocs.
  destruct (nonzero _); [by eexists|].
  destruct (title a); try done. by eexists.
Qed.

(** X5: when the directory can be listed, every supported file can be
    read and parsed and has a title that is absent or a string, and the
    output can be written, the build makes the directory, writes one
    record per supported file (with the slug of the file) and reports
    their number; it ends with status 0. *)
Theorem buildIndex_succeeds dir out entries :
  readdir dir = Ok entries ->
  Forall (indexable dir) (List.filter supported entries) ->
  mkdir out = Ok tt -> (forall docs, writeFile out docs = Ok tt) ->
  exists docs,
    buildIndex dir out
    = [Mkdir; WriteFile docs;
       ConsoleLog (length (List.filter supported entries))] /\
    exit_status (buildIndex dir out) = 0%Z /\
    Permutation (slug <$> docs) (strip_md <$> List.filter supported entries).
Proof.
  intros Hd Hall Hmk Hwr.
  destruct (index_files_total dir _ [] Hall) as (unsorted & Hi & Ht);
    [constructor|].
  destruct (sort_docs_total unsorted Ht) as (docs & Hs & Hperm).
  apply index_files_spec in Hi as (built & -> & HF). simpl in Hs, Hperm.
  assert (Hrun : buildIndex dir out
    = [Mkdir; WriteFile docs; ConsoleLog (length docs)]).
  { unfold IndexBuilder.buildIndex, read_docs. rewrite Hd. simpl.
    destruct (IndexBuilder.index_files _ _ _ dir _ []) as [unsorted|] eqn:Hi;
      simpl.
    - apply index_files_spec in Hi as (built' & -> & HF'). simpl.
      assert (built' = built) as ->.
      { clear -HF HF'. revert built' HF'.
        induction HF as [|file doc files built Hf _ IH]; intros built' HF';
          inversion HF'; subst; [done|]. f_equal; [congruence|by apply IH]. }
      rewrite Hs. by rewrite Hmk, Hwr.
    - exfalso. destruct (index_files_total dir _ [] Hall) as (r & Hr & _);
        [constructor|]. congruence. }
  exists docs. rewrite Hrun. split; [|split; [done|]].
  - assert (Hlen : length docs = length (List.filter supported entries)).
    { rewrite <- (Permutation_length Hperm). symmetry.
      exact (Forall2_length _ _ _ HF). }
    by rewrite Hlen.
  - rewrite <- Hperm. clear -HF.
    induction HF as [|file doc files built Hf _ IH]; [done|].
    rewrite !fmap_cons. apply index_file_slug in Hf as ->. by constructor.
Qed.

(** X6: when a run of the index builder writes an array and the listing
    returns, for the same directory, the slugs of the index are the slugs
    of the listing: every document that can be found by the search is a
    listed page, and every listed page is in the index. *)
Theorem index_and_listing_slugs dir out docs metas :
  In (WriteFile docs) (buildIndex dir out) ->
  getAllDocsMeta dir = Ok metas ->
  Permutation (slug <$> docs) (Content.slug <$> metas).
Proof.
  intros Hw Hm.
  apply (buildIndex_records _ _ _ _ _ _ _ _ _ engine) in Hw
    as (entries & built & Hd & HF & _ & Hperm).
  apply getAllDocsMeta_reads in Hm as (entries' & read & Hd' & HF' & Hperm').
  rewrite Hd in Hd'. injection Hd' as <-.
  rewrite <- Hperm, <- Hperm'. clear -HF HF'.
  revert read HF'.
  induction HF as [|file doc files built Hf _ IH]; intros read HF';
    inversion HF' as [|? meta ? read' Hmeta Hrest]; subst; [done|].
  rewrite !fmap_cons. apply index_file_slug in Hf as ->.
  apply read_meta_ok in Hmeta as (_ & -> & _).
  rewrite strip_md_slugFromFilename. constructor. by apply IH.
Qed.

End Listing.

End ContentFacts.

(** ** The headings of the renderer *)
Module HeadingFacts.
Import JSFacts Content Outline AnchorFacts.

Section WithSlugger.

Variable slugify : jsstring -> jsstring.

Abbreviation heading_visitor := (heading_visitor slugify).

(** The headings of the table of contents that are well formed. *)
Abbreviation toc_heading :=
  (fun hd : Heading_ => toc_depth (depth hd) = true /\ blank (text_ hd) = false).

Lemma renderer_heading_blank (n : node) :
  renderer_heading n = true -> blank (heading_text n) = false.
Proof.
  destruct n as [|depth kids| | |]; try done. unfold renderer_heading, blank.
  intros [_ H]%andb_true_iff. by destruct (trim _).
Qed.

Lemma fold_visitor_outline (nodes : list node) slugger headings :
  (fun hd => (text_ hd, depth hd))
    <$> snd (fold_left heading_visitor nodes (slugger, headings))
  = ((fun hd => (text_ hd, depth hd)) <$> headings) ++
    ((fun n => (heading_text n, heading_depth n))
       <$> List.filter renderer_heading nodes).
Proof.
  revert slugger headings.
  induction nodes as [|n nodes IH]; intros slugger headings.
  - simpl. by rewrite app_nil_r.
  - cbn [fold_left List.filter]. destruct (renderer_heading n) eqn:Hr.
    + destruct n as [|depth kids| | |]; try done.
      rewrite heading_visitor_push by done. cbv zeta.
      rewrite IH, fmap_app. simpl. by rewrite <- app_assoc.
    + rewrite heading_visitor_skip by done. apply IH.
Qed.

(** X7: the headings of the table of contents are the headings of depth
    2 and 3, anywhere in the tree, whose text nodes are not all white
    space, in document order, each with the concatenation of its text
    nodes and its depth. *)
Theorem extractHeadings_outline (tree : node) :
  (fun hd => (text_ hd, depth hd)) <$> extractHeadings slugify tree
  = (fun n => (heading_text n, heading_depth n))
      <$> List.filter renderer_heading (preorder tree) /\
  Forall toc_heading (extractHeadings slugify tree).
Proof.
  assert (H : (fun hd => (text_ hd, depth hd)) <$> extractHeadings slugify tree
    = (fun n => (heading_text n, heading_depth n))
        <$> List.filter renderer_heading (preorder tree)).
  { unfold extractHeadings, visit. rewrite fold_visitor_filter.
    2:{ intros [] E; try done. }
    by rewrite fold_visitor_outline. }
  split; [done|]. apply Forall_forall. intros hd Hin.
  assert (Hpair : (text_ hd, depth hd)
            ∈ (fun hd => (text_ hd, depth hd)) <$> extractHeadings slugify tree).
  { apply list_elem_of_fmap. by exists hd. }
  rewrite H in Hpair. apply list_elem_of_fmap in Hpair as (n & [= Ht Hd] & Hn).
  apply list_elem_of_In, filter_In in Hn as [_ Hr].
  rewrite Ht, Hd. split.
  - pose proof (renderer_heading_toc n Hr) as Htoc. by destruct n.
  - by apply renderer_heading_blank.
Qed.

Lemma fold_visitor_ids (nodes : list node) slugger headings :
  Forall (fun hd => is_Some (slugger !! id hd)) headings ->
  NoDup (id <$> headings) ->
  NoDup (id <$> snd (fold_left heading_visitor nodes (slugger, headings))).
Proof.
  revert slugger headings.
  induction nodes as [|n nodes IH]; intros slugger headings Hin Hnd; [done|].
  cbn [fold_left]. destruct (renderer_heading n) eqn:Hr.
  - destruct n as [|depth kids| | |]; try done.
    rewrite heading_visitor_push by done. cbv zeta.
    destruct (SluggerFresh.slug_fresh slugify slugger
                (heading_text (Heading depth kids))) as (Hnew & Hid & Hold).
    apply IH.
    + apply Forall_app. split.
      * eapply Forall_impl; [exact Hin|]. intros hd. apply Hold.
      * by repeat constructor.
    + rewrite fmap_app. apply NoDup_app. split; [done|]. split.
      * intros x Hx [->|[]%elem_of_nil]%elem_of_cons.
        apply list_elem_of_fmap in Hx as (hd & Hs & Hx).
        rewrite Forall_forall in Hin. destruct (Hin hd Hx) as [k Hk].
        rewrite <- Hs in Hk. simpl in Hk. congruence.
      * apply NoDup_singleton.
  - rewrite heading_visitor_skip by done. by apply IH.
Qed.

(** X9: the ids of the headings of the table of contents are pairwise
    distinct, so that each entry of the table has a key and an anchor of
    its own. *)
Theorem extractHeadings_ids_distinct (tree : node) :
  NoDup (id <$> extractHeadings slugify tree).
Proof.
  unfold extractHeadings, visit. apply fold_visitor_ids; constructor.
Qed.

End WithSlugger.

End HeadingFacts.

(** ** A document by its slug *)
Module PagesFacts.
Import Content Pages ContentFacts.

Section Pages.

Variable slugify : jsstring -> jsstring.
Variable parse : jsstring -> result node.
Variable C : Type.
Variable compileMDX : jsstring -> result (C * frontmatter).
Variable ToString : jsvalue -> jsstring.
Variable ToNumber : jsvalue -> number.
Variable access : jsstring -> result unit.

Abbreviation resolve := (fun slug => resolve_from access slug SUPPORTED_EXT None).
Abbreviation getDocBySlug := (getDocBySlug slugify parse C compileMDX access).
Abbreviation DocPage := (DocPage slugify parse C compileMDX ToNumber access).
Abbreviation generateMetadata :=
  (generateMetadata slugify parse C compileMDX ToString access).

Lemma resolve_cases (slug : jsstring) :
  resolve slug
  = match access (slug ++ str ".md") with
    | Ok _ => Some (slug ++ str ".md")
    | Throw _ =>
        match access (slug ++ str ".mdx") with
        | Ok _ => Some (slug ++ str ".mdx")
        | Throw _ => None
        end
    end.
Proof. reflexivity. Qed.

(** X10: the slug of a supported file that can be accessed resolves to a
    supported file with that slug: the file itself, or, for a file
    [slug.mdx], the file [slug.md] when that one can be accessed as well
    (it is tried first). *)
Theorem listed_slug_resolves (file : jsstring) :
  supported file = true -> access file = Ok tt ->
  exists resolved,
    resolve (slugFromFilename file) = Some resolved /\
    supported resolved = true /\
    slugFromFilename resolved = slugFromFilename file /\
    (resolved = file \/
     (resolved = slugFromFilename file ++ str ".md" /\
      file = slugFromFilename file ++ str ".mdx")).
Proof.
  intros Hs Ha. destruct (supported_slug_ext file Hs) as (ext & Hext & Hfile).
  set (slug := slugFromFilename file) in *. rewrite resolve_cases.
  destruct (slugFromFilename_app slug (str ".md")) as [Smd Rmd]; [by left|].
  destruct (slugFromFilename_app slug (str ".mdx")) as [Smdx Rmdx];
    [by right; left|].
  destruct Hext as [<-|[<-|[]]].
  - rewrite <- Hfile, Ha. exists file. repeat split; auto.
  - destruct (access (slug ++ str ".md")) as [[]|e] eqn:Hmd.
    + exists (slug ++ str ".md"). repeat split; auto.
    + rewrite <- Hfile, Ha. exists file. repeat split; auto.
Qed.

(** X11: a slug for which neither [slug.md] nor [slug.mdx] can be
    accessed is not found: [getDocBySlug] throws the error that names the
    slug, the page is the not-found page, and the metadata has the title
    [Topic not found] and no description. *)
Theorem unknown_slug_not_found (dir : directory) (slug : jsstring) :
  (forall ext, In ext SUPPORTED_EXT -> exists e, access (slug ++ ext) = Throw e) ->
  getDocBySlug dir slug = Throw (not_found slug) /\
  DocPage dir slug = NotFound /\
  generateMetadata dir slug = mkMetadata (str "Topic not found") None.
Proof.
  intros Hno.
  destruct (Hno (str ".md")) as [e1 H1]; [by left|].
  destruct (Hno (str ".mdx")) as [e2 H2]; [by right; left|].
  assert (H : getDocBySlug dir slug = Throw (not_found slug)).
  { unfold Pages.getDocBySlug. rewrite resolve_cases. by rewrite H1, H2. }
  unfold Pages.DocPage, Pages.generateMetadata. by rewrite H.
Qed.

End Pages.

End PagesFacts.

(** ** The search bar between any two events *)
Module SearchBarInvFacts.
Import SearchBar SearchBarInv SearchBarFacts.

Section Component.

Variable FuseResult : Type.
Variable search : list SearchEntry -> jsstring -> list FuseResult.

Abbreviation state := (state FuseResult).
Abbreviation step := (step FuseResult search).
Abbreviation run := (run FuseResult search).
Abbreviation mounted := (mounted FuseResult).
Abbreviation reachable := (reachable FuseResult search).
Abbreviation well_formed := (well_formed FuseResult search).

Lemma mounted_well_formed : well_formed mounted.
Proof.
  unfold SearchBarInv.well_formed, timer_ok, calls_ok, results_ok. simpl.
  repeat split; auto.
Qed.

Lemma step_well_formed (s : state) (e : event) :
  well_formed s -> well_formed (step s e).
Proof.
  unfold SearchBarInv.well_formed, timer_ok, calls_ok, results_ok.
  intros (Ht & (Hc & Hnone & Hpend) & Hres).
  destruct e as [outcome|value| |ms]; simpl.
  - (* the fetch settles *)
    destruct (loadIndex_pending _ s) eqn:Hp.
    2:{ split; [exact Ht|]. split; [|exact Hres]. split; [exact Hc|].
        split; [exact Hnone|]. by rewrite Hp. }
    pose proof (Hpend eq_refl) as Hf.
    destruct (Hnone Hf) as [Hcalls Hresults].
    assert (Hh : handle _ s = None).
    { destruct (handle _ s) as [[due q]|]; [|done].
      destruct Ht as (_ & _ & [fuse Hfuse] & _). congruence. }
    unfold load_effect, loadIndex.
    destruct outcome as [cause| |docs]; simpl; rewrite Hh.
    + split; [done|]. split; [|by left]. split; [done|]. by split.
    + split; [done|]. split; [|by left]. split; [done|]. by split.
    + split; [done|]. split; [|by left]. split; [done|]. by split.
  - (* a keystroke *)
    unfold SearchBar.setQuery. case_bool_decide as Hq; [done|].
    unfold query_effect, cleanup. simpl.
    destruct (fuseRef _ s) as [fuse|] eqn:Hf; simpl.
    + destruct (blank value) eqn:Hb; simpl; rewrite ?Hf.
      * split; [done|]. split; [|by left]. split; [done|].
        split; [intros [=]|exact Hpend].
      * split; [repeat split; auto; try lia; by eexists|].
        split; [|exact Hres]. split; [done|].
        split; [intros [=]|exact Hpend].
    + split; [done|]. split; [|by left]. split; [done|]. split; [|done].
      intros _. by destruct (Hnone eq_refl) as [-> _].
  - (* a result is selected *)
    unfold SearchBar.setQuery. case_bool_decide as Hq; simpl.
    + split.
      * destruct (handle _ s) as [[due q]|]; [|done].
        destruct Ht as (-> & Hb & _). by rewrite <- Hq in Hb.
      * split; [|by left]. split; [done|]. split; [|done].
        intros Hf. by destruct (Hnone Hf) as [-> _].
    + unfold query_effect, cleanup. simpl. change (blank []) with true.
      rewrite orb_true_r. simpl. split; [done|]. split; [|by left].
      split; [done|]. split; [|done].
      intros Hf. by destruct (Hnone Hf) as [-> _].
  - (* time passes *)
    unfold SearchBar.wait. simpl.
    destruct (handle _ s) as [[due q]|] eqn:Hh; simpl; [|by rewrite Hh].
    destruct Ht as (-> & Hb & [fuse Hf] & Hlt & Hle & Hl).
    destruct (Nat.leb_spec due (now _ s + ms)) as [Hdue|Hearly]; simpl.
    + unfold timeout_callback. simpl. rewrite Hf. simpl. rewrite ?Hf.
      split; [done|]. split.
      * split; [apply Forall_app; split; [done|by repeat constructor]|].
        split; [intros [=]|]. intros Hp. specialize (Hpend Hp). congruence.
      * right. exists fuse, (query _ s). by rewrite last_snoc.
    + rewrite Hh. split; [repeat split; auto; try lia; by eexists|].
      done.
Qed.

Lemma reachable_well_formed (s : state) : reachable s -> well_formed s.
Proof.
  intros [events ->]. induction events as [|e events IH] using rev_ind.
  - apply mounted_well_formed.
  - rewrite run_app. simpl. by apply step_well_formed.
Qed.

Lemma setQuery_schedules (s : state) (value : jsstring) fuse :
  fuseRef _ s = Some fuse -> value <> query _ s -> blank value = false ->
  SearchBar.setQuery _ value s =
  set_handle _ (Some (now _ s + 120, value))
    (set_loading _ true (set_handle _ None (set_query _ value s))).
Proof.
  intros Hf Hne Hb. unfold SearchBar.setQuery.
  rewrite bool_decide_eq_false_2 by done.
  unfold query_effect, cleanup. simpl. by rewrite Hf, Hb.
Qed.

Lemma setQuery_cancels (s : state) (value : jsstring) :
  value <> query _ s -> blank value = true ->
  SearchBar.setQuery _ value s =
  set_results _ [] (set_handle _ None (set_query _ value s)).
Proof.
  intros Hne Hb. unfold SearchBar.setQuery.
  rewrite bool_decide_eq_false_2 by done.
  unfold query_effect, cleanup. simpl. by rewrite Hb, orb_true_r.
Qed.

(** X12: a search that is waiting for its 120 ms is always the search
    for the text that is in the input field now; that text is not blank,
    the index is loaded, the search is due within the next 120 ms, and the
    component shows that it is searching. *)
Theorem pending_search_is_current (s : state) (due : nat) (q : jsstring) :
  reachable s -> handle _ s = Some (due, q) ->
  q = query _ s /\ blank q = false /\ is_Some (fuseRef _ s) /\
  now _ s < due /\ due <= now _ s + 120 /\ loading _ s = true.
Proof.
  intros Hr Hh. destruct (reachable_well_formed s Hr) as (Ht & _).
  unfold timer_ok in Ht. by rewrite Hh in Ht.
Qed.

(** X13: no search has ever run for a blank query, none has run while
    the index was missing, and a wait runs at most one search: the one
    for the text that is in the input field. *)
Theorem searches_never_blank (s : state) :
  reachable s ->
  Forall (fun q => blank q = false) (calls _ s) /\
  (fuseRef _ s = None -> calls _ s = []) /\
  forall ms, calls _ (step s (Wait ms)) = calls _ s \/
             calls _ (step s (Wait ms)) = calls _ s ++ [query _ s].
Proof.
  intros Hr. destruct (reachable_well_formed s Hr) as (Ht & (Hc & Hnone & _) & _).
  split; [done|]. split; [by intros Hf; destruct (Hnone Hf)|].
  intros ms. simpl. unfold SearchBar.wait. simpl. unfold timer_ok in Ht.
  destruct (handle _ s) as [[due q]|]; [|by left].
  destruct Ht as (-> & _ & [fuse Hf] & _).
  destruct (due <=? now _ s + ms); [|by left].
  right. unfold timeout_callback. simpl. by rewrite Hf.
Qed.

(** X14: the results on display are none, or exactly what the index
    returned for the last search that has run. *)
Theorem results_from_last_search (s : state) :
  reachable s ->
  results _ s = [] \/
  exists fuse q, fuseRef _ s = Some fuse /\ last (calls _ s) = Some q /\
                 results _ s = search fuse q.
Proof.
  intros Hr. by destruct (reachable_well_formed s Hr) as (_ & _ & Hres).
Qed.

(** X15: after a result is selected the input field is empty, no results
    are shown and no search is pending; waiting runs no search. *)
Theorem select_clears (s : state) :
  reachable s ->
  let s' := step s Select in
  query _ s' = [] /\ results _ s' = [] /\ handle _ s' = None /\
  forall ms, calls _ (step s' (Wait ms)) = calls _ s /\
             results _ (step s' (Wait ms)) = [].
Proof.
  intros Hr. destruct (reachable_well_formed s Hr) as (Ht & _). cbv zeta.
  assert (H : query _ (step s Select) = [] /\ results _ (step s Select) = [] /\
              handle _ (step s Select) = None /\
              calls _ (step s Select) = calls _ s).
  { simpl. unfold SearchBar.setQuery. case_bool_decide as Hq; simpl.
    - split; [done|]. split; [done|]. split; [|done].
      unfold timer_ok in Ht. destruct (handle _ s) as [[due q]|]; [|done].
      destruct Ht as (-> & Hb & _). by rewrite <- Hq in Hb.
    - unfold query_effect, cleanup. simpl. change (blank []) with true.
      by rewrite orb_true_r. }
  destruct H as (Hq & Hres & Hh & Hc).
  split; [done|]. split; [done|]. split; [done|]. intros ms.
  destruct (wait_idle _ search (step s Select) ms Hh) as (Hc' & Hr' & _).
  change (step (step s Select) (Wait ms))
    with (SearchBar.wait _ search ms (step s Select)).
  split; congruence.
Qed.

(** X16: when a query is typed and erased again within the 120 ms, the
    pending search is cancelled but the component keeps showing that it is
    searching, for as long as nothing else is typed. *)
Theorem loading_stays_after_erase (s : state) (value erased : jsstring)
    (gap : nat) :
  has_index _ s = true -> value <> query _ s -> blank value = false ->
  gap < 120 -> blank erased = true ->
  let s' := run s [Change value; Wait gap; Change erased] in
  loading _ s' = true /\ handle _ s' = None /\ results _ s' = [] /\
  forall ms, loading _ (step s' (Wait ms)) = true /\
             calls _ (step s' (Wait ms)) = calls _ s.
Proof.
  intros Hi Hne Hb Hgap He. cbv zeta.
  unfold has_index in Hi. apply bool_decide_eq_true in Hi as [fuse Hf].
  assert (Hev : erased <> value) by (intros ->; congruence).
  assert (H : loading _ (run s [Change value; Wait gap; Change erased]) = true /\
              handle _ (run s [Change value; Wait gap; Change erased]) = None /\
              results _ (run s [Change value; Wait gap; Change erased]) = [] /\
              calls _ (run s [Change value; Wait gap; Change erased]) = calls _ s).
  { change (run s [Change value; Wait gap; Change erased])
      with (SearchBar.setQuery _ erased
              (SearchBar.wait _ search gap (SearchBar.setQuery _ value s))).
    rewrite (setQuery_schedules s value fuse) by done.
    unfold SearchBar.wait. cbn [set_now set_handle set_loading set_query
      handle now fuseRef query results loading loadIndex_pending calls console].
    destruct (Nat.leb_spec (now _ s + 120) (now _ s + gap)); [lia|].
    by rewrite setQuery_cancels. }
  destruct H as (Hl & Hh & Hres & Hc).
  split; [done|]. split; [done|]. split; [done|]. intros ms.
  change (step (run s [Change value; Wait gap; Change erased]) (Wait ms))
    with (SearchBar.wait _ search ms
            (run s [Change value; Wait gap; Change erased])).
  destruct (wait_idle _ search _ ms Hh) as (Hc' & _ & _ & Hs).
  assert (Hl' : loading _ (SearchBar.wait _ search ms
            (run s [Change value; Wait gap; Change erased])) = true).
  { unfold SearchBar.wait.
    change (handle _ (set_now _ ?n ?st)) with (handle _ st).
    by rewrite Hh. }
  split; [exact Hl'|congruence].
Qed.

End Component.

Lemma pending_search_is_current_witness :
  let s := run _ Samples.prefix_search Samples.loaded_bar
             [Change (str "retry"); Wait 40] in
  str "retry" = query _ s /\ blank (str "retry") = false /\
  is_Some (fuseRef _ s) /\ now _ s < 120 /\ 120 <= now _ s + 120 /\
  loading _ s = true.
Proof.
  apply (pending_search_is_current _ Samples.prefix_search).
  - exists [Loaded (Fetched Samples.fetched_docs); Change (str "retry"); Wait 40].
    vm_compute. reflexivity.
  - vm_compute. reflexivity.
Defined.

Lemma searches_never_blank_witness :
  let s := run _ Samples.prefix_search Samples.loaded_bar
             [Change (str "retry"); Wait 200; Change (str " ")] in
  Forall (fun q => blank q = false) (calls _ s) /\
  (fuseRef _ s = None -> calls _ s = []) /\
  forall ms, calls _ (step _ Samples.prefix_search s (Wait ms)) = calls _ s \/
             calls _ (step _ Samples.prefix_search s (Wait ms))
               = calls _ s ++ [query _ s].
Proof.
  apply (searches_never_blank _ Samples.prefix_search).
  exists [Loaded (Fetched Samples.fetched_docs); Change (str "retry"); Wait 200;
          Change (str " ")].
  vm_compute. reflexivity.
Defined.

Lemma results_from_last_search_witness :
  let s := run _ Samples.prefix_search Samples.loaded_bar
             [Change (str "retry"); Wait 200] in
  results _ s = [] \/
  exists fuse q, fuseRef _ s = Some fuse /\ last (calls _ s) = Some q /\
                 results _ s = Samples.prefix_search fuse q.
Proof.
  apply (results_from_last_search _ Samples.prefix_search).
  exists [Loaded (Fetched Samples.fetched_docs); Change (str "retry"); Wait 200].
  vm_compute. reflexivity.
Defined.

Lemma select_clears_witness :
  let s := run _ Samples.prefix_search Samples.loaded_bar
             [Change (str "retry"); Wait 200] in
  let s' := step _ Samples.prefix_search s Select in
  query _ s' = [] /\ results _ s' = [] /\ handle _ s' = None /\
  forall ms, calls _ (step _ Samples.prefix_search s' (Wait ms)) = calls _ s /\
             results _ (step _ Samples.prefix_search s' (Wait ms)) = [].
Proof.
  apply (select_clears _ Samples.prefix_search).
  exists [Loaded (Fetched Samples.fetched_docs); Change (str "retry"); Wait 200].
  vm_compute. reflexivity.
Defined.

Lemma loading_stays_after_erase_witness :
  let s' := run _ Samples.prefix_search Samples.loaded_bar
              [Change (str "r"); Wait 40; Change []] in
  loading _ s' = true /\ handle _ s' = None /\ results _ s' = [] /\
  forall ms, loading _ (step _ Samples.prefix_search s' (Wait ms)) = true /\
             calls _ (step _ Samples.prefix_search s' (Wait ms))
               = calls _ Samples.loaded_bar.
Proof.
  apply (loading_stays_after_erase _ Samples.prefix_search Samples.loaded_bar
           (str "r") [] 40).
  - vm_compute. reflexivity.
  - discriminate.
  - reflexivity.
  - lia.
  - reflexivity.
Defined.

End SearchBarInvFacts.

(** ** Links between documents *)
Module LinksFacts.
Import IndexBuilder Links ContentFacts.

Lemma startsWith_app (prefix s : jsstring) :
  startsWith (prefix ++ s) prefix = true.
Proof.
  unfold startsWith. apply bool_decide_eq_true. by rewrite take_app_length.
Qed.

Lemma startsWith_inv (s prefix : jsstring) :
  startsWith s prefix = true -> s = prefix ++ drop (length prefix) s.
Proof.
  unfold startsWith. intros H%bool_decide_eq_true.
  rewrite <- (take_drop (length prefix) s) at 1. by rewrite H.
Qed.

Lemma rewrite_url_relative (rest : jsstring) :
  rewrite_url (VString (str "./" ++ rest))
  = VString (str "/docs/" ++ strip_md rest).
Proof. reflexivity. Qed.

Lemma rewrite_url_other (url : jsvalue) :
  (forall u, url = VString u -> startsWith u (str "./") = false) ->
  rewrite_url url = url.
Proof.
  intros H. unfold rewrite_url.
  destruct url as [| |b|z|u| |]; cbn [is_string as_string negb];
    rewrite ?orb_true_r; try done.
  rewrite (H u eq_refl). by destruct (falsy _ || _).
Qed.

(** X17: after the rewriting no link begins with [./], and rewriting a
    second time changes nothing; a link that is not a string, is empty or
    does not begin with [./] is left as it is. *)
Theorem rewrite_url_settled (url : jsvalue) :
  (forall u, rewrite_url url = VString u -> startsWith u (str "./") = false) /\
  rewrite_url (rewrite_url url) = rewrite_url url /\
  ((forall u, url = VString u -> startsWith u (str "./") = false) ->
   rewrite_url url = url).
Proof.
  assert (H : forall u, rewrite_url url = VString u ->
                        startsWith u (str "./") = false).
  { intros u. destruct url as [| |b|z|v| |]; try done;
      [by destruct b|by destruct z as [[| |]|]|].
    destruct (startsWith v (str "./")) eqn:Hv.
    - rewrite (startsWith_inv _ _ Hv), rewrite_url_relative. by intros [= <-].
    - rewrite rewrite_url_other; [by intros [= <-]|]. by intros ? [= <-]. }
  split; [done|]. split; [|apply rewrite_url_other].
  apply rewrite_url_other. exact H.
Qed.

Section Listing.

Variable matter : jsstring -> result (frontmatter * jsstring).
Variable localeCompare : jsstring -> jsstring -> Z.
Variable sort : sorter.
(** The engine sorts as the language wants it. *)
Hypothesis engine : conforming sort.

(** X18: a link [./file] to a supported file of the content directory
    is rewritten to [/docs/] followed by the slug of a listed document:
    the address under which the listing links that document. *)
Theorem relative_link_to_listed_page dir entries metas (file : jsstring) :
  readdir dir = Ok entries ->
  Content.getAllDocsMeta matter localeCompare sort dir = Ok metas ->
  file ∈ entries -> supported file = true ->
  exists meta,
    meta ∈ metas /\
    rewrite_url (VString (str "./" ++ file))
    = VString (str "/docs/" ++ Content.slug meta).
Proof.
  intros Hd Hm Hin Hs.
  apply (getAllDocsMeta_reads _ _ _ engine) in Hm
    as (entries' & read & Hd' & HF & Hperm).
  rewrite Hd in Hd'. injection Hd' as <-.
  assert (Hf : file ∈ List.filter supported entries).
  { apply list_elem_of_In, filter_In. split; [by apply list_elem_of_In|done]. }
  apply list_elem_of_lookup_1 in Hf as [i Hi].
  destruct (Forall2_lookup_l _ _ _ _ _ HF Hi) as (meta & Hmeta & Hread).
  exists meta. split.
  - rewrite <- Hperm. by eapply list_elem_of_lookup_2.
  - apply read_meta_ok in Hread as (_ & -> & _).
    by rewrite rewrite_url_relative, strip_md_slugFromFilename.
Qed.

End Listing.

Lemma relative_link_to_listed_page_witness :
  exists meta,
    meta ∈ Cases.site_metas /\
    rewrite_url (VString (str "./" ++ str "03-kafka.md"))
    = VString (str "/docs/" ++ Content.slug meta).
Proof.
  apply (relative_link_to_listed_page Samples.sample_matter Samples.collate
           insertion_sort SortFacts.insertion_sort_conforming Samples.site_dir
           [str "03-kafka.md"; str "notes.txt"; str "01-git.md"; str "alpha.mdx"]).
  - reflexivity.
  - vm_compute. reflexivity.
  - apply list_elem_of_here.
  - reflexivity.
Defined.

End LinksFacts.

(** ** The revalidation route *)
Module RevalidateFacts.
Import Links Revalidate LinksFacts.

Lemma path_of_absolute (slug : jsstring) :
  startsWith (path_of slug) (str "/") = true.
Proof.
  unfold path_of. destruct (startsWith slug (str "/")) eqn:H; [done|].
  reflexivity.
Qed.

Lemma map_paths_strings (slugs : list jsstring) :
  map_paths (VString <$> slugs) = Ok (path_of <$> slugs).
Proof.
  induction slugs as [|slug slugs IH]; [done|].
  rewrite !fmap_cons. cbn [map_paths to_path]. by rewrite IH.
Qed.

Lemma map_paths_absolute (slugs : list jsvalue) (paths : list jsstring) :
  map_paths slugs = Ok paths ->
  length paths = length slugs /\
  Forall (fun path => startsWith path (str "/") = true) paths.
Proof.
  revert paths. induction slugs as [|slug slugs IH]; intros paths; simpl.
  - intros [= <-]. by split.
  - destruct slug as [| | | |s| |]; simpl; try done.
    destruct (map_paths slugs) as [rest|]; simpl; [|done].
    intros [= <-]. destruct (IH rest eq_refl) as [Hl HF]. split.
    + simpl. by rewrite Hl.
    + constructor; [apply path_of_absolute|done].
Qed.

Lemma map_paths_throws (slugs : list jsvalue) (slug : jsvalue) :
  slug ∈ slugs -> is_string slug = false ->
  exists what, map_paths slugs = Throw (TypeError what).
Proof.
  intros Hin Hs. induction Hin as [slug slugs|slug other slugs Hin IH].
  - destruct slug; try done; by eexists.
  - destruct (IH Hs) as [what Hw]. simpl.
    destruct other as [| | | |s| |]; simpl; try by eexists.
    rewrite Hw. by eexists.
Qed.

Lemma pathsToRevalidate_absolute (body : jsvalue) (paths : list jsstring) :
  pathsToRevalidate body = Ok paths ->
  paths <> [] /\ Forall (fun path => startsWith path (str "/") = true) paths.
Proof.
  unfold pathsToRevalidate.
  destruct (get body (str "slugs")) as [value|]; simpl; [|done].
  assert (Hhome : Ok [str "/"] = Ok paths ->
    paths <> [] /\ Forall (fun path => startsWith path (str "/") = true) paths).
  { intros [= <-]. split; [done|]. by repeat constructor. }
  destruct value as [| | | | |items|]; try done.
  destruct items as [|slug slugs]; [done|].
  intros [Hl HF]%map_paths_absolute. split; [|done].
  intros ->. simpl in Hl. lia.
Qed.

Section Route.

Variable REVALIDATE_SECRET : option jsstring.
Variable revalidatePath : jsstring -> result unit.

Abbreviation refused := (refused REVALIDATE_SECRET).
Abbreviation forEach_revalidatePath := (forEach_revalidatePath revalidatePath).
Abbreviation POST := (POST REVALIDATE_SECRET revalidatePath).

Lemma refused_false (secret : jsvalue) :
  refused secret = false <->
  exists expected,
    REVALIDATE_SECRET = Some expected /\ expected <> [] /\
    secret = VString expected.
Proof.
  unfold Revalidate.refused, strict_equal. split.
  - intros [Hf Hs%negb_false_iff]%orb_false_iff.
    destruct secret as [| | | |s| |]; try done.
    destruct REVALIDATE_SECRET as [expected|]; [|done].
    apply bool_decide_eq_true in Hs as <-.
    exists s. split; [done|]. split; [|done]. by intros ->.
  - intros (expected & -> & Hne & ->). apply orb_false_iff. split.
    + by destruct expected.
    + apply negb_false_iff. by apply bool_decide_eq_true.
Qed.

Lemma forEach_prefix (paths : list jsstring) :
  exists rest, paths = (forEach_revalidatePath paths).1 ++ rest /\
    ((forEach_revalidatePath paths).2 = None ->
     (forEach_revalidatePath paths).1 = paths).
Proof.
  induction paths as [|path paths (rest & IH & Hnone)]; simpl.
  - by exists [].
  - destruct (revalidatePath path); simpl.
    + destruct (forEach_revalidatePath paths) as [calls failure]; simpl in *.
      exists rest. split; [by rewrite <- IH|]. intros H. by rewrite Hnone.
    + by exists paths.
Qed.

Lemma forEach_ok (paths : list jsstring) :
  Forall (fun path => revalidatePath path = Ok tt) paths ->
  forEach_revalidatePath paths = (paths, None).
Proof.
  induction 1 as [|path paths Hp _ IH]; [done|]. simpl. by rewrite Hp, IH.
Qed.

Lemma forEach_fails (done_ rest : list jsstring) (path : jsstring) cause :
  Forall (fun path => revalidatePath path = Ok tt) done_ ->
  revalidatePath path = Throw cause ->
  forEach_revalidatePath (done_ ++ path :: rest) = (done_ ++ [path], Some cause).
Proof.
  intros HF Hp. induction HF as [|first done_ Hfirst _ IH]; simpl.
  - by rewrite Hp.
  - by rewrite Hfirst, IH.
Qed.

(** The route past its check of the secret. *)
Lemma POST_authorised (req : request) (expected : jsstring) :
  REVALIDATE_SECRET = Some expected -> expected <> [] ->
  secret_of req = Ok (VString expected) ->
  POST req
  = match pathsToRevalidate (body_of req) with
    | Throw error => mkOutcome (Throw error) [] []
    | Ok paths =>
        match forEach_revalidatePath paths with
        | (calls, None) =>
            mkOutcome (Ok (mkResponse 200 true None (Some paths))) calls []
        | (calls, Some error) => mkOutcome (Ok error_revalidating) calls [error]
        end
    end.
Proof.
  intros He Hne Hs. unfold Revalidate.POST. rewrite Hs.
  assert (Hr : refused (VString expected) = false).
  { apply refused_false. by exists expected. }
  by rewrite Hr.
Qed.

(** X19: the route revalidates a path, or answers with a success, only
    when [REVALIDATE_SECRET] is set and not empty and the secret of the
    request (the header, or without a header the [secret] of the body) is
    that very string. *)
Theorem revalidation_needs_secret (req : request) :
  revalidatePath_calls (POST req) <> [] \/
  (exists r, answer (POST req) = Ok r /\ success r = true) ->
  exists expected,
    REVALIDATE_SECRET = Some expected /\ expected <> [] /\
    secret_of req = Ok (VString expected).
Proof.
  unfold Revalidate.POST.
  destruct (secret_of req) as [secret|] eqn:Hs; simpl.
  - destruct (refused secret) eqn:Hr; simpl.
    + intros [H|(r & [= <-] & H)]; done.
    + intros _. apply refused_false in Hr as (expected & He & Hne & ->).
      by exists expected.
  - intros [H|(r & H & _)]; done.
Qed.

(** X20: the header decides.  A request whose header
    [x-revalidate-secret] is not the configured secret is answered with
    status 401 and revalidates nothing, whatever its body holds: the
    [secret] of the body is not looked at. *)
Theorem header_secret_wins (req : request) (headerSecret : jsstring) :
  x_revalidate_secret req = Some headerSecret ->
  REVALIDATE_SECRET <> Some headerSecret ->
  POST req = mkOutcome (Ok invalid_secret) [] [].
Proof.
  intros Hh Hne. unfold Revalidate.POST, secret_of. rewrite Hh.
  assert (Hr : refused (VString headerSecret) = true).
  { destruct (refused (VString headerSecret)) eqn:Hr; [done|].
    apply refused_false in Hr as (expected & He & _ & [= ->]). done. }
  by rewrite Hr.
Qed.

(** X21: every path the route revalidates begins with a slash; and when
    the route answers with a list of paths, the list is not empty and it
    is the list of the paths that were revalidated, in that order. *)
Theorem revalidated_paths_absolute (req : request) :
  Forall (fun path => startsWith path (str "/") = true)
    (revalidatePath_calls (POST req)) /\
  forall r paths,
    answer (POST req) = Ok r -> revalidated r = Some paths ->
    paths <> [] /\ revalidatePath_calls (POST req) = paths.
Proof.
  unfold Revalidate.POST.
  destruct (secret_of req) as [secret|]; simpl; [|by split].
  destruct (refused secret); simpl; [split; [done|by intros r paths [= <-]]|].
  destruct (pathsToRevalidate (body_of req)) as [paths|] eqn:Hp; simpl;
    [|by split].
  apply pathsToRevalidate_absolute in Hp as [Hne HF].
  destruct (forEach_prefix paths) as (rest & Hrest & Hnone).
  destruct (forEach_revalidatePath paths) as [calls [error|]]; simpl in *.
  - split; [|by intros r paths' [= <-]].
    rewrite Hrest in HF. by apply Forall_app in HF as [HF _].
  - rewrite (Hnone eq_refl). split; [done|].
    by intros r paths' [= <-] [= <-].
Qed.

(** X22: with the right secret and a body whose [slugs] is an array of
    strings, when the framework revalidates each path, the route
    revalidates [/docs/slug] for each slug (a slug that begins with a slash
    as it is), in the order of the array, and answers with that list; for
    an empty array it revalidates the home page [/]. *)
Theorem revalidates_given_slugs (req : request) (expected : jsstring)
    (props : list (jsstring * jsvalue)) (slugs : list jsstring) :
  REVALIDATE_SECRET = Some expected -> expected <> [] ->
  secret_of req = Ok (VString expected) ->
  json req = Ok (VObject props) ->
  own props (str "slugs") = VArray (VString <$> slugs) ->
  let paths := match slugs with [] => [str "/"] | _ => path_of <$> slugs end in
  Forall (fun path => revalidatePath path = Ok tt) paths ->
  POST req = mkOutcome (Ok (mkResponse 200 true None (Some paths))) paths [].
Proof.
  intros He Hne Hs Hj Hown paths Hall.
  rewrite (POST_authorised req expected He Hne Hs).
  assert (Hp : pathsToRevalidate (body_of req) = Ok paths).
  { unfold pathsToRevalidate, body_of. rewrite Hj. simpl. rewrite Hown.
    destruct slugs as [|slug slugs]; [done|].
    exact (map_paths_strings (slug :: slugs)). }
  by rewrite Hp, (forEach_ok paths Hall).
Qed.

(** X23: when the framework throws at one of the paths, the route
    answers with status 500 and logs the error; the paths before that one
    have been revalidated and stay so, the paths after it are not tried,
    and the answer does not tell which. *)
Theorem revalidation_stops_at_failure (req : request) (expected : jsstring)
    (done_ rest : list jsstring) (path : jsstring) (cause : error) :
  REVALIDATE_SECRET = Some expected -> expected <> [] ->
  secret_of req = Ok (VString expected) ->
  pathsToRevalidate (body_of req) = Ok (done_ ++ path :: rest) ->
  Forall (fun path => revalidatePath path = Ok tt) done_ ->
  revalidatePath path = Throw cause ->
  POST req = mkOutcome (Ok error_revalidating) (done_ ++ [path]) [cause].
Proof.
  intros He Hne Hs Hp Hdone Hpath.
  rewrite (POST_authorised req expected He Hne Hs), Hp.
  by rewrite (forEach_fails done_ rest path cause Hdone Hpath).
Qed.

(** X24: with the right secret and a [slugs] array that holds a value
    that is not a string, the route throws a [TypeError] and revalidates
    nothing, not even the slugs before that value. *)
Theorem slug_not_a_string_throws (req : request) (expected : jsstring)
    (slugs : list jsvalue) (slug : jsvalue) :
  REVALIDATE_SECRET = Some expected -> expected <> [] ->
  secret_of req = Ok (VString expected) ->
  get (body_of req) (str "slugs") = Ok (VArray slugs) ->
  slug ∈ slugs -> is_string slug = false ->
  exists what,
    POST req = mkOutcome (Throw (TypeError what)) [] [].
Proof.
  intros He Hne Hs Hg Hin Hstr.
  rewrite (POST_authorised req expected He Hne Hs).
  destruct (map_paths_throws slugs slug Hin Hstr) as [what Hw].
  exists what. unfold pathsToRevalidate. rewrite Hg. simpl.
  destruct slugs as [|first slugs]; [by apply elem_of_nil in Hin|].
  by rewrite Hw.
Qed.

End Route.

Lemma revalidation_needs_secret_witness :
  exists expected,
    Cases.sample_secret = Some expected /\ expected <> [] /\
    secret_of (Cases.signed (Cases.slugs_body [VString (str "03-kafka")]))
    = Ok (VString expected).
Proof.
  apply (revalidation_needs_secret Cases.sample_secret
           Cases.sample_revalidatePath).
  left. vm_compute. discriminate.
Defined.

Lemma header_secret_wins_witness :
  Cases.sample_POST
    (mkRequest (Some (str "guess"))
       (Ok (VObject [(str "secret", VString (str "s3cret"))])))
  = mkOutcome (Ok invalid_secret) [] [].
Proof.
  apply (header_secret_wins Cases.sample_secret Cases.sample_revalidatePath
           _ (str "guess")).
  - reflexivity.
  - vm_compute. discriminate.
Defined.

Lemma revalidates_given_slugs_witness :
  Cases.sample_POST
    (Cases.signed
       (Cases.slugs_body [VString (str "03-kafka"); VString (str "/about")]))
  = mkOutcome
      (Ok (mkResponse 200 true None (Some [str "/docs/03-kafka"; str "/about"])))
      [str "/docs/03-kafka"; str "/about"] [].
Proof.
  apply (revalidates_given_slugs Cases.sample_secret
           Cases.sample_revalidatePath _ (str "s3cret")
           [(str "slugs", VArray [VString (str "03-kafka"); VString (str "/about")])]
           [str "03-kafka"; str "/about"]).
  - reflexivity.
  - discriminate.
  - reflexivity.
  - reflexivity.
  - reflexivity.
  - repeat constructor.
Defined.

Lemma revalidation_stops_at_failure_witness :
  Cases.sample_POST
    (Cases.signed
       (Cases.slugs_body
          [VString (str "03-kafka"); VString (str "broken");
           VString (str "01-git")]))
  = mkOutcome (Ok error_revalidating)
      ([str "/docs/03-kafka"] ++ [str "/docs/broken"])
      [HostError (str "/docs/broken")].
Proof.
  apply (revalidation_stops_at_failure Cases.sample_secret
           Cases.sample_revalidatePath _ (str "s3cret")
           [str "/docs/03-kafka"] [str "/docs/01-git"] (str "/docs/broken")).
  - reflexivity.
  - discriminate.
  - reflexivity.
  - reflexivity.
  - repeat constructor.
  - reflexivity.
Defined.

Lemma slug_not_a_string_throws_witness :
  exists what,
    Cases.sample_POST
      (Cases.signed (Cases.slugs_body [VString (str "03-kafka"); VNumber (Num 7)]))
    = mkOutcome (Throw (TypeError what)) [] [].
Proof.
  apply (slug_not_a_string_throws Cases.sample_secret
           Cases.sample_revalidatePath _ (str "s3cret")
           [VString (str "03-kafka"); VNumber (Num 7)] (VNumber (Num 7))).
  - reflexivity.
  - discriminate.
  - reflexivity.
  - reflexivity.
  - apply list_elem_of_further, list_elem_of_here.
  - reflexivity.
Defined.

End RevalidateFacts.

(** ** The highlighter that all code blocks share *)
Module ShikiFacts.
Import Shiki.

Section Shiki.

Variable Highlighter : Type.

Abbreviation globals := (globals Highlighter).
Abbreviation reachable := (reachable Highlighter).
Abbreviation coherent := (coherent Highlighter).
Abbreviation step := (step Highlighter).
Abbreviation run := (run Highlighter).
Abbreviation awaited := (awaited Highlighter).

Lemma step_coherent (g : globals) (e : event Highlighter) :
  coherent g -> coherent (step g e).
Proof.
  unfold Shiki.coherent. destruct g as [h p n].
  destruct e as [|settled]; unfold Shiki.step, getSingletonHighlighter, settle;
    cbn [shikiHighlighter shikiPromise createHighlighter_calls fst].
  - destruct h as [instance|]; [done|].
    destruct p as [p|]; [done|]. simpl. by intros [_ ->].
  - destruct p as [[|instance|cause]|]; try done.
    destruct settled as [instance|cause]; simpl; intros [? ->]; done.
Qed.

Lemma run_coherent (g : globals) (events : list (event Highlighter)) :
  coherent g -> coherent (run g events).
Proof.
  revert g. induction events as [|e events IH]; intros g H; [done|].
  simpl. apply IH. by apply step_coherent.
Qed.

Lemma reachable_coherent (g : globals) : reachable g -> coherent g.
Proof. intros [events ->]. by apply run_coherent. Qed.

(** Once the promise has settled, nothing changes the globals. *)
Lemma settled_stays (g : globals) (events : list (event Highlighter)) :
  coherent g ->
  (exists p, shikiPromise _ g = Some p /\ p <> Pending) ->
  run g events = g.
Proof.
  intros Hc (p & Hp & Hne). induction events as [|e events IH]; [done|].
  simpl. replace (step g e) with g; [done|].
  unfold Shiki.coherent in Hc. rewrite Hp in Hc.
  destruct e as [|settled]; simpl.
  - unfold getSingletonHighlighter.
    destruct (shikiHighlighter _ g); [done|]. by rewrite Hp.
  - unfold settle. rewrite Hp. by destruct p.
Qed.

Lemma awaited_instance (g : globals) (instance : Highlighter) :
  coherent g ->
  awaited g = Some (Ok instance) ->
  shikiPromise _ g = Some (Fulfilled _ instance).
Proof.
  unfold Shiki.coherent, Shiki.awaited, getSingletonHighlighter. intros Hc.
  destruct (shikiHighlighter _ g) as [h|] eqn:Hh; simpl.
  - intros [= ->].
    destruct (shikiPromise _ g) as [[|i|cause]|]; destruct Hc as [Hc _];
      congruence.
  - destruct (shikiPromise _ g) as [[|i|cause]|] eqn:Hp; simpl;
      rewrite ?Hp; try done.
    destruct Hc as [Hc _]. congruence.
Qed.

Lemma awaited_rejected (g : globals) (cause : error) :
  awaited g = Some (Throw cause) ->
  shikiPromise _ g = Some (Rejected cause).
Proof.
  unfold Shiki.awaited, getSingletonHighlighter.
  destruct (shikiHighlighter _ g) as [h|] eqn:Hh; simpl; [done|].
  destruct (shikiPromise _ g) as [[|i|c]|] eqn:Hp; simpl;
    rewrite ?Hp; try done.
  by intros [= ->].
Qed.

Lemma step_calls_mono (g : globals) (e : event Highlighter) :
  createHighlighter_calls _ g <= createHighlighter_calls _ (step g e).
Proof.
  destruct g as [h p n].
  destruct e as [|settled]; unfold Shiki.step, getSingletonHighlighter, settle;
    cbn [shikiHighlighter shikiPromise createHighlighter_calls fst].
  - destruct h as [instance|]; [done|]. destruct p as [p|]; simpl; lia.
  - destruct p as [[|instance|cause]|]; try done.
    by destruct settled.
Qed.

Lemma run_calls_mono (g : globals) (events : list (event Highlighter)) :
  createHighlighter_calls _ g <= createHighlighter_calls _ (run g events).
Proof.
  revert g. induction events as [|e events IH]; intros g; [done|].
  simpl. etrans; [apply (step_calls_mono g e)|apply IH].
Qed.

(** X25: however the calls of [getSingletonHighlighter] and the settling
    of [createHighlighter] follow each other, [createHighlighter] is called
    at most once: it has been called once if there is a promise and never
    if there is none, and whatever follows, the number of its calls stays
    at most one. *)
Theorem createHighlighter_at_most_once (g : globals) :
  reachable g ->
  createHighlighter_calls _ g <= 1 /\
  (createHighlighter_calls _ g = 0 <-> shikiPromise _ g = None) /\
  forall events,
    createHighlighter_calls _ g <= createHighlighter_calls _ (run g events) /\
    createHighlighter_calls _ (run g events) <= 1.
Proof.
  intros Hr. assert (Hc := reachable_coherent g Hr).
  assert (H1 : forall g', coherent g' ->
    createHighlighter_calls _ g' <= 1 /\
    (createHighlighter_calls _ g' = 0 <-> shikiPromise _ g' = None)).
  { intros g'. unfold Shiki.coherent.
    destruct (shikiPromise _ g') as [[|i|cause]|]; intros [_ ->];
      (split; [lia|]); split; done. }
  destruct (H1 g Hc) as [Hle Hiff]. split; [done|]. split; [done|].
  intros events. split; [apply run_calls_mono|].
  by destruct (H1 (run g events) (run_coherent g events Hc)).
Qed.

(** X26: once a caller has got a highlighter, every later caller gets
    that same instance, whatever happens in between, and
    [createHighlighter] is not called again. *)
Theorem highlighter_is_shared (g : globals) (instance : Highlighter) :
  reachable g -> awaited g = Some (Ok instance) ->
  forall events,
    awaited (run g events) = Some (Ok instance) /\
    createHighlighter_calls _ (run g events) = 1.
Proof.
  intros Hr Ha events. assert (Hc := reachable_coherent g Hr).
  assert (Hp := awaited_instance g instance Hc Ha).
  rewrite settled_stays; [|done|by eexists]. split; [done|].
  unfold Shiki.coherent in Hc. rewrite Hp in Hc. by destruct Hc.
Qed.

(** X27: once [createHighlighter] has failed, every later call fails
    with that same error: the rejected promise stays in the global, and
    [createHighlighter] is never tried again. *)
Theorem rejection_is_permanent (g : globals) (cause : error) :
  reachable g -> awaited g = Some (Throw cause) ->
  forall events,
    awaited (run g events) = Some (Throw cause) /\
    shikiHighlighter _ (run g events) = None /\
    createHighlighter_calls _ (run g events) = 1.
Proof.
  intros Hr Ha events. assert (Hc := reachable_coherent g Hr).
  assert (Hp := awaited_rejected g cause Ha).
  rewrite settled_stays; [|done|by eexists]. split; [done|].
  unfold Shiki.coherent in Hc. rewrite Hp in Hc. done.
Qed.

End Shiki.

Lemma createHighlighter_at_most_once_witness :
  let g := Shiki.run nat (start nat) [Call; Call; Settle _ (Ok 7); Call] in
  createHighlighter_calls _ g <= 1 /\
  (createHighlighter_calls _ g = 0 <-> shikiPromise _ g = None) /\
  forall events,
    createHighlighter_calls _ g
    <= createHighlighter_calls _ (Shiki.run nat g events) /\
    createHighlighter_calls _ (Shiki.run nat g events) <= 1.
Proof.
  apply (createHighlighter_at_most_once nat).
  by exists [Call; Call; Settle _ (Ok 7); Call].
Defined.

Lemma highlighter_is_shared_witness :
  let g := Shiki.run nat (start nat) [Call; Call; Settle _ (Ok 7)] in
  let g' := Shiki.run nat g
              [Call; Settle _ (Ok 8); Settle _ (Throw (HostError (str "late")))] in
  Shiki.awaited nat g' = Some (Ok 7) /\ createHighlighter_calls _ g' = 1.
Proof.
  apply (highlighter_is_shared nat
           (Shiki.run nat (start nat) [Call; Call; Settle _ (Ok 7)]) 7).
  - by exists [Call; Call; Settle _ (Ok 7)].
  - reflexivity.
Defined.

Lemma rejection_is_permanent_witness :
  let g := Shiki.run nat (start nat)
             [Call; Settle _ (Throw (HostError (str "wasm")))] in
  let g' := Shiki.run nat g [Call; Settle _ (Ok 7); Call] in
  Shiki.awaited nat g' = Some (Throw (HostError (str "wasm"))) /\
  shikiHighlighter _ g' = None /\
  createHighlighter_calls _ g' = 1.
Proof.
  apply (rejection_is_permanent nat
           (Shiki.run nat (start nat)
              [Call; Settle _ (Throw (HostError (str "wasm")))])
           (HostError (str "wasm"))).
  - by exists [Call; Settle _ (Throw (HostError (str "wasm")))].
  - reflexivity.
Defined.

End ShikiFacts.

(** ** The properties on the sample site *)
Module Instances.
Import IndexBuilder Samples Cases.

Lemma buildIndex_succeeds_witness :
  exists docs,
    sample_buildIndex site_dir
    = [Mkdir; WriteFile docs;
       ConsoleLog
         (length (List.filter supported
            [str "03-kafka.md"; str "notes.txt"; str "01-git.md";
             str "alpha.mdx"]))] /\
    exit_status (sample_buildIndex site_dir) = 0%Z /\
    Permutation (slug <$> docs)
      (strip_md <$> List.filter supported
         [str "03-kafka.md"; str "notes.txt"; str "01-git.md";
          str "alpha.mdx"]).
Proof.
  apply (ContentFacts.buildIndex_succeeds Slugger.ascii_slugify sample_matter
           sample_parse collate sample_ToString insertion_sort
           SortFacts.insertion_sort_conforming site_dir writable).
  - reflexivity.
  - apply Forall_forall. intros file Hin.
    apply list_elem_of_In in Hin. vm_compute in Hin.
    destruct Hin as [<-|[<-|[<-|[]]]];
      eexists _, _, _, _; (split; [reflexivity|]); (split; [reflexivity|]);
      (split; [reflexivity|]); right; reflexivity.
  - reflexivity.
  - reflexivity.
Defined.

Lemma index_and_listing_slugs_witness :
  Permutation (slug <$> site_docs) (Content.slug <$> site_metas).
Proof.
  apply (ContentFacts.index_and_listing_slugs Slugger.ascii_slugify
           sample_matter sample_parse collate sample_ToString insertion_sort
           SortFacts.insertion_sort_conforming site_dir writable).
  - vm_compute. right. left. reflexivity.
  - vm_compute. reflexivity.
Defined.

Lemma getAllDocsMeta_exactly_witness :
  ((exists metas,
      Content.getAllDocsMeta sample_matter collate insertion_sort site_dir
      = Ok metas) <->
   Forall (Accepts.listable sample_matter site_dir)
     (List.filter supported
        [str "03-kafka.md"; str "notes.txt"; str "01-git.md"; str "alpha.mdx"])) /\
  (forall metas,
     Content.getAllDocsMeta sample_matter collate insertion_sort site_dir
     = Ok metas ->
     Permutation (Content.slug <$> metas)
       (Content.slugFromFilename <$> List.filter supported
          [str "03-kafka.md"; str "notes.txt"; str "01-git.md"; str "alpha.mdx"]) /\
     Forall (fun meta => Content.title meta <> []) metas).
Proof.
  apply (ContentFacts.getAllDocsMeta_exactly sample_matter collate
           insertion_sort SortFacts.insertion_sort_conforming site_dir).
  reflexivity.
Defined.

Lemma getAllDocsMeta_sorted_witness :
  StronglySorted (Content.meta_le collate) site_metas.
Proof.
  apply (ListingFacts.getAllDocsMeta_sorted sample_matter collate
           insertion_sort site_dir).
  - apply SortFacts.insertion_sort_conforming.
  - apply SortFacts.collate_consistent.
  - vm_compute. reflexivity.
  - repeat constructor; discriminate.
Defined.

Lemma listed_slug_resolves_witness :
  exists resolved,
    Pages.resolve_from sample_access (Content.slugFromFilename (str "alpha.mdx"))
      SUPPORTED_EXT None = Some resolved /\
    supported resolved = true /\
    Content.slugFromFilename resolved
    = Content.slugFromFilename (str "alpha.mdx") /\
    (resolved = str "alpha.mdx" \/
     (resolved = Content.slugFromFilename (str "alpha.mdx") ++ str ".md" /\
      str "alpha.mdx" = Content.slugFromFilename (str "alpha.mdx") ++ str ".mdx")).
Proof.
  apply (PagesFacts.listed_slug_resolves sample_access (str "alpha.mdx")).
  - reflexivity.
  - reflexivity.
Defined.

Lemma unknown_slug_not_found_witness :
  Pages.getDocBySlug Slugger.ascii_slugify sample_parse jsstring
    sample_compileMDX sample_access site_dir (str "missing")
  = Throw (Pages.not_found (str "missing")) /\
  Pages.DocPage Slugger.ascii_slugify sample_parse jsstring
    sample_compileMDX sample_ToNumber sample_access site_dir (str "missing")
  = Pages.NotFound /\
  Pages.generateMetadata Slugger.ascii_slugify sample_parse jsstring
    sample_compileMDX sample_ToString sample_access site_dir (str "missing")
  = Pages.mkMetadata (str "Topic not found") None.
Proof.
  apply (PagesFacts.unknown_slug_not_found Slugger.ascii_slugify sample_parse
           jsstring sample_compileMDX sample_ToString sample_ToNumber
           sample_access site_dir (str "missing")).
  intros ext [<-|[<-|[]]]; eexists; reflexivity.
Defined.

End Instances.
